(** * Remediation control loop: event ring, status snapshot, bug classifier,
      fix engine, test pass and orchestrator

    A shallow embedding of the Python sources

      - [utils/event_bus.py], the reader loop of [main.py] (module [EventBus])
      - [utils/status_manager.py] (module [StatusManager])
      - [agents/bug_agent.py]     (module [BugAgent])
      - [agents/fix_agent.py], [agents/groq_ai_agent.py] (module [FixAgent])
      - [agents/git_agent.py], the branch name (module [GitAgent])
      - [agents/test_agent.py]    (module [TestAgent])
      - [orchestrator.py], with the guard of [main.py]'s [run_agent] and what
        [utils/results_manager.py] computes (module [Orchestrator])

    Python values are modelled as the code has them: [int] is [Z], [str] is
    [string] (a sequence of code points below 256), a dict with a fixed set of
    keys is a record, a dict used as a map is a [gmap], a set is a [gset].
    Code that can raise runs in a state-and-error monad whose state survives
    an exception, as side effects do in Python.  A file holds its text as it
    is stored; a read in text mode translates the newlines and raises on a
    file that does not decode.  [int] on the digits of a line number raises
    beyond the interpreter's digit limit. *)

From stdpp Require Import gmap strings list fin_maps pretty sorting.
From Stdlib Require Import ZArith Lia Ascii.

Local Open Scope string_scope.
Local Open Scope list_scope.
Local Open Scope Z_scope.

(** ** Python exceptions and effectful code *)

(** [except Exception] catches [Exc], not [BaseExc] (KeyboardInterrupt,
    SystemExit, CancelledError).  [exn_str] is what [str(exc)] returns. *)
Inductive exn : Type :=
  | Exc (cls : string) (msg : string)
  | BaseExc (cls : string) (msg : string).

Definition exn_str (e : exn) : string :=
  match e with Exc _ m => m | BaseExc _ m => m end.

(** [except SyntaxError]: the class and its two subclasses. *)
Definition is_syntax_error (e : exn) : bool :=
  match e with
  | Exc c _ => String.eqb c "SyntaxError" || String.eqb c "IndentationError"
               || String.eqb c "TabError"
  | BaseExc _ _ => false
  end.

Inductive result (A : Type) : Type :=
  | Ok (a : A)
  | Raise (e : exn).
Arguments Ok {A} a.
Arguments Raise {A} e.

(** A computation over a state [S]: the state after a [Raise] is the state at
    the point of the raise. *)
Definition M (S A : Type) : Type := S -> result A * S.

Definition ret {S A} (a : A) : M S A := fun s => (Ok a, s).
Definition raise {S A} (e : exn) : M S A := fun s => (Raise e, s).
Definition bind {S A B} (c : M S A) (k : A -> M S B) : M S B :=
  fun s => match c s with
           | (Ok a, s') => k a s'
           | (Raise e, s') => (Raise e, s')
           end.
Definition get {S} : M S S := fun s => (Ok s, s).
Definition modify {S} (f : S -> S) : M S unit := fun s => (Ok tt, f s).

Notation "x <~ c ;; k" := (bind c (fun x => k))
  (at level 100, c at next level, right associativity).
Notation "c ;;; k" := (bind c (fun _ => k))
  (at level 100, right associativity).

Lemma bind_cases {S A B} (c : M S A) (k : A -> M S B) s r s' :
  bind c k s = (r, s') ->
  (exists a s1, c s = (Ok a, s1) /\ k a s1 = (r, s'))
  \/ (exists e, c s = (Raise e, s') /\ r = Raise e).
Proof.
  unfold bind. destruct (c s) as [[a|e] s1]; intros H.
  - left. eauto.
  - right. injection H as <- <-. eauto.
Qed.

(** ** The pieces of Python's [str] the sources use *)
Module Py.

Definition nl : string := String (ascii_of_nat 10) "".
Definition tab : string := String (ascii_of_nat 9) "".
Definition cr : string := String (ascii_of_nat 13) "".
Definition dquote : string := String (ascii_of_nat 34) "".

(** [str.isspace] on one code point below 256. *)
Definition isspace (a : ascii) : bool :=
  let n := nat_of_ascii a in
  ((9 <=? n)%nat && (n <=? 13)%nat) || ((28 <=? n)%nat && (n <=? 32)%nat)
  || (n =? 133)%nat || (n =? 160)%nat.

Fixpoint lstrip (s : string) : string :=
  match s with
  | String a s' => if isspace a then lstrip s' else s
  | EmptyString => EmptyString
  end.

Fixpoint rstrip (s : string) : string :=
  match s with
  | String a s' =>
      match rstrip s' with
      | EmptyString => if isspace a then EmptyString else String a EmptyString
      | r => String a r
      end
  | EmptyString => EmptyString
  end.

Definition strip (s : string) : string := lstrip (rstrip s).

Definition startswith (p s : string) : bool := String.prefix p s.

Definition startswith_any (ps : list string) (s : string) : bool :=
  existsb (fun p => startswith p s) ps.

Fixpoint endswith_from (p s : string) (n : nat) : bool :=
  match n with
  | O => String.eqb p s
  | S n' => match s with
            | String _ s' => endswith_from p s' n'
            | EmptyString => false
            end
  end.

Definition endswith (p s : string) : bool :=
  (String.length p <=? String.length s)%nat
  && endswith_from p s (String.length s - String.length p).

(** [sub in s] *)
Fixpoint contains (sub s : string) : bool :=
  String.prefix sub s ||
  match s with
  | String _ s' => contains sub s'
  | EmptyString => false
  end.

(** [s.replace(old, new)] for a non-empty [old]: occurrences are replaced
    left to right without overlap; [skip] counts the characters of a matched
    occurrence still to be dropped. *)
Fixpoint replace_from (old new s : string) (skip : nat) : string :=
  match s with
  | EmptyString => EmptyString
  | String a s' =>
      match skip with
      | S k => replace_from old new s' k
      | O => if String.prefix old s
             then new +:+ replace_from old new s' (String.length old - 1)
             else String a (replace_from old new s' 0)
      end
  end.

Definition replace (old new s : string) : string := replace_from old new s 0.

(** [s.split(sep)] for a non-empty [sep]; [cur] is the current piece, kept
    reversed. *)
Fixpoint split_from (sep s : string) (skip : nat) (cur : string) : list string :=
  match s with
  | EmptyString => [String.rev cur]
  | String a s' =>
      match skip with
      | S k => split_from sep s' k cur
      | O => if String.prefix sep s
             then String.rev cur :: split_from sep s' (String.length sep - 1) ""
             else split_from sep s' 0 (String a cur)
      end
  end.

Definition split (sep s : string) : list string := split_from sep s 0 "".

(** [s.split(sep, 1)] when [sep] occurs in [s]: the text before and the
    text after its first occurrence. *)
Fixpoint string_drop (n : nat) (s : string) : string :=
  match n, s with
  | S n', String _ s' => string_drop n' s'
  | _, _ => s
  end.

Fixpoint split_once_from (sep s cur : string) : string * string :=
  match s with
  | EmptyString => (String.rev cur, "")
  | String a s' =>
      if String.prefix sep s
      then (String.rev cur, string_drop (String.length sep) s)
      else split_once_from sep s' (String a cur)
  end.

Definition split_once (sep s : string) : string * string :=
  split_once_from sep s "".

(** [sep.join(parts)] *)
Fixpoint join (sep : string) (parts : list string) : string :=
  match parts with
  | [] => ""
  | [p] => p
  | p :: rest => p +:+ sep +:+ join sep rest
  end.

(** [s.lower()] on code points below 256. *)
Definition lower_char (a : ascii) : ascii :=
  let n := nat_of_ascii a in
  if ((65 <=? n)%nat && (n <=? 90)%nat)
     || ((192 <=? n)%nat && (n <=? 222)%nat && negb (n =? 215)%nat)
  then ascii_of_nat (n + 32) else a.

Fixpoint lower (s : string) : string :=
  match s with
  | String a s' => String (lower_char a) (lower s')
  | EmptyString => EmptyString
  end.

(** [f.readlines()]: the lines of a text, each keeping its newline. *)
Fixpoint readlines_from (s : string) (cur : string) : list string :=
  match s with
  | EmptyString => match cur with EmptyString => [] | _ => [String.rev cur] end
  | String a s' =>
      if Ascii.eqb a (ascii_of_nat 10)
      then String.rev (String a cur) :: readlines_from s' ""
      else readlines_from s' (String a cur)
  end.

Definition readlines (s : string) : list string := readlines_from s "".

(** Universal newlines, the translation a read in text mode applies to the
    decoded text: a carriage return followed by a line feed, and a carriage
    return on its own, each become one line feed. *)
Fixpoint universal_newlines (s : string) : string :=
  match s with
  | EmptyString => EmptyString
  | String a s' =>
      if Ascii.eqb a (ascii_of_nat 13) then
        match s' with
        | String b _ =>
            if Ascii.eqb b (ascii_of_nat 10) then universal_newlines s'
            else String (ascii_of_nat 10) (universal_newlines s')
        | EmptyString => nl
        end
      else String a (universal_newlines s')
  end.

(** [os.path.join(a, b)] and [os.path.dirname(p)] of [posixpath]. *)
Definition path_join (a b : string) : string :=
  if startswith "/" b then b
  else if String.eqb a "" || endswith "/" a then a +:+ b
  else a +:+ "/" +:+ b.

(** The text up to and including the last [/] of [p], reversed. *)
Fixpoint rev_head (r : string) : string :=
  match r with
  | String a r' => if Ascii.eqb a "/"%char then r else rev_head r'
  | EmptyString => EmptyString
  end.

Fixpoint all_slashes (s : string) : bool :=
  match s with
  | String a s' => Ascii.eqb a "/"%char && all_slashes s'
  | EmptyString => true
  end.

Fixpoint drop_slashes (r : string) : string :=
  match r with
  | String a r' => if Ascii.eqb a "/"%char then drop_slashes r' else r
  | EmptyString => EmptyString
  end.

Definition dirname (p : string) : string :=
  let head := rev_head (String.rev p) in
  if all_slashes head then String.rev head
  else String.rev (drop_slashes head).

End Py.

(** ** [utils/event_bus.py]: the bounded event ring *)
Module EventBus.

Section Bus.
(** [Time] is the type of the readings of [time.time()]. *)
Variable Time : Type.

Record event : Type := {
  ev_id : Z;
  ev_type : string;
  ev_message : string;
  ev_timestamp : Time
}.

(** The object's fields: [_events] is a [deque(maxlen=max_events)], oldest
    event first; the lock makes every method one atomic step. *)
Record bus : Type := {
  maxlen : nat;
  events : list event;
  next_id : Z
}.

Definition default_max_events : nat := 2000.

(** [__init__(max_events)] *)
Definition init (max_events : nat) : bus :=
  {| maxlen := max_events; events := []; next_id := 1 |}.

(** [deque.append] on a bounded deque: the item goes to the right end, and
    when the deque is then longer than [maxlen] its leftmost item is
    dropped. *)
Definition deque_append {A : Type} (cap : nat) (d : list A) (x : A) : list A :=
  let d' := d ++ [x] in
  if decide (cap < length d')%nat then drop 1 d' else d'.

Definition publish (event_type message : string) (now : Time) (b : bus)
  : Z * bus :=
  let event := {| ev_id := next_id b; ev_type := event_type;
                  ev_message := message; ev_timestamp := now |} in
  (ev_id event,
   {| maxlen := maxlen b;
      events := deque_append (maxlen b) (events b) event;
      next_id := next_id b + 1 |}).

Definition get_since (last_id : Z) (b : bus) : list event :=
  filter (fun event => last_id < ev_id event) (events b).

(** A run of [publish] calls, each with its type, message and clock reading;
    the ids returned, in order, and the final bus. *)
Fixpoint publish_all (msgs : list (string * string * Time)) (b : bus)
  : list Z * bus :=
  match msgs with
  | [] => ([], b)
  | (ty, msg, now) :: rest =>
      let r := publish ty msg now b in
      let rs := publish_all rest r.2 in
      (r.1 :: rs.1, rs.2)
  end.

(** The reader of [main.py]'s event stream: [cursor = max(cursor, event.id)]
    over the events of one poll. *)
Definition advance_cursor (cursor : Z) (evs : list event) : Z :=
  foldl (fun c event => Z.max c (ev_id event)) cursor evs.

Definition id_lt (e1 e2 : event) : Prop := ev_id e1 < ev_id e2.

(** *** Invariants of the ring *)

(** Ids grow along the ring and stay below [next_id]. *)
Definition ordered (b : bus) : Prop :=
  StronglySorted id_lt (events b) /\
  Forall (fun e => ev_id e < next_id b) (events b).

(** The ring holds the ids of the most recent publishes, without gaps. *)
Definition consecutive (b : bus) : Prop :=
  ev_id <$> events b
  = seqZ (next_id b - Z.of_nat (length (events b))) (Z.of_nat (length (events b))).

Lemma ordered_init n : ordered (init n).
Proof. split; constructor. Qed.

Lemma StronglySorted_drop {A} (R : A -> A -> Prop) k (l : list A) :
  StronglySorted R l -> StronglySorted R (drop k l).
Proof.
  revert l. induction k as [|k IH]; intros l Hl; [by rewrite drop_0|].
  destruct l as [|x l]; [done|]. simpl. apply IH.
  by apply StronglySorted_cons in Hl as [_ ?].
Qed.

Lemma StronglySorted_filter {A} (R : A -> A -> Prop) (P : A -> Prop)
    `{!forall x, Decision (P x)} (l : list A) :
  StronglySorted R l -> StronglySorted R (filter P l).
Proof.
  induction 1 as [|x l Hl IH Hx]; [constructor|].
  rewrite filter_cons. destruct (decide (P x)); [|done].
  constructor; [done|]. apply Forall_forall. intros y Hy.
  apply list_elem_of_filter in Hy as [_ Hy].
  rewrite Forall_forall in Hx. by apply Hx.
Qed.

Lemma ordered_publish ty msg now b :
  ordered b -> ordered (publish ty msg now b).2.
Proof.
  intros [Hs Hb]. unfold ordered, publish, deque_append. simpl.
  set (ev := Build_event _ _ _ _).
  assert (Hs' : StronglySorted id_lt (events b ++ [ev])).
  { apply StronglySorted_app. split_and!; [|done|repeat constructor].
    intros x1 x2 H1 ->%list_elem_of_singleton.
    rewrite Forall_forall in Hb. unfold id_lt. simpl. by apply Hb. }
  assert (Hb' : Forall (fun e => ev_id e < next_id b + 1) (events b ++ [ev])).
  { apply Forall_app. split.
    - eapply Forall_impl; [exact Hb|]. simpl. intros. lia.
    - repeat constructor. simpl. lia. }
  case_decide.
  - split; [by apply StronglySorted_drop | by apply Forall_drop].
  - done.
Qed.

Lemma ordered_publish_all msgs b :
  ordered b -> ordered (publish_all msgs b).2.
Proof.
  revert b. induction msgs as [|[[ty msg] now] rest IH]; intros b Hb; [done|].
  simpl. apply IH. by apply ordered_publish.
Qed.

Lemma get_since_above c b : Forall (fun e => c < ev_id e) (get_since c b).
Proof.
  apply Forall_forall. intros e He.
  by apply list_elem_of_filter in He as [? _].
Qed.

Lemma advance_cursor_ge c evs : c <= advance_cursor c evs.
Proof.
  revert c. induction evs as [|e evs IH]; intros c; simpl; [lia|].
  etrans; [|apply IH]. lia.
Qed.

Lemma advance_cursor_bound c evs e :
  e ∈ evs -> ev_id e <= advance_cursor c evs.
Proof.
  revert c. induction evs as [|x evs IH]; intros c He.
  - by apply elem_of_nil in He.
  - apply elem_of_cons in He as [->|He]; simpl.
    + etrans; [|apply advance_cursor_ge]. lia.
    + by apply IH.
Qed.

Lemma consecutive_init n : consecutive (init n).
Proof. reflexivity. Qed.

Lemma consecutive_publish ty msg now b :
  consecutive b -> consecutive (publish ty msg now b).2.
Proof.
  unfold consecutive, publish, deque_append. simpl. intros Hc.
  set (ev := Build_event _ _ _ _).
  set (len := length (events b)) in *.
  assert (Hall : ev_id <$> (events b ++ [ev])
                 = seqZ (next_id b + 1 - Z.of_nat (S len)) (Z.of_nat (S len))).
  { rewrite fmap_app, Hc. simpl.
    replace (Z.of_nat (S len)) with (Z.of_nat len + 1) by lia.
    rewrite seqZ_app by lia.
    replace (next_id b + 1 - (Z.of_nat len + 1)) with (next_id b - Z.of_nat len) by lia.
    f_equal. replace (next_id b - Z.of_nat len + Z.of_nat len) with (next_id b) by lia.
    reflexivity. }
  assert (Hlen : length (events b ++ [ev]) = S len).
  { rewrite length_app. simpl. unfold len. lia. }
  case_decide.
  - rewrite fmap_drop, Hall, length_drop, Hlen.
    rewrite seqZ_cons by lia. simpl. rewrite drop_0.
    f_equal; lia.
  - rewrite Hall, Hlen. reflexivity.
Qed.

Lemma consecutive_publish_all msgs b :
  consecutive b -> consecutive (publish_all msgs b).2.
Proof.
  revert b. induction msgs as [|[[ty msg] now] rest IH]; intros b Hb; [done|].
  simpl. apply IH. by apply consecutive_publish.
Qed.

Lemma publish_all_ids msgs b :
  (publish_all msgs b).1 = seqZ (next_id b) (Z.of_nat (length msgs)) /\
  next_id (publish_all msgs b).2 = next_id b + Z.of_nat (length msgs).
Proof.
  revert b. induction msgs as [|[[ty msg] now] rest IH]; intros b.
  - simpl. split; [done | lia].
  - cbn [publish_all length fst snd].
    destruct (IH (publish ty msg now b).2) as [Hi Hn].
    rewrite Hi, Hn. simpl. split; [|lia].
    rewrite (seqZ_cons (next_id b)) by lia.
    f_equal. f_equal; lia.
Qed.

Lemma publish_all_maxlen msgs b : maxlen (publish_all msgs b).2 = maxlen b.
Proof.
  revert b. induction msgs as [|[[ty msg] now] rest IH]; intros b; [done|].
  simpl. by rewrite IH.
Qed.

Lemma publish_length ty msg now b :
  (length (events b) <= maxlen b)%nat ->
  (length (events (publish ty msg now b).2) <= maxlen b)%nat.
Proof.
  unfold publish, deque_append. simpl. intros Hl.
  case_decide as Hd; rewrite length_app in Hd;
    rewrite ?length_drop, length_app; simpl in *; lia.
Qed.

Lemma publish_all_length msgs b :
  (length (events b) <= maxlen b)%nat ->
  (length (events (publish_all msgs b).2) <= maxlen b)%nat.
Proof.
  revert b. induction msgs as [|[[ty msg] now] rest IH]; intros b Hb; [done|].
  cbn [publish_all snd].
  specialize (IH (publish ty msg now b).2).
  cbn [publish snd maxlen] in IH. apply IH.
  by apply (publish_length ty msg now).
Qed.

(** C9: [get_since c] returns only events with an id above [c], in increasing
    id order; and when the reader moves its cursor to the largest id it has
    seen, a later poll (after any further publishes) returns only events with
    larger ids than every event of the earlier poll, so none twice. *)
Theorem get_since_cursor_monotone
    (n : nat) (msgs more : list (string * string * Time)) (c : Z) :
  let b := (publish_all msgs (init n)).2 in
  let r1 := get_since c b in
  let c1 := advance_cursor c r1 in
  let r2 := get_since c1 (publish_all more b).2 in
  Forall (fun e => c < ev_id e) r1 /\
  StronglySorted id_lt r1 /\
  c <= c1 /\
  Forall (fun e => c1 < ev_id e) r2 /\
  StronglySorted id_lt r2 /\
  (forall e1 e2, e1 ∈ r1 -> e2 ∈ r2 -> ev_id e1 < ev_id e2) /\
  (forall e, e ∈ r1 -> e ∉ r2).
Proof.
  intros b r1 c1 r2.
  assert (Hb : ordered b) by apply ordered_publish_all, ordered_init.
  assert (Hb' : ordered (publish_all more b).2) by by apply ordered_publish_all.
  assert (Hlt : forall e1 e2, e1 ∈ r1 -> e2 ∈ r2 -> ev_id e1 < ev_id e2).
  { intros e1 e2 H1 H2.
    pose proof (advance_cursor_bound c r1 e1 H1) as Hle.
    apply list_elem_of_filter in H2 as [H2 _]. fold c1 in Hle. lia. }
  split_and!.
  - apply get_since_above.
  - apply StronglySorted_filter, Hb.
  - apply advance_cursor_ge.
  - apply get_since_above.
  - apply StronglySorted_filter, Hb'.
  - exact Hlt.
  - intros e H1 H2. specialize (Hlt e e H1 H2). lia.
Qed.

(** C10: on the ring as the orchestrator builds it (capacity 2000) the first
    publish returns 1, the publishes of any run return 1, 2, 3, ... in order,
    the next publish returns an id never handed out before, the ring never
    holds more than 2000 events, it holds exactly the most recent ids with no
    gap, and a publish on a full ring drops the single oldest event and
    nothing else. *)
Theorem publish_ring_capacity
    (msgs : list (string * string * Time)) (ty msg : string) (now : Time) :
  let start := init default_max_events in
  let ids := (publish_all msgs start).1 in
  let b := (publish_all msgs start).2 in
  let r := publish ty msg now b in
  (publish ty msg now start).1 = 1 /\
  ids = seqZ 1 (Z.of_nat (length msgs)) /\
  r.1 = Z.of_nat (length msgs) + 1 /\
  (r.1 ∉ ids) /\
  next_id r.2 = r.1 + 1 /\
  (length (events b) <= 2000)%nat /\
  (length (events r.2) <= 2000)%nat /\
  consecutive b /\
  ((length (events b) < 2000)%nat ->
     events r.2 = events b ++ [Build_event r.1 ty msg now]) /\
  (length (events b) = 2000%nat ->
     events r.2 = drop 1 (events b) ++ [Build_event r.1 ty msg now]
     /\ length (events r.2) = 2000%nat).
Proof.
  intros start ids b r.
  destruct (publish_all_ids msgs start) as [Hids Hnext].
  fold ids in Hids. fold b in Hnext. simpl in Hids, Hnext.
  assert (Hmax : maxlen b = 2000%nat) by apply publish_all_maxlen.
  assert (Hlen : (length (events b) <= 2000)%nat).
  { rewrite <- Hmax. unfold b. rewrite publish_all_maxlen.
    apply publish_all_length. simpl. lia. }
  assert (Hr1 : r.1 = Z.of_nat (length msgs) + 1) by (simpl; lia).
  split_and!.
  - reflexivity.
  - exact Hids.
  - exact Hr1.
  - rewrite Hids, Hr1, elem_of_seqZ. lia.
  - simpl. lia.
  - exact Hlen.
  - rewrite <- Hmax. apply publish_length. lia.
  - apply consecutive_publish_all, consecutive_init.
  - intros Hlt. unfold r, publish, deque_append. cbn [snd events fst ev_id].
    rewrite Hmax. case_decide as Hd; [|done].
    rewrite length_app in Hd. simpl in Hd. lia.
  - intros Hfull. unfold r, publish, deque_append. cbn [snd events fst ev_id].
    rewrite Hmax. case_decide as Hd.
    + rewrite drop_app_le by lia. split; [done|].
      rewrite length_app, length_drop. simpl. lia.
    + rewrite length_app in Hd. simpl in Hd. lia.
Qed.

(** *** Round trip, eviction and the reader's loop *)

(** The reader of [main.py]'s [/events] stream: it polls [get_since] with
    its cursor, hands the events on and moves the cursor over them; between
    two polls the run thread publishes.  A session is the list of the
    batches published before each poll; the result is what the reader hands
    on, in order.  (Keep-alive lines and the sleep between polls are left
    out.) *)
Fixpoint stream_events (session : list (list (string * string * Time)))
    (cursor : Z) (b : bus) : list event :=
  match session with
  | [] => []
  | batch :: rest =>
      let b' := (publish_all batch b).2 in
      let evs := get_since cursor b' in
      evs ++ stream_events rest (advance_cursor cursor evs) b'
  end.

Lemma filter_none {A} (P : A -> Prop) `{!forall x, Decision (P x)}
    (l : list A) :
  Forall (fun x => ~ P x) l -> filter P l = [].
Proof.
  induction 1 as [|x l Hx _ IH]; [done|].
  by rewrite filter_cons, decide_False.
Qed.

Lemma publish_length_exact ty msg now b :
  (length (events b) <= maxlen b)%nat ->
  length (events (publish ty msg now b).2)
  = Nat.min (length (events b) + 1)%nat (maxlen b).
Proof.
  unfold publish, deque_append. cbn [snd events]. intros Hl.
  case_decide as Hd; rewrite length_app in Hd; cbn [length] in Hd;
    rewrite ?length_drop, length_app; cbn [length]; lia.
Qed.

Lemma publish_all_length_exact msgs b :
  (length (events b) <= maxlen b)%nat ->
  length (events (publish_all msgs b).2)
  = Nat.min (length (events b) + length msgs)%nat (maxlen b).
Proof.
  revert b. induction msgs as [|[[ty msg] now] rest IH]; intros b Hb.
  - cbn [publish_all snd length]. lia.
  - cbn [publish_all snd length].
    pose proof (publish_length ty msg now b Hb) as Hle.
    pose proof (publish_length_exact ty msg now b Hb) as Heq.
    specialize (IH (publish ty msg now b).2).
    cbn [publish snd maxlen] in IH, Hle, Heq |- *.
    rewrite IH by exact Hle. rewrite Heq. lia.
Qed.

Lemma filter_consecutive c (evs : list event) m :
  ev_id <$> evs = seqZ m (Z.of_nat (length evs)) ->
  ev_id <$> filter (fun e => c < ev_id e) evs
  = seqZ (Z.max (c + 1) m) (m + Z.of_nat (length evs) - Z.max (c + 1) m).
Proof.
  revert m. induction evs as [|e evs IH]; intros m Hids.
  - cbn [length filter list_filter fmap list_fmap].
    symmetry. apply seqZ_nil. lia.
  - rewrite fmap_cons in Hids. cbn [length] in Hids.
    rewrite seqZ_cons in Hids by lia.
    injection Hids as Hm Hrest.
    replace (Z.pred (Z.of_nat (S (length evs)))) with (Z.of_nat (length evs))
      in Hrest by lia.
    specialize (IH _ Hrest). rewrite filter_cons. cbn [length].
    destruct (decide (c < ev_id e)) as [Hc|Hc].
    + rewrite fmap_cons, IH.
      rewrite (seqZ_cons (Z.max (c + 1) m)) by lia.
      f_equal; [lia|]. f_equal; lia.
    + rewrite IH. f_equal; lia.
Qed.

(** X1: on a ring of capacity at least one, reached by any publishes, a
    publish followed by [get_since] with the cursor just below the returned
    id gives back exactly the event published, with its type, message and
    timestamp. *)
Theorem publish_get_since_round_trip
    (n : nat) (msgs : list (string * string * Time)) (ty msg : string)
    (now : Time) :
  (0 < n)%nat ->
  let b := (publish_all msgs (init n)).2 in
  let r := publish ty msg now b in
  get_since (r.1 - 1) r.2
  = [{| ev_id := r.1; ev_type := ty; ev_message := msg;
        ev_timestamp := now |}].
Proof.
  intros Hn b r.
  assert (Hord : ordered b) by apply ordered_publish_all, ordered_init.
  assert (Hmax : maxlen b = n) by apply publish_all_maxlen.
  destruct Hord as [_ Hbelow].
  assert (Hold : forall k, filter (fun e => next_id b - 1 < ev_id e)
                             (drop k (events b)) = []).
  { intros k. apply filter_none, Forall_drop.
    eapply Forall_impl; [exact Hbelow|]. cbn beta. intros. lia. }
  unfold get_since, r, publish, deque_append. cbn [fst snd events ev_id].
  rewrite Hmax. case_decide as Hd; rewrite length_app in Hd; cbn [length] in Hd.
  - rewrite drop_app_le by lia. rewrite filter_app, Hold.
    cbn [app]. rewrite filter_cons, decide_True by (cbn [ev_id]; lia). done.
  - rewrite filter_app, <- (drop_0 (events b)), Hold.
    cbn [app]. rewrite filter_cons, decide_True by (cbn [ev_id]; lia). done.
Qed.

(** X2: after [k] publishes on a ring of capacity [n], the ring holds
    [min k n] events, and [get_since c] returns the events with exactly the
    ids from [max (c + 1) (k + 1 - min k n)] to [k]: a reader whose cursor
    lies below the oldest retained id gets the retained events only, with no
    error for the evicted ones, and a reader that has caught up gets
    nothing. *)
Theorem get_since_after_eviction
    (n : nat) (msgs : list (string * string * Time)) (c : Z) :
  let b := (publish_all msgs (init n)).2 in
  let k := Z.of_nat (length msgs) in
  let oldest := k + 1 - Z.of_nat (Nat.min (length msgs) n) in
  length (events b) = Nat.min (length msgs) n
  /\ ev_id <$> get_since c b
     = seqZ (Z.max (c + 1) oldest) (k + 1 - Z.max (c + 1) oldest)
  /\ (k <= c -> get_since c b = []).
Proof.
  intros b k oldest.
  assert (Hlen : length (events b) = Nat.min (length msgs) n).
  { unfold b. rewrite publish_all_length_exact; cbn [init events maxlen length]; lia. }
  assert (Hnext : next_id b = k + 1).
  { destruct (publish_all_ids msgs (init n)) as [_ Hn]. fold b in Hn.
    cbn [init next_id] in Hn. lia. }
  assert (Hcons : consecutive b) by apply consecutive_publish_all, consecutive_init.
  unfold consecutive in Hcons. rewrite Hnext in Hcons.
  assert (Hids : ev_id <$> get_since c b
     = seqZ (Z.max (c + 1) oldest) (k + 1 - Z.max (c + 1) oldest)).
  { unfold get_since. rewrite (filter_consecutive c _ _ Hcons).
    unfold oldest. rewrite Hlen. f_equal; lia. }
  split_and!; [done..|].
  intros Hc. rewrite seqZ_nil in Hids by lia.
  by apply fmap_nil_inv in Hids.
Qed.

Lemma stream_events_ordered session cursor b :
  ordered b ->
  Forall (fun e => cursor < ev_id e) (stream_events session cursor b)
  /\ StronglySorted id_lt (stream_events session cursor b).
Proof.
  revert cursor b. induction session as [|batch rest IH]; intros cursor b Hb.
  - split; constructor.
  - cbn [stream_events].
    set (b' := (publish_all batch b).2).
    set (evs := get_since cursor b').
    assert (Hb' : ordered b') by by apply ordered_publish_all.
    destruct (IH (advance_cursor cursor evs) b' Hb') as [Habove Hsorted].
    pose proof (advance_cursor_ge cursor evs) as Hge.
    split.
    + apply Forall_app. split; [apply get_since_above|].
      eapply Forall_impl; [exact Habove|]. cbn beta. intros. lia.
    + apply StronglySorted_app. split_and!.
      * intros e1 e2 H1 H2.
        pose proof (advance_cursor_bound cursor evs e1 H1) as Hle.
        rewrite Forall_forall in Habove. specialize (Habove e2 H2).
        unfold id_lt. lia.
      * apply StronglySorted_filter, Hb'.
      * exact Hsorted.
Qed.

(** X3: whatever is published between the polls and however small the ring,
    the events a reader hands on over a whole session have strictly
    increasing ids, all above the cursor it started with: no event is
    delivered twice or out of order. *)
Theorem stream_events_in_order
    (n : nat) (before : list (string * string * Time))
    (session : list (list (string * string * Time))) (last_id : Z) :
  let delivered :=
    stream_events session last_id (publish_all before (init n)).2 in
  Forall (fun e => last_id < ev_id e) delivered
  /\ StronglySorted id_lt delivered
  /\ NoDup (ev_id <$> delivered).
Proof.
  intros delivered.
  destruct (stream_events_ordered session last_id
              (publish_all before (init n)).2) as [Habove Hsorted].
  { apply ordered_publish_all, ordered_init. }
  split_and!; [done..|].
  fold delivered in Hsorted. clear Habove.
  induction Hsorted as [|e l _ IH Hall]; [constructor|].
  rewrite fmap_cons. constructor; [|exact IH].
  intros (e' & Heq & He')%list_elem_of_fmap.
  rewrite Forall_forall in Hall. specialize (Hall e' He').
  unfold id_lt in Hall. lia.
Qed.

End Bus.

Arguments ev_id {Time} _.
Arguments ev_type {Time} _.
Arguments ev_message {Time} _.
Arguments ev_timestamp {Time} _.
Arguments events {Time} _.
Arguments next_id {Time} _.
Arguments maxlen {Time} _.
Arguments init {Time} _.
Arguments publish {Time} _ _ _ _.
Arguments get_since {Time} _ _.
Arguments publish_all {Time} _ _.
Arguments advance_cursor {Time} _ _.
Arguments stream_events {Time} _ _ _.

Lemma publish_get_since_round_trip_witness :
  (0 < 2)%nat
  /\ get_since (4 - 1)
       (publish "log" "Detected 1 failures" 1700000003
          (publish_all [("log", "Cloning repository...", 1700000000);
                        ("log", "Tests run 1/5: FAILED", 1700000001);
                        ("log", "Detected 2 failures", 1700000002)]
             (init 2)).2).2
     = [{| ev_id := 4; ev_type := "log"; ev_message := "Detected 1 failures";
           ev_timestamp := 1700000003 |}].
Proof.
  split; [lia|].
  apply (publish_get_since_round_trip Z 2
           [("log", "Cloning repository...", 1700000000);
            ("log", "Tests run 1/5: FAILED", 1700000001);
            ("log", "Detected 2 failures", 1700000002)]
           "log" "Detected 1 failures" 1700000003).
  lia.
Defined.

End EventBus.

(** ** Bug records and fix outcomes *)

(** A bug dict as [BugAgent] builds it. *)
Record bug : Type := {
  b_file : string;
  b_bug_type : string;
  b_line : Z;
  b_status : string
}.

(** A bug as the orchestrator queues it for the fix engine: the bug's entries
    plus ["failed_attempts"], and ["force_groq"] (set only on escalation; an
    absent key is [false]). *)
Record queued_bug : Type := {
  q_file : string;
  q_bug_type : string;
  q_line : Z;
  q_status : string;
  q_force_groq : bool;
  q_failed_attempts : Z
}.

(** A fix outcome dict as [FixAgent.apply_fixes] builds it. *)
Record fix_outcome : Type := {
  f_file : string;
  f_bug_type : string;
  f_line : Z;
  f_status : string;
  f_commit_message : string
}.

(** The identity key [(file, bug_type, line)]. *)
Definition bug_key (b : bug) : string * string * Z :=
  (b_file b, b_bug_type b, b_line b).
Definition queued_key (q : queued_bug) : string * string * Z :=
  (q_file q, q_bug_type q, q_line q).
Definition fix_key (f : fix_outcome) : string * string * Z :=
  (f_file f, f_bug_type f, f_line f).

(** ** [agents/bug_agent.py]: the classifier *)
Module BugAgent.

(** The regular expressions of [parse], in the order they are applied. *)
Definition file_line : string :=
  "File " +:+ Py.dquote +:+ "(.+?\.py)" +:+ Py.dquote +:+ ", line (\d+).*?".
Definition syntax_re : string := file_line +:+ "SyntaxError".
Definition indentation_re : string :=
  file_line +:+ "(IndentationError|TabError)".
Definition import_re : string :=
  file_line +:+ "(ModuleNotFoundError|ImportError)".
Definition type_re : string := file_line +:+ "(TypeError|ValueError)".
Definition logic_re : string :=
  file_line +:+ "(NameError|KeyError|AssertionError|AttributeError)".
Definition logic_short_re : string := "(.+?\.py):(\d+):\s*AssertionError".
Definition lint_re : string :=
  "(.+?\.py):(\d+):(?:\d+:)?\s*(?:F401|W0611|.*unused import)".
Definition pyright_re : string := "(.+?\.py):(\d+):(\d+)\s*-\s*error:\s*(.+)".
Definition collecting_re : string := "ERROR collecting (.+?\.py).*?ImportError".

(** [clean_path]: [split(sep)[1]] is the text between the first and the
    second occurrence of [sep]. *)
Definition clean_path (full_path : string) : string :=
  if Py.contains "workspace/repo/" full_path
  then nth 1 (Py.split "workspace/repo/" full_path) ""
  else if Py.contains "/repo/" full_path
  then nth 1 (Py.split "/repo/" full_path) ""
  else full_path.

(** [_add_bug]; the pair is the caller's [bugs] list and [seen] set. *)
Definition _add_bug (st : list bug * gset (string * string * Z))
    (file_path bug_type : string) (line : Z)
  : list bug * gset (string * string * Z) :=
  let clean := clean_path file_path in
  let key := (clean, bug_type, line) in
  if decide (key ∈ st.2) then st
  else (st.1 ++ [{| b_file := clean; b_bug_type := bug_type; b_line := line;
                    b_status := "Detected" |}],
        {[ key ]} ∪ st.2).

(** The bug type of a type-checker diagnostic. *)
Definition pyright_bug_type (message : string) : string :=
  let msg := Py.lower message in
  if Py.contains "import" msg || Py.contains "cannot be resolved" msg
  then "IMPORT"
  else if Py.contains "type" msg || Py.contains "argument of type" msg
          || Py.contains "cannot assign" msg
  then "TYPE_ERROR"
  else if Py.contains "syntax" msg then "SYNTAX"
  else "LOGIC".

(** The identity key of a candidate: its path is normalized first. *)
Definition candidate_key (c : string * string * Z) : string * string * Z :=
  (clean_path c.1.1, c.1.2, c.2).

Definition detected (k : string * string * Z) : bug :=
  {| b_file := k.1.1; b_bug_type := k.1.2; b_line := k.2;
     b_status := "Detected" |}.

(** Feeding a list of candidates to [_add_bug] one by one. *)
Definition add_all (cs : list (string * string * Z))
    (st : list bug * gset (string * string * Z)) :=
  foldl (fun st c => _add_bug st c.1.1 c.1.2 c.2) st cs.

(** The first occurrence of every key of a list, in the order of the list:
    the head stays, and its later copies are removed from the rest. *)
Fixpoint first_occurrences (ks : list (string * string * Z))
  : list (string * string * Z) :=
  match ks with
  | [] => []
  | k :: rest => k :: filter (fun k' => k' <> k) (first_occurrences rest)
  end.

(** [_add_bug]'s test on the [seen] set, on keys alone. *)
Fixpoint fresh (seen : gset (string * string * Z))
    (ks : list (string * string * Z)) : list (string * string * Z) :=
  match ks with
  | [] => []
  | k :: rest =>
      if decide (k ∈ seen) then fresh seen rest
      else k :: fresh ({[ k ]} ∪ seen) rest
  end.

Section Parse.
(** [re.findall(pattern, logs, flags)] of Python's [re] module, by the number
    of groups of the pattern; the flag is [re.DOTALL].  A group [(\d+)]
    matches a run of decimal digits, given with its leading zeros. *)
Variable findall1 : string -> bool -> string -> list string.
Variable findall2 : string -> bool -> string -> list (string * Decimal.uint).
Variable findall3 :
  string -> bool -> string -> list (string * Decimal.uint * string).
Variable findall4 :
  string -> bool -> string
  -> list (string * Decimal.uint * Decimal.uint * string).
(** [sys.get_int_max_str_digits()]: the longest run of digits [int] converts,
    4300 unless the interpreter is configured otherwise; 0 stands for no
    limit (and for the versions of Python that have none). *)
Variable int_max_str_digits : nat.

(** [int(digits)] raises [ValueError] on a run of digits longer than the
    limit; leading zeros count. *)
Definition exceeds (digits : Decimal.uint) : bool :=
  (0 <? int_max_str_digits)%nat
  && (int_max_str_digits <? Decimal.nb_digits digits)%nat.

Definition int_error (digits : Decimal.uint) : exn :=
  Exc "ValueError"
    ("Exceeds the limit (" +:+ pretty int_max_str_digits
     +:+ " digits) for integer string conversion: value has "
     +:+ pretty (Decimal.nb_digits digits)
     +:+ " digits; use sys.set_int_max_str_digits() to increase the limit").

Definition int (digits : Decimal.uint) : result Z :=
  if exceeds digits then Raise (int_error digits)
  else Ok (Z.of_uint digits).

(** The local variables [bugs] and [seen] of [parse]. *)
Definition locals : Type := list bug * gset (string * string * Z).

(** [self._add_bug(bugs, seen, file_path, bug_type, int(line))]: the argument
    [int(line)] is evaluated before the call. *)
Definition add_line (file_path bug_type : string) (line : Decimal.uint)
  : M locals unit :=
  n <~ (fun st => (int line, st));;
  modify (fun st => _add_bug st file_path bug_type n).

(** [self._add_bug(bugs, seen, file_path, bug_type, 1)] *)
Definition add_at (file_path bug_type : string) (line : Z) : M locals unit :=
  modify (fun st => _add_bug st file_path bug_type line).

(** [for x in items: body] *)
Fixpoint for_each {A} (items : list A) (body : A -> M locals unit)
  : M locals unit :=
  match items with
  | [] => ret tt
  | x :: rest => body x;;; for_each rest body
  end.

Definition parse (logs : string) : result (list bug) :=
  if decide (logs = "") then Ok []
  else
    ((for_each (findall2 syntax_re true logs)
        (fun '(file_path, line) => add_line file_path "SYNTAX" line);;;
      for_each (findall3 indentation_re true logs)
        (fun '(file_path, line, _) => add_line file_path "INDENTATION" line);;;
      for_each (findall3 import_re true logs)
        (fun '(file_path, line, _) => add_line file_path "IMPORT" line);;;
      for_each (findall3 type_re true logs)
        (fun '(file_path, line, _) => add_line file_path "TYPE_ERROR" line);;;
      for_each (findall3 logic_re true logs)
        (fun '(file_path, line, _) => add_line file_path "LOGIC" line);;;
      for_each (findall2 logic_short_re false logs)
        (fun '(file_path, line) => add_line file_path "LOGIC" line);;;
      for_each (findall2 lint_re false logs)
        (fun '(file_path, line) => add_line file_path "LINTING" line);;;
      for_each (findall4 pyright_re false logs)
        (fun '(file_path, line, _col, message) =>
           add_line file_path (pyright_bug_type message) line);;;
      for_each (findall1 collecting_re true logs)
        (fun file_path => add_at file_path "IMPORT" 1);;;
      st <~ get;;
      (match st.1 with
       | [] => add_at "<unknown>" "UNKNOWN" 1
       | _ => ret tt
       end);;;
      st <~ get;;
      ret st.1) ([], ∅)).1.

(** *** What the matchers found, as one list *)

(** The (file, bug type, line) triples the nine matcher families hand to
    [_add_bug], family after family, each family in match order. *)
Definition candidates (logs : string) : list (string * string * Z) :=
  ((fun '(p, l) => (p, "SYNTAX", Z.of_uint l)) <$> findall2 syntax_re true logs)
  ++ ((fun '(p, l, _) => (p, "INDENTATION", Z.of_uint l))
        <$> findall3 indentation_re true logs)
  ++ ((fun '(p, l, _) => (p, "IMPORT", Z.of_uint l))
        <$> findall3 import_re true logs)
  ++ ((fun '(p, l, _) => (p, "TYPE_ERROR", Z.of_uint l))
        <$> findall3 type_re true logs)
  ++ ((fun '(p, l, _) => (p, "LOGIC", Z.of_uint l))
        <$> findall3 logic_re true logs)
  ++ ((fun '(p, l) => (p, "LOGIC", Z.of_uint l))
        <$> findall2 logic_short_re false logs)
  ++ ((fun '(p, l) => (p, "LINTING", Z.of_uint l))
        <$> findall2 lint_re false logs)
  ++ ((fun '(p, l, _, m) => (p, pyright_bug_type m, Z.of_uint l))
        <$> findall4 pyright_re false logs)
  ++ ((fun p => (p, "IMPORT", 1)) <$> findall1 collecting_re true logs).

(** The runs of digits [parse] hands to [int], in the order of the calls. *)
Definition line_digits (logs : string) : list Decimal.uint :=
  ((fun '(_, l) => l) <$> findall2 syntax_re true logs)
  ++ ((fun '(_, l, _) => l) <$> findall3 indentation_re true logs)
  ++ ((fun '(_, l, _) => l) <$> findall3 import_re true logs)
  ++ ((fun '(_, l, _) => l) <$> findall3 type_re true logs)
  ++ ((fun '(_, l, _) => l) <$> findall3 logic_re true logs)
  ++ ((fun '(_, l) => l) <$> findall2 logic_short_re false logs)
  ++ ((fun '(_, l) => l) <$> findall2 lint_re false logs)
  ++ ((fun '(_, l, _, _) => l) <$> findall4 pyright_re false logs).

(** The first run of digits that [int] refuses. *)
Fixpoint first_overlong (digits : list Decimal.uint) : option Decimal.uint :=
  match digits with
  | [] => None
  | d :: rest => if exceeds d then Some d else first_overlong rest
  end.

(** *** The classifier keeps first occurrences *)

Lemma add_all_app cs1 cs2 st :
  add_all (cs1 ++ cs2) st = add_all cs2 (add_all cs1 st).
Proof. unfold add_all. apply foldl_app. Qed.

Lemma add_all_cons c cs st :
  add_all (c :: cs) st = add_all cs (_add_bug st c.1.1 c.1.2 c.2).
Proof. reflexivity. Qed.

Lemma first_overlong_app ds1 ds2 :
  first_overlong (ds1 ++ ds2)
  = match first_overlong ds1 with
    | Some d => Some d
    | None => first_overlong ds2
    end.
Proof.
  induction ds1 as [|d ds1 IH]; [done|]. cbn [app first_overlong].
  by destruct (exceeds d).
Qed.

(** One family: its loop raises at the first run of digits [int] refuses,
    and else hands every match to [_add_bug]. *)
Lemma for_each_add_line {A} (c : A -> string * string * Z)
    (dg : A -> Decimal.uint) (body : A -> M locals unit) (l : list A)
    (st : locals) :
  (forall x, body x = add_line (c x).1.1 (c x).1.2 (dg x)
             /\ (c x).2 = Z.of_uint (dg x)) ->
  match first_overlong (dg <$> l) with
  | Some d => (for_each l body st).1 = Raise (int_error d)
  | None => for_each l body st = (Ok tt, add_all (c <$> l) st)
  end.
Proof.
  intros Hbody. revert st. induction l as [|x l IH]; intros st; [done|].
  cbn [fmap list_fmap first_overlong for_each].
  destruct (Hbody x) as [-> Hline].
  unfold bind at 1, add_line, bind, int, modify.
  destruct (exceeds (dg x)); [done|].
  specialize (IH (_add_bug st (c x).1.1 (c x).1.2 (Z.of_uint (dg x)))).
  rewrite add_all_cons, Hline.
  destruct (first_overlong (dg <$> l)); [done|].
  by rewrite IH.
Qed.

Lemma for_each_add_at (l : list string) (st : locals) :
  for_each l (fun file_path => add_at file_path "IMPORT" 1) st
  = (Ok tt, add_all ((fun p => (p, "IMPORT", 1)) <$> l) st).
Proof.
  revert st. induction l as [|x l IH]; intros st; [done|].
  cbn [fmap list_fmap for_each]. unfold bind at 1, add_at, modify.
  by rewrite IH.
Qed.

Lemma bind_raises {S A B} (c : M S A) (k : A -> M S B) s e :
  (c s).1 = Raise e -> (bind c k s).1 = Raise e.
Proof. unfold bind. destruct (c s) as [[a|e'] s']; simpl; congruence. Qed.

Lemma bind_returns {S A B} (c : M S A) (k : A -> M S B) s a s' :
  c s = (Ok a, s') -> bind c k s = k a s'.
Proof. unfold bind. by intros ->. Qed.

Ltac family :=
  match goal with
  | |- (bind (for_each ?l ?body) _ ?s).1 = _ =>
      match goal with
      | |- context [first_overlong (?dg <$> l)] =>
          match goal with
          | |- context [add_all (?c <$> l) _] =>
              let Hfam := fresh "Hfam" in
              assert (Hfam := for_each_add_line c dg body l s);
              match type of Hfam with
              | ?P -> _ =>
                  let Hb := fresh "Hb" in
                  assert (Hb : P)
                    by (intros x;
                        repeat match goal with
                               | x : (_ * _)%type |- _ => destruct x
                               end; by split);
                  specialize (Hfam Hb); clear Hb
              end;
              destruct (first_overlong (dg <$> l));
              [ by apply bind_raises
              | rewrite (bind_returns _ _ _ _ _ Hfam); clear Hfam ]
          end
      end
  end.

(** [parse] raises at the first run of digits [int] refuses and else returns
    what [_add_bug] has collected from the candidates. *)
Lemma parse_add_all logs :
  parse logs =
    if decide (logs = "") then Ok []
    else match first_overlong (line_digits logs) with
         | Some d => Raise (int_error d)
         | None =>
             let st := add_all (candidates logs) ([], ∅) in
             Ok match st.1 with
                | [] => (_add_bug st "<unknown>" "UNKNOWN" 1).1
                | _ => st.1
                end
         end.
Proof.
  unfold parse, candidates, line_digits. case_decide; [done|].
  rewrite !add_all_app, !first_overlong_app. cbv zeta.
  generalize (([], ∅) : locals). intros st.
  do 8 family.
  rewrite (bind_returns _ _ _ _ _ (for_each_add_at _ _)).
  unfold bind, get, add_at, modify, ret.
  match goal with
  | |- context [match (?s).1 with _ => _ end] => generalize s
  end.
  by intros [[|??] ?].
Qed.

Lemma fresh_first_occurrences seen ks :
  fresh seen ks = filter (fun k => k ∉ seen) (first_occurrences ks).
Proof.
  revert seen. induction ks as [|k ks IH]; intros seen; [done|].
  simpl. rewrite filter_cons. case_decide as Hk.
  - rewrite decide_False by (intros ?; done).
    rewrite IH, list_filter_filter. apply list_filter_iff.
    intros x. split; [intros ?; split; [done | congruence] | tauto].
  - rewrite decide_True by done. f_equal.
    rewrite IH, list_filter_filter. apply list_filter_iff.
    intros x. set_solver.
Qed.

Lemma fresh_all_seen seen ks :
  (forall k, k ∈ ks -> k ∈ seen) -> fresh seen ks = [].
Proof.
  induction ks as [|k ks IH]; intros Hall; [done|].
  simpl. rewrite decide_True by (apply Hall; left).
  apply IH. intros k' Hk'. apply Hall. by right.
Qed.

Lemma fresh_empty ks : fresh ∅ ks = first_occurrences ks.
Proof.
  rewrite fresh_first_occurrences.
  induction (first_occurrences ks) as [|k l IH]; [done|].
  rewrite filter_cons, decide_True by set_solver. by rewrite IH.
Qed.

Lemma add_all_fresh cs bugs seen :
  add_all cs (bugs, seen)
  = (bugs ++ (detected <$> fresh seen (candidate_key <$> cs)),
     seen ∪ list_to_set (candidate_key <$> cs)).
Proof.
  revert bugs seen. induction cs as [|c cs IH]; intros bugs seen.
  - simpl. rewrite app_nil_r. f_equal. set_solver.
  - rewrite add_all_cons, fmap_cons. cbn [fresh list_to_set].
    unfold _add_bug. cbn [fst snd].
    change (clean_path c.1.1, c.1.2, c.2) with (candidate_key c).
    destruct (decide (candidate_key c ∈ seen)) as [Hk|Hk].
    + rewrite IH. f_equal. set_solver.
    + rewrite IH, <- app_assoc. f_equal. set_solver.
Qed.

Lemma NoDup_first_occurrences ks : NoDup (first_occurrences ks).
Proof.
  induction ks as [|k ks IH]; simpl; constructor.
  - rewrite list_elem_of_filter. tauto.
  - by apply NoDup_filter.
Qed.

Lemma first_occurrences_same_keys ks k :
  k ∈ first_occurrences ks <-> k ∈ ks.
Proof.
  induction ks as [|x ks IH]; simpl; [done|].
  rewrite !elem_of_cons, list_elem_of_filter, IH.
  destruct (decide (k = x)); tauto.
Qed.

Lemma bug_key_detected (ks : list (string * string * Z)) :
  bug_key <$> (detected <$> ks) = ks.
Proof.
  induction ks as [|[[??]?] ks IH]; [done|]. by rewrite !fmap_cons, IH.
Qed.

Definition unknown_bug : bug :=
  {| b_file := "<unknown>"; b_bug_type := "UNKNOWN"; b_line := 1;
     b_status := "Detected" |}.

Lemma parse_first_occurrences logs :
  parse logs =
    if decide (logs = "") then Ok []
    else match first_overlong (line_digits logs) with
         | Some d => Raise (int_error d)
         | None =>
             Ok match first_occurrences (candidate_key <$> candidates logs) with
                | [] => [unknown_bug]
                | ks => detected <$> ks
                end
         end.
Proof.
  rewrite parse_add_all. case_decide; [done|].
  destruct (first_overlong _); [done|]. cbv zeta. f_equal.
  rewrite add_all_fresh, fresh_empty. cbn [fst snd app].
  destruct (first_occurrences _) as [|k ks] eqn:Hfo; [|done].
  simpl. unfold _add_bug. cbn [fst snd].
  assert (Hnil : candidate_key <$> candidates logs = []).
  { destruct (candidate_key <$> candidates logs); [done | discriminate]. }
  rewrite Hnil. simpl. rewrite decide_False by set_solver. done.
Qed.

(** Where the matchers find nothing, [int] is not called. *)
Lemma candidates_nil_digits logs : candidates logs = [] -> line_digits logs = [].
Proof.
  unfold candidates, line_digits. intros H.
  repeat (apply app_eq_nil in H as [?%fmap_nil_inv H]).
  repeat match goal with Heq : _ = [] |- _ => rewrite Heq; clear Heq end.
  done.
Qed.

(** What [parse] returns, when it returns. *)
Lemma parse_returns logs bugs :
  parse logs = Ok bugs ->
  bugs = if decide (logs = "") then []
         else match first_occurrences (candidate_key <$> candidates logs) with
              | [] => [unknown_bug]
              | ks => detected <$> ks
              end.
Proof.
  rewrite parse_first_occurrences. case_decide; [congruence|].
  destruct (first_overlong _); [discriminate|]. congruence.
Qed.

(** C4: a non-empty diagnostic text in which none of the nine matchers finds
    anything is classified as exactly one record, file [<unknown>], type
    UNKNOWN, line 1, status Detected; the empty text is classified as the
    empty list.  In both cases [parse] returns: nothing is converted by
    [int]. *)
Theorem parse_unmatched_gives_unknown (logs : string) :
  logs <> "" ->
  candidates logs = [] ->
  parse logs = Ok [{| b_file := "<unknown>"; b_bug_type := "UNKNOWN";
                      b_line := 1; b_status := "Detected" |}]
  /\ parse "" = Ok [].
Proof.
  intros Hne Hnone. split; [|done].
  rewrite parse_first_occurrences, decide_False by done.
  by rewrite (candidates_nil_digits _ Hnone), Hnone.
Qed.

(** C5: [parse] raises [ValueError] at the first line number [int] refuses
    and otherwise returns the list of the first occurrences of the identity
    keys the matchers found, in matcher-family order (or the single UNKNOWN
    record when they found none); no identity key occurs twice in a list
    [parse] returns; every key found occurs in it; and handing the same
    matches to [_add_bug] a second time adds nothing.  [parse] is a function
    of the text alone, so classifying a text twice gives the same result. *)
Theorem parse_keeps_first_occurrences (logs : string) :
  let found := candidate_key <$> candidates logs in
  parse logs =
    (if decide (logs = "") then Ok []
     else match first_overlong (line_digits logs) with
          | Some d => Raise (int_error d)
          | None =>
              Ok match first_occurrences found with
                 | [] => [unknown_bug]
                 | ks => detected <$> ks
                 end
          end) /\
  (forall bugs, parse logs = Ok bugs -> NoDup (bug_key <$> bugs)) /\
  (forall bugs k, parse logs = Ok bugs -> logs <> "" -> k ∈ found ->
     k ∈ bug_key <$> bugs) /\
  add_all (candidates logs) (add_all (candidates logs) ([], ∅))
    = add_all (candidates logs) ([], ∅).
Proof.
  intros found. split_and!.
  - apply parse_first_occurrences.
  - intros bugs ->%parse_returns. case_decide; [constructor|].
    destruct (first_occurrences _) as [|k ks] eqn:Hfo.
    + simpl. apply NoDup_singleton.
    + change (NoDup (bug_key <$> (detected <$> (k :: ks)))).
      rewrite bug_key_detected, <- Hfo. apply NoDup_first_occurrences.
  - intros bugs k ->%parse_returns Hne Hk. rewrite decide_False by done.
    apply first_occurrences_same_keys in Hk.
    destruct (first_occurrences _) as [|k' ks] eqn:Hfo.
    + by apply elem_of_nil in Hk.
    + change (k ∈ bug_key <$> (detected <$> (k' :: ks))).
      by rewrite bug_key_detected.
  - rewrite (add_all_fresh (candidates logs) [] ∅).
    rewrite add_all_fresh. fold found.
    rewrite (fresh_all_seen (∅ ∪ list_to_set found) found) by set_solver.
    simpl. rewrite app_nil_r. f_equal. set_solver.
Qed.

(** *** What every result of [parse] looks like *)

Ltac pick_member :=
  solve [repeat first [apply list_elem_of_here | apply list_elem_of_further]].

Lemma pyright_bug_type_cases message :
  pyright_bug_type message ∈ ["IMPORT"; "TYPE_ERROR"; "SYNTAX"; "LOGIC"].
Proof.
  unfold pyright_bug_type. repeat case_match; pick_member.
Qed.

Lemma of_uint_nonneg d : 0 <= Z.of_uint d.
Proof. unfold Z.of_uint. apply N2Z.is_nonneg. Qed.

Definition matcher_types : list string :=
  ["SYNTAX"; "INDENTATION"; "IMPORT"; "TYPE_ERROR"; "LOGIC"; "LINTING"].

Lemma candidates_shape logs c :
  c ∈ candidates logs -> c.1.2 ∈ matcher_types /\ 0 <= c.2.
Proof.
  unfold candidates, matcher_types. rewrite !elem_of_app, !list_elem_of_fmap.
  pose proof of_uint_nonneg as Hn.
  intros [H|[H|[H|[H|[H|[H|[H|[H|H]]]]]]]]; destruct H as (m & -> & _);
    repeat match goal with m : (_ * _)%type |- _ => destruct m end;
    cbn [fst snd]; try (split; [pick_member | first [apply Hn | lia]]).
  split; [|apply Hn].
  match goal with
  | |- pyright_bug_type ?m ∈ _ => pose proof (pyright_bug_type_cases m) as Hp
  end.
  repeat (apply elem_of_cons in Hp as [->|Hp]; [pick_member|]).
  by apply elem_of_nil in Hp.
Qed.

(** X4: [parse] returns the empty list for the empty text only: on a
    non-empty text it either raises (the [ValueError] of [int]) or returns
    at least one record, so the orchestrator's branch for "tests failed but
    no parseable failures" never runs. *)
Theorem parse_empty_iff (logs : string) : parse logs = Ok [] <-> logs = "".
Proof.
  rewrite parse_first_occurrences. case_decide as Hl; [done|].
  split; [|done]. destruct (first_overlong _); [discriminate|].
  by destruct (first_occurrences _).
Qed.

(** X5: every record [parse] returns has status Detected, a line number that
    is not negative and one of the seven bug types; a record of type UNKNOWN
    is never mixed with other records: when one occurs, it is the whole
    result. *)
Theorem parse_records_shape (logs : string) (bugs : list bug) :
  parse logs = Ok bugs ->
  Forall (fun b => b_status b = "Detected" /\ 0 <= b_line b
                   /\ b_bug_type b ∈ matcher_types ++ ["UNKNOWN"])
    bugs
  /\ (forall b, b ∈ bugs -> b_bug_type b = "UNKNOWN" ->
        bugs = [unknown_bug]).
Proof.
  intros ->%parse_returns. case_decide as Hl.
  { split; [constructor | by intros b Hb%elem_of_nil]. }
  destruct (first_occurrences _) as [|k ks] eqn:Hfo.
  { split; [|done]. apply Forall_cons. split; [|constructor].
    split_and!; [done | cbn; lia | cbn; pick_member]. }
  assert (Hin : forall b, b ∈ detected <$> (k :: ks) ->
            b_status b = "Detected" /\ 0 <= b_line b
            /\ b_bug_type b ∈ matcher_types).
  { intros b (key & -> & Hkey)%list_elem_of_fmap.
    rewrite <- Hfo in Hkey.
    apply (proj1 (first_occurrences_same_keys _ _)) in Hkey.
    apply list_elem_of_fmap in Hkey as (c & -> & Hc).
    apply candidates_shape in Hc as [Hty Hline]. by repeat split. }
  split.
  - apply Forall_forall. intros b Hb. destruct (Hin b Hb) as (? & ? & Hty).
    split_and!; [done..|]. apply elem_of_app. by left.
  - intros b Hb Hu. destruct (Hin b Hb) as (_ & _ & Hty).
    rewrite Hu in Hty. unfold matcher_types in Hty.
    repeat (apply elem_of_cons in Hty as [Hty|Hty]; [discriminate|]).
    by apply elem_of_nil in Hty.
Qed.

End Parse.

(** The matchers of a text in which nothing is recognised. *)
Definition no_match {A : Type} : string -> bool -> string -> list A :=
  fun _ _ _ => [].

Lemma parse_unmatched_gives_unknown_witness :
  "Segmentation fault" <> ""
  /\ candidates no_match no_match no_match no_match "Segmentation fault" = []
  /\ (parse no_match no_match no_match no_match 4300 "Segmentation fault"
       = Ok [{| b_file := "<unknown>"; b_bug_type := "UNKNOWN";
                b_line := 1; b_status := "Detected" |}]
      /\ parse no_match no_match no_match no_match 4300 "" = Ok []).
Proof.
  split; [discriminate|]. split; [reflexivity|].
  apply (parse_unmatched_gives_unknown no_match no_match no_match no_match
           4300 "Segmentation fault"); [discriminate | reflexivity].
Defined.

(** A type checker that reports [app.py], line 10, and [lib/util.py],
    line 3, and a traceback matcher that reports [app.py], line 10, too. *)
Definition traceback_match
  : string -> bool -> string -> list (string * Decimal.uint) :=
  fun re _ _ =>
    if String.eqb re syntax_re
    then [("workspace/repo/app.py", Decimal.D1 (Decimal.D0 Decimal.Nil))]
    else [].
Definition checker_match
  : string -> bool -> string
    -> list (string * Decimal.uint * Decimal.uint * string) :=
  fun _ _ _ =>
    [("/tmp/x/repo/app.py", Decimal.D1 (Decimal.D0 Decimal.Nil),
      Decimal.D4 Decimal.Nil, "invalid syntax");
     ("lib/util.py", Decimal.D3 Decimal.Nil,
      Decimal.D1 Decimal.Nil, "Import could not be resolved")].

Lemma parse_records_shape_witness :
  let bugs := [ {| b_file := "app.py"; b_bug_type := "SYNTAX"; b_line := 10;
                   b_status := "Detected" |};
                {| b_file := "lib/util.py"; b_bug_type := "IMPORT";
                   b_line := 3; b_status := "Detected" |} ] in
  Forall (fun b => b_status b = "Detected" /\ 0 <= b_line b
                   /\ b_bug_type b ∈ matcher_types ++ ["UNKNOWN"])
    bugs
  /\ (forall b, b ∈ bugs -> b_bug_type b = "UNKNOWN" ->
        bugs = [unknown_bug]).
Proof.
  intros bugs.
  apply (parse_records_shape no_match traceback_match no_match checker_match
           4300 "diagnostics" bugs).
  vm_compute. reflexivity.
Defined.

(** Two matchers overlap on one traceback line: the syntax family and the
    type-checker family both report [app.py], line 10; the second report is a
    duplicate of the first key and is dropped. *)
Example parse_overlap :
  parse no_match traceback_match no_match checker_match 4300 "diagnostics"
  = Ok [ {| b_file := "app.py"; b_bug_type := "SYNTAX"; b_line := 10;
            b_status := "Detected" |};
         {| b_file := "lib/util.py"; b_bug_type := "IMPORT"; b_line := 3;
            b_status := "Detected" |} ].
Proof. vm_compute. reflexivity. Qed.

(** With a limit of three digits, the line number 1234 stops [parse]: the
    [ValueError] of [int] leaves it, and no record is returned. *)
Example parse_overlong_line :
  parse no_match
    (fun re _ _ =>
       if String.eqb re syntax_re
       then [("app.py",
              Decimal.D1 (Decimal.D2 (Decimal.D3 (Decimal.D4 Decimal.Nil))))]
       else [])
    no_match no_match 3 "diagnostics"
  = Raise (Exc "ValueError"
      "Exceeds the limit (3 digits) for integer string conversion: value has 4 digits; use sys.set_int_max_str_digits() to increase the limit").
Proof. vm_compute. reflexivity. Qed.

End BugAgent.

(** ** [utils/status_manager.py]: the status snapshot *)
Module StatusManager.

(** [_state]: the keys set by [__init__], and ["error"], which is present
    only after [set_state] stored one. *)
Record state : Type := {
  sm_state : string;
  current_step : string;
  iteration : Z;
  total_iterations : Z;
  failures : Z;
  fixes_applied : Z;
  branch_name : string;
  error : option string
}.

(** The manager: [_state] and the step timeline of [(step, status)] dicts.
    Every method runs under the lock, as one atomic step. *)
Record t : Type := {
  _state : state;
  timeline : list (string * string)
}.

Definition init : t :=
  {| _state := {| sm_state := "IDLE"; current_step := ""; iteration := 0;
                  total_iterations := 0; failures := 0; fixes_applied := 0;
                  branch_name := ""; error := None |};
     timeline := [] |}.

(** [reset]: [dict.update] overwrites the seven keys it names and leaves an
    ["error"] entry of an earlier run in place. *)
Definition reset (total : Z) (branch : string) (m : t) : t :=
  {| _state := {| sm_state := "RUNNING"; current_step := "Starting";
                  iteration := 0; total_iterations := total; failures := 0;
                  fixes_applied := 0; branch_name := branch;
                  error := error (_state m) |};
     timeline := [] |}.

Definition with_state (f : state -> state) (m : t) : t :=
  {| _state := f (_state m); timeline := timeline m |}.

Definition set_step (step : string) (iter : option Z) (m : t) : t :=
  let s := _state m in
  {| _state := {| sm_state := sm_state s; current_step := step;
                  iteration := match iter with
                               | Some i => i
                               | None => iteration s
                               end;
                  total_iterations := total_iterations s;
                  failures := failures s; fixes_applied := fixes_applied s;
                  branch_name := branch_name s; error := error s |};
     timeline := timeline m ++ [(step, "In-Progress")] |}.

Definition mark_step (step status : string) (m : t) : t :=
  {| _state := _state m; timeline := timeline m ++ [(step, status)] |}.

Definition update_counts (fails fixed : option Z) (m : t) : t :=
  with_state (fun s =>
    {| sm_state := sm_state s; current_step := current_step s;
       iteration := iteration s; total_iterations := total_iterations s;
       failures := match fails with Some n => n | None => failures s end;
       fixes_applied := match fixed with
                        | Some n => n
                        | None => fixes_applied s
                        end;
       branch_name := branch_name s; error := error s |}) m.

(** [set_state]: a non-empty [error] is stored; an empty one removes the
    entry. *)
Definition set_state (st : string) (err : string) (m : t) : t :=
  with_state (fun s =>
    {| sm_state := st; current_step := current_step s;
       iteration := iteration s; total_iterations := total_iterations s;
       failures := failures s; fixes_applied := fixes_applied s;
       branch_name := branch_name s;
       error := if decide (err = "") then None else Some err |}) m.

Definition set_branch (branch : string) (m : t) : t :=
  with_state (fun s =>
    {| sm_state := sm_state s; current_step := current_step s;
       iteration := iteration s; total_iterations := total_iterations s;
       failures := failures s; fixes_applied := fixes_applied s;
       branch_name := branch; error := error s |}) m.

(** [snapshot]: a copy of [_state] with the timeline added. *)
Definition snapshot (m : t) : state * list (string * string) :=
  (_state m, timeline m).

(** *** Sequences of calls *)

(** A call of one of the six mutating methods, and a sequence of them run
    one after the other (each under the lock). *)
Inductive call : Type :=
  | Reset (total : Z) (branch : string)
  | SetStep (step : string) (iter : option Z)
  | MarkStep (step status : string)
  | UpdateCounts (fails fixed : option Z)
  | SetState (st err : string)
  | SetBranch (branch : string).

Definition perform (c : call) (m : t) : t :=
  match c with
  | Reset total branch => reset total branch m
  | SetStep step iter => set_step step iter m
  | MarkStep step status => mark_step step status m
  | UpdateCounts fails fixed => update_counts fails fixed m
  | SetState st err => set_state st err m
  | SetBranch branch => set_branch branch m
  end.

Definition perform_all (cs : list call) (m : t) : t :=
  foldl (fun m c => perform c m) m cs.

Definition is_set_state (c : call) : bool :=
  match c with SetState _ _ => true | _ => false end.

Definition is_reset (c : call) : bool :=
  match c with Reset _ _ => true | _ => false end.

(** The step-timeline entry a call appends, if any. *)
Definition entries_of (c : call) : list (string * string) :=
  match c with
  | SetStep step _ => [(step, "In-Progress")]
  | MarkStep step status => [(step, status)]
  | _ => []
  end.

Lemma error_kept cs m :
  Forall (fun c => is_set_state c = false) cs ->
  error (_state (perform_all cs m)) = error (_state m).
Proof.
  intros Hcs. revert m. induction Hcs as [|c cs Hc _ IH]; intros m; [done|].
  cbn [perform_all foldl]. fold (perform_all cs (perform c m)). rewrite IH.
  by destruct c.
Qed.

Lemma timeline_grows cs m :
  Forall (fun c => is_reset c = false) cs ->
  timeline (perform_all cs m) = timeline m ++ concat (entries_of <$> cs).
Proof.
  intros Hcs. revert m. induction Hcs as [|c cs Hc _ IH]; intros m.
  - cbn. by rewrite app_nil_r.
  - cbn [perform_all foldl]. fold (perform_all cs (perform c m)).
    rewrite IH, fmap_cons. cbn [concat]. rewrite app_assoc. f_equal.
    destruct c; cbn; rewrite ?app_nil_r; done.
Qed.

(** X6: the error entry is written by [set_state] alone.  After
    [set_state(st, err)] the snapshot holds [err] when it is not empty and no
    error entry when it is, and this stays so through any later calls that
    are not [set_state]: in particular [reset] does not remove the error of
    the run before. *)
Theorem error_entry_outlives_reset (m : t) (st err : string) (cs : list call) :
  Forall (fun c => is_set_state c = false) cs ->
  error (snapshot (perform_all (SetState st err :: cs) m)).1
  = (if decide (err = "") then None else Some err).
Proof.
  intros Hcs. cbn [perform_all foldl snapshot fst].
  fold (perform_all cs (perform (SetState st err) m)).
  by rewrite error_kept.
Qed.

(** X7: between two resets the step timeline only grows: every call that is
    not [reset] keeps the entries already there, [set_step] appends its step
    as In-Progress, [mark_step] appends its step with the status given, and
    the other calls append nothing; [reset] empties the timeline. *)
Theorem timeline_append_only (m : t) (before cs : list call)
    (total : Z) (branch : string) :
  Forall (fun c => is_reset c = false) cs ->
  timeline (perform_all cs m) = timeline m ++ concat (entries_of <$> cs)
  /\ timeline (perform_all (before ++ Reset total branch :: cs) m)
     = concat (entries_of <$> cs).
Proof.
  intros Hcs. split; [by apply timeline_grows|].
  unfold perform_all. rewrite foldl_app. cbn [foldl].
  fold (perform_all before m).
  fold (perform_all cs (perform (Reset total branch) (perform_all before m))).
  by rewrite timeline_grows.
Qed.

Lemma error_entry_outlives_reset_witness :
  Forall (fun c => is_set_state c = false)
    [Reset 5 ""; SetStep "Cloning" (Some 0)]
  /\ error (snapshot (perform_all
                        [SetState "FAILED" "clone failed"; Reset 5 "";
                         SetStep "Cloning" (Some 0)] init)).1
     = Some "clone failed".
Proof.
  split; [by repeat constructor|].
  apply (error_entry_outlives_reset init "FAILED" "clone failed"
           [Reset 5 ""; SetStep "Cloning" (Some 0)]).
  by repeat constructor.
Defined.

Lemma timeline_append_only_witness :
  Forall (fun c => is_reset c = false)
    [SetStep "Testing" (Some 1); UpdateCounts (Some 2) None;
     MarkStep "Fixing" "Done"]
  /\ (timeline (perform_all [SetStep "Testing" (Some 1);
                             UpdateCounts (Some 2) None;
                             MarkStep "Fixing" "Done"] init)
      = timeline init ++ [("Testing", "In-Progress"); ("Fixing", "Done")]
      /\ timeline (perform_all ([SetStep "Cloning" (Some 0)]
                                ++ Reset 5 ""
                                   :: [SetStep "Testing" (Some 1);
                                       UpdateCounts (Some 2) None;
                                       MarkStep "Fixing" "Done"]) init)
         = [("Testing", "In-Progress"); ("Fixing", "Done")]).
Proof.
  split; [by repeat constructor|].
  apply (timeline_append_only init [SetStep "Cloning" (Some 0)]
           [SetStep "Testing" (Some 1); UpdateCounts (Some 2) None;
            MarkStep "Fixing" "Done"] 5 "").
  by repeat constructor.
Defined.

End StatusManager.

(** ** Facts about the string operations *)
Module PyFacts.

(** [String a ""] occurs in [s] exactly when the character [a] does. *)
Lemma contains_char_cons (a b : ascii) (s : string) :
  Py.contains (String a "") (String b s)
  = (if Ascii.ascii_dec a b then true else Py.contains (String a "") s).
Proof.
  cbn [Py.contains String.prefix].
  destruct (Ascii.ascii_dec a b); [|done]. by destruct s.
Qed.

Lemma contains_char_app (a : ascii) (s t : string) :
  Py.contains (String a "") (s +:+ t)
  = Py.contains (String a "") s || Py.contains (String a "") t.
Proof.
  induction s as [|b s IH].
  - cbn [String.append]. by destruct t.
  - change (String b s +:+ t) with (String b (s +:+ t)).
    rewrite !contains_char_cons, IH. by destruct (Ascii.ascii_dec a b).
Qed.

(** Replacing a character by a text that does not hold it leaves no
    occurrence of the character. *)
Lemma replace_char_gone (a : ascii) (new s : string) :
  Py.contains (String a "") new = false ->
  Py.contains (String a "") (Py.replace (String a "") new s) = false.
Proof.
  intros Hnew. unfold Py.replace. induction s as [|b s IH]; [done|].
  cbn [Py.replace_from String.prefix String.length Nat.sub].
  destruct (Ascii.ascii_dec a b) as [->|Hne].
  - assert (Hp : String.prefix "" s = true) by by destruct s.
    rewrite Hp, contains_char_app, Hnew, IH. done.
  - rewrite contains_char_cons. by destruct (Ascii.ascii_dec a b).
Qed.

(** The three line endings, as a read in text mode returns them. *)
Example universal_newlines_mixed :
  Py.universal_newlines
    ("a" +:+ Py.cr +:+ Py.nl +:+ "b" +:+ Py.cr +:+ "c" +:+ Py.nl +:+ Py.cr)
  = "a" +:+ Py.nl +:+ "b" +:+ Py.nl +:+ "c" +:+ Py.nl +:+ Py.nl.
Proof. reflexivity. Qed.

(** A text without carriage return is read as it is stored. *)
Lemma universal_newlines_id (s : string) :
  Py.contains Py.cr s = false -> Py.universal_newlines s = s.
Proof.
  unfold Py.cr. induction s as [|a s IH]; [done|].
  rewrite contains_char_cons. cbn [Py.universal_newlines].
  destruct (Ascii.ascii_dec (ascii_of_nat 13) a) as [->|Hne]; [done|].
  intros Hs. destruct (Ascii.eqb_spec a (ascii_of_nat 13)) as [->|_]; [done|].
  by rewrite IH.
Qed.

End PyFacts.

(** ** [agents/fix_agent.py] and [agents/groq_ai_agent.py]: the fix engine *)
Module FixAgent.

(** [_log] hands a line to the orchestrator's logger; the lines are left out
    of this model, as they are in [Orchestrator]. *)

(** *** The working tree *)

(** A path names a regular file or a directory.  Paths are compared as
    written (no normalisation of [.], [..] or doubled slashes).  A file whose
    bytes decode holds the decoded text as it is stored, carriage returns
    included; a file whose bytes do not decode holds the message of the
    codec's [UnicodeDecodeError].  The locale's encoding is taken to be
    UTF-8, the encoding [groq_ai_agent.py] names, so that the reads of both
    agents decode alike, and the platform to be POSIX, where a write in text
    mode stores the text as given. *)
Inductive node : Type :=
  | File (content : string)
  | Dir
  | Undecodable (reason : string).

(** The world the engine acts on: the file system and the number of requests
    sent to the repair oracle so far. *)
Record world : Type := {
  fs : gmap string node;
  groq_calls : nat
}.

Definition with_fs (f : gmap string node -> gmap string node) (w : world)
  : world :=
  {| fs := f (fs w); groq_calls := groq_calls w |}.

(** [os.path.exists] *)
Definition exists_ (p : string) : M world bool :=
  fun w => (Ok (bool_decide (is_Some (fs w !! p))), w).

Definition errno (cls code what p : string) : exn :=
  Exc cls ("[Errno " +:+ code +:+ "] " +:+ what +:+ ": '" +:+ p +:+ "'").

(** [open(p, "r")] followed by [read()]: the stored text after the
    translation of its newlines; the read of a file that does not decode
    raises. *)
Definition read_text (p : string) : M world string :=
  fun w => match fs w !! p with
           | Some (File c) => (Ok (Py.universal_newlines c), w)
           | Some (Undecodable reason) =>
               (Raise (Exc "UnicodeDecodeError" reason), w)
           | Some Dir => (Raise (errno "IsADirectoryError" "21" "Is a directory" p), w)
           | None =>
               (Raise (errno "FileNotFoundError" "2" "No such file or directory" p), w)
           end.

(** [open(p, "w")] followed by the write of [content]: the file is created
    or replaced when [p] is no directory and the directory it lies in
    exists (the empty directory name is the current directory). *)
Definition write_text (p content : string) : M world unit :=
  fun w =>
    match fs w !! p with
    | Some Dir => (Raise (errno "IsADirectoryError" "21" "Is a directory" p), w)
    | _ =>
        let d := Py.dirname p in
        if decide (d = "") then (Ok tt, with_fs (insert p (File content)) w)
        else match fs w !! d with
             | Some Dir => (Ok tt, with_fs (insert p (File content)) w)
             | Some (File _) | Some (Undecodable _) =>
                 (Raise (errno "NotADirectoryError" "20" "Not a directory" p), w)
             | None =>
                 (Raise (errno "FileNotFoundError" "2" "No such file or directory" p), w)
             end
    end.

(** [f.readlines()] and [f.writelines(lines)] *)
Definition readlines (p : string) : M world (list string) :=
  c <~ read_text p;; ret (Py.readlines c).

Definition writelines (p : string) (lines : list string) : M world unit :=
  write_text p (Py.join "" lines).

(** [try: c  except Exception: h] *)
Definition except_Exception {A} (c : M world A) (h : M world A) : M world A :=
  fun w => match c w with
           | (Raise (Exc _ _), w') => h w'
           | r => r
           end.

Definition colon_targets : list string :=
  ["def "; "class "; "if "; "elif "; "else"; "for "; "while "; "try";
   "except "; "finally"; "with "].

(** The regular expressions of the type and logic strategies. *)
Definition quoted_number_re : string :=
  "([+\-*/%]\s*)[" +:+ Py.dquote +:+ "\'](-?\d+(?:\.\d+)?)["
  +:+ Py.dquote +:+ "\']".
Definition int_call_re : string := "int\(([^()]+)\)".
Definition return_index_re : string :=
  "^(\s*return\s+)([A-Za-z_]\w*)\[(.+)\](\s*)$".

Section Engine.
(** [re.sub(pattern, repl, string)] of Python's [re] module. *)
Variable re_sub : string -> string -> string -> string.
(** What [python -m ruff check --fix rel_file], run in [repo_path], does to
    the file system. *)
Variable ruff_check_fix :
  string -> string -> gmap string node -> gmap string node.
(** The oracle: the [output_text] of the [n]-th request, sent with the given
    prompt, or the exception the request (or its 60 s timeout) raises. *)
Variable responses_create : nat -> string -> result string.
(** [compile(source, filename, "exec")] *)
Variable compile_exec : string -> string -> result unit.

Definition line_in_range (line_no : Z) (lines : list string) : bool :=
  negb ((line_no <=? 0) || (Z.of_nat (length lines) <? line_no)).

(** The import clean-up of [fix_syntax_issue], on one line. *)
Definition clean_import (line : string) : string :=
  let cleaned := Py.rstrip line in
  let cleaned := re_sub ",\s*,+" ", " cleaned in
  let cleaned := re_sub "\s*:\s*$" "" cleaned in
  let cleaned := re_sub ",\s*$" "" cleaned in
  let cleaned := Py.strip (re_sub "\s+" " " cleaned) in
  if Py.startswith "import " cleaned then
    let '(head, tail) := Py.split_once "import " cleaned in
    let modules :=
      filter (fun m => m <> "") (Py.strip <$> Py.split "," tail) in
    match modules with
    | [] => cleaned
    | _ => Py.strip (head +:+ "import " +:+ Py.join ", " modules)
    end
  else cleaned.

Definition fix_syntax_issue (file_path : string) (line_no : Z)
  : M world bool :=
  lines <~ readlines file_path;;
  if negb (line_in_range line_no lines) then ret false
  else
    let i := Z.to_nat (line_no - 1) in
    let line := nth i lines "" in
    let '(lines, changed) :=
      if Py.startswith_any ["import "; "from "] (Py.lstrip line) then
        let cleaned := clean_import line in
        if decide (cleaned <> Py.rstrip line)
        then (<[i := cleaned +:+ Py.nl]> lines, true)
        else (lines, false)
      else (lines, false) in
    let current := nth i lines "" in
    let stripped := Py.strip current in
    let '(lines, changed) :=
      if Py.startswith_any colon_targets stripped
         && negb (Py.endswith ":" stripped)
      then (<[i := Py.rstrip current +:+ ":" +:+ Py.nl]> lines, true)
      else (lines, changed) in
    if negb changed then ret false
    else (writelines file_path lines;;; ret true).

Definition fix_indentation_issue (file_path : string) (line_no : Z)
  : M world bool :=
  lines <~ readlines file_path;;
  if negb (line_in_range line_no lines) then ret false
  else
    let i := Z.to_nat (line_no - 1) in
    let original := nth i lines "" in
    let updated := Py.replace Py.tab "    " original in
    let changed := bool_decide (updated <> original) in
    let '(updated, changed) :=
      if (1 <? line_no)
         && Py.endswith ":" (Py.rstrip (nth (Z.to_nat (line_no - 2)) lines ""))
      then
        if negb (String.eqb (Py.strip updated) "")
           && negb (Py.startswith_any [" "; Py.tab] updated)
        then ("    " +:+ updated, true)
        else (updated, changed)
      else (updated, changed) in
    let lines := <[i := updated]> lines in
    if negb changed then ret false
    else (writelines file_path lines;;; ret true).

(** [_cached_python] *)
Definition _cached_python (repo_path : string) : string :=
  let venv_path := Py.path_join repo_path ".venv" in
  Py.path_join (Py.path_join venv_path "bin") "python".

Definition fix_with_ruff (repo_path rel_file : string) : M world bool :=
  let target_file := Py.path_join repo_path rel_file in
  ex <~ exists_ target_file;;
  if negb ex then ret false
  else
    before <~ read_text target_file;;
    let python_bin := _cached_python repo_path in
    ex <~ exists_ python_bin;;
    if negb ex then ret false
    else
      modify (with_fs (ruff_check_fix repo_path rel_file));;;
      after <~ read_text target_file;;
      ret (bool_decide (before <> after)).

Definition fix_type_error (file_path : string) (line_no : Z) : M world bool :=
  lines <~ readlines file_path;;
  if negb (line_in_range line_no lines) then ret false
  else
    let i := Z.to_nat (line_no - 1) in
    let line := nth i lines "" in
    let normalized := re_sub quoted_number_re "\1\2" line in
    let '(line, changed) :=
      if decide (normalized <> line) then (normalized, true)
      else (line, false) in
    let '(line, changed) :=
      if Py.contains "int(" line && negb (Py.contains "int(float(" line)
      then
        let wrapped := re_sub int_call_re "int(float(\1))" line in
        if decide (wrapped <> line) then (wrapped, true) else (line, changed)
      else (line, changed) in
    if negb changed then ret false
    else (writelines file_path (<[i := line]> lines);;; ret true).

Definition fix_logic_issue (file_path : string) (line_no : Z) : M world bool :=
  lines <~ readlines file_path;;
  if negb (line_in_range line_no lines) then ret false
  else
    let i := Z.to_nat (line_no - 1) in
    let line := nth i lines "" in
    let safe_get := re_sub return_index_re "\1\2.get(\3)\4" line in
    let '(line, changed) :=
      if decide (safe_get <> line) then (safe_get, true) else (line, false) in
    let '(line, changed) :=
      if Py.contains "//" line then (Py.replace "//" "/" line, true)
      else (line, changed) in
    if negb changed then ret false
    else (writelines file_path (<[i := line]> lines);;; ret true).

Definition fix_missing_init (repo_path module_file : string) : M world bool :=
  let module_dir := Py.dirname (Py.path_join repo_path module_file) in
  if String.eqb module_dir "" then ret false
  else
    let init_file := Py.path_join module_dir "__init__.py" in
    ex <~ exists_ init_file;;
    if ex then ret false
    else (write_text init_file "";;; ret true).

(** *** The oracle fallback ([GroqAIAgent]) *)

Definition _build_prompt (source bug_type : string) (line_no : Z) : string :=
  "Return only the full corrected file. No explanations." +:+ Py.nl
  +:+ "Bug type: " +:+ bug_type +:+ Py.nl
  +:+ "Likely failing line: " +:+ pretty line_no +:+ Py.nl
  +:+ "Rules:" +:+ Py.nl
  +:+ "- Keep structure and intent" +:+ Py.nl
  +:+ "- Minimal safe fixes" +:+ Py.nl
  +:+ "- No markdown" +:+ Py.nl
  +:+ "- Return complete file" +:+ Py.nl +:+ Py.nl
  +:+ "File:" +:+ Py.nl
  +:+ source.

(** One request to the oracle. *)
Definition request (prompt : string) : M world string :=
  fun w => (responses_create (groq_calls w) prompt,
            {| fs := fs w; groq_calls := S (groq_calls w) |}).

Definition fix_file_async (file_path bug_type : string) (line_no : Z)
  : M world bool :=
  except_Exception
    (ex <~ exists_ file_path;;
     if negb ex then ret false
     else
       source <~ read_text file_path;;
       let prompt := _build_prompt source bug_type line_no in
       output_text <~ request prompt;;
       let fixed := Py.strip output_text +:+ Py.nl in
       if String.eqb fixed "" || String.eqb (Py.strip fixed) (Py.strip source)
       then ret false
       else
         ok <~ (if Py.endswith ".py" file_path
                then fun w => match compile_exec fixed file_path with
                              | Ok _ => (Ok true, w)
                              | Raise e =>
                                  if is_syntax_error e
                                  then (Ok false, w)
                                  else (Raise e, w)
                              end
                else ret true);;
         if negb ok then ret false
         else (write_text file_path fixed;;; ret true))
    (ret false).

(** [fix_file]: the synchronous wrapper, called from a thread without a
    running event loop; both handlers return [False]. *)
Definition fix_file (file_path bug_type : string) (line_no : Z)
  : M world bool :=
  except_Exception (fix_file_async file_path bug_type line_no) (ret false).

(** *** [apply_fixes] *)

(** The body of the loop, for one bug. *)
Definition apply_fix (repo_path : string) (bug : queued_bug)
  : M world fix_outcome :=
  let bug_type := q_bug_type bug in
  let file_path := Py.path_join repo_path (q_file bug) in
  ex <~ exists_ file_path;;
  fixed <~ (if String.eqb bug_type "SYNTAX" && ex
            then fix_syntax_issue file_path (q_line bug)
            else if String.eqb bug_type "INDENTATION" && ex
            then fix_indentation_issue file_path (q_line bug)
            else if String.eqb bug_type "LINTING" && ex
            then fix_with_ruff repo_path (q_file bug)
            else if String.eqb bug_type "TYPE_ERROR" && ex
            then fix_type_error file_path (q_line bug)
            else if String.eqb bug_type "LOGIC" && ex
            then fix_logic_issue file_path (q_line bug)
            else if String.eqb bug_type "IMPORT"
            then fix_missing_init repo_path (q_file bug)
            else ret false);;
  fixed <~ (if negb fixed && negb (String.eqb bug_type "UNKNOWN")
               && negb (String.eqb (q_file bug) "<unknown>")
            then fix_file file_path bug_type (q_line bug)
            else ret fixed);;
  let commit_message :=
    if fixed then "[AI-AGENT] Fix " +:+ bug_type +:+ " error"
    else "[AI-AGENT] Could not auto-fix " +:+ bug_type in
  ret {| f_file := q_file bug; f_bug_type := bug_type; f_line := q_line bug;
         f_status := if fixed then "Fixed" else "Failed";
         f_commit_message := commit_message |}.

Fixpoint apply_fixes_from (repo_path : string) (bugs : list queued_bug)
    (fixes : list fix_outcome) : M world (list fix_outcome) :=
  match bugs with
  | [] => ret fixes
  | bug :: rest =>
      item <~ apply_fix repo_path bug;;
      apply_fixes_from repo_path rest (fixes ++ [item])
  end.

Definition apply_fixes (repo_path : string) (bugs : list queued_bug)
  : M world (list fix_outcome) :=
  apply_fixes_from repo_path bugs [].

(** *** Atomicity of the deterministic strategies *)

(** [c] only reads the world. *)
Definition reads_only {A} (c : M world A) : Prop :=
  forall w r w', c w = (r, w') -> w' = w.

(** [c] leaves the world as it found it unless it returns [True]. *)
Definition atomic (c : M world bool) : Prop :=
  forall w r w', c w = (r, w') -> r <> Ok true -> w' = w.

Lemma reads_only_ret {A} (a : A) : reads_only (ret a).
Proof. intros w r w' H. unfold ret in H. congruence. Qed.

Lemma reads_only_exists p : reads_only (exists_ p).
Proof. intros w r w' H. unfold exists_ in H. congruence. Qed.

Lemma reads_only_read_text p : reads_only (read_text p).
Proof.
  intros w r w' H. unfold read_text in H.
  destruct (fs w !! p) as [[c| |?]|]; congruence.
Qed.

Lemma reads_only_bind {A B} (c : M world A) (k : A -> M world B) :
  reads_only c -> (forall a, reads_only (k a)) -> reads_only (bind c k).
Proof.
  intros Hc Hk w r w' H. unfold bind in H.
  destruct (c w) as [[a|e] w1] eqn:Hcw; apply Hc in Hcw; subst w1.
  - by apply Hk in H.
  - congruence.
Qed.

Lemma reads_only_readlines p : reads_only (readlines p).
Proof.
  apply reads_only_bind; [apply reads_only_read_text|].
  intros a. apply reads_only_ret.
Qed.

Lemma atomic_ret_false : atomic (ret false).
Proof. intros w r w' H _. unfold ret in H. congruence. Qed.

Lemma atomic_bind {A} (c : M world A) (k : A -> M world bool) :
  reads_only c -> (forall a, atomic (k a)) -> atomic (bind c k).
Proof.
  intros Hc Hk w r w' H Hr. unfold bind in H.
  destruct (c w) as [[a|e] w1] eqn:Hcw; apply Hc in Hcw; subst w1.
  - by eapply Hk.
  - congruence.
Qed.

Lemma write_text_raise p c w e w' :
  write_text p c w = (Raise e, w') -> w' = w.
Proof.
  unfold write_text. intros H.
  destruct (fs w !! p) as [[?| |?]|]; try congruence;
    (destruct (decide (Py.dirname p = "")); [congruence|]);
    destruct (fs w !! Py.dirname p) as [[?| |?]|]; congruence.
Qed.

Lemma atomic_write_then_true p c : atomic (write_text p c;;; ret true).
Proof.
  intros w r w' H Hr. unfold bind, ret in H.
  destruct (write_text p c w) as [[[]|e] w1] eqn:Hw.
  - congruence.
  - apply write_text_raise in Hw. congruence.
Qed.

Lemma atomic_if (b : bool) (c1 c2 : M world bool) :
  atomic c1 -> atomic c2 -> atomic (if b then c1 else c2).
Proof. by destruct b. Qed.

Create HintDb atomic.
Hint Resolve atomic_ret_false atomic_write_then_true atomic_if
  reads_only_readlines reads_only_exists reads_only_read_text : atomic.

Ltac atomic_strategy :=
  apply atomic_bind; [auto with atomic|]; intros ?;
  apply atomic_if; [auto with atomic|];
  repeat match goal with
         | |- atomic (let '(_, _) := ?x in _) => destruct x
         end;
  unfold writelines; auto with atomic.

Lemma fix_syntax_issue_atomic p l : atomic (fix_syntax_issue p l).
Proof. unfold fix_syntax_issue. atomic_strategy. Qed.

Lemma fix_indentation_issue_atomic p l : atomic (fix_indentation_issue p l).
Proof. unfold fix_indentation_issue. atomic_strategy. Qed.

Lemma fix_type_error_atomic p l : atomic (fix_type_error p l).
Proof. unfold fix_type_error. atomic_strategy. Qed.

Lemma fix_logic_issue_atomic p l : atomic (fix_logic_issue p l).
Proof. unfold fix_logic_issue. atomic_strategy. Qed.

Lemma fix_missing_init_atomic repo f : atomic (fix_missing_init repo f).
Proof.
  unfold fix_missing_init. apply atomic_if; [auto with atomic|].
  apply atomic_bind; [auto with atomic|]. intros ex.
  auto with atomic.
Qed.

(** The lint strategy runs an external tool: when it reports failure, a
    read of the target file gives what it gave before. *)
Lemma fix_with_ruff_atomic repo f w w' :
  fix_with_ruff repo f w = (Ok false, w') ->
  (read_text (Py.path_join repo f) w').1
  = (read_text (Py.path_join repo f) w).1.
Proof.
  unfold fix_with_ruff, bind, exists_, ret, modify. intros H.
  destruct (bool_decide (is_Some (fs w !! Py.path_join repo f))); simpl in H;
    [|congruence].
  destruct (read_text (Py.path_join repo f) w) as [[before|e] w1] eqn:Hb;
    [|congruence].
  apply reads_only_read_text in Hb as Hw1. subst w1.
  destruct (bool_decide (is_Some (fs w !! _cached_python repo))); simpl in H;
    [|congruence].
  destruct (read_text (Py.path_join repo f) (with_fs _ w))
    as [[after|e] w2] eqn:Ha; [|congruence].
  apply reads_only_read_text in Ha as Hw2. subst w2.
  injection H as Hd <-. rewrite Ha. simpl.
  apply bool_decide_eq_false in Hd. destruct (decide (before = after)); [|done].
  congruence.
Qed.

(** *** The shape of [apply_fixes]'s result *)

Lemma bind_Ok {A B} (c : M world A) (k : A -> M world B) w b w' :
  bind c k w = (Ok b, w') ->
  exists a w1, c w = (Ok a, w1) /\ k a w1 = (Ok b, w').
Proof.
  unfold bind. destruct (c w) as [[a|e] w1]; [eauto | congruence].
Qed.

Lemma apply_fix_key repo bug w item w' :
  apply_fix repo bug w = (Ok item, w') -> fix_key item = queued_key bug.
Proof.
  unfold apply_fix. intros H.
  apply bind_Ok in H as (ex & w1 & _ & H).
  apply bind_Ok in H as (fixed & w2 & _ & H).
  apply bind_Ok in H as (fixed' & w3 & _ & H).
  unfold ret in H. by injection H as <- _.
Qed.

Lemma apply_fixes_from_keys repo bugs acc w fixes w' :
  apply_fixes_from repo bugs acc w = (Ok fixes, w') ->
  fix_key <$> fixes = (fix_key <$> acc) ++ (queued_key <$> bugs).
Proof.
  revert acc w. induction bugs as [|bug rest IH]; intros acc w H.
  - unfold apply_fixes_from, ret in H. injection H as <- _.
    by rewrite app_nil_r.
  - cbn [apply_fixes_from] in H.
    apply bind_Ok in H as (item & w1 & Hitem & H).
    apply IH in H. rewrite H, fmap_app, <- app_assoc. simpl.
    by rewrite (apply_fix_key _ _ _ _ _ Hitem).
Qed.

(** Whenever [apply_fixes] returns, it returns one outcome per bug, in the
    order of the bugs, each with the identity key of its bug. *)
Lemma apply_fixes_keys repo bugs w fixes w' :
  apply_fixes repo bugs w = (Ok fixes, w') ->
  fix_key <$> fixes = queued_key <$> bugs.
Proof. intros H. by apply apply_fixes_from_keys in H. Qed.

(** [apply_fixes] reads a bug's file, type and line and nothing else: the
    escalation entries the orchestrator adds do not reach any decision. *)
Definition without_escalation (q : queued_bug) : queued_bug :=
  {| q_file := q_file q; q_bug_type := q_bug_type q; q_line := q_line q;
     q_status := q_status q; q_force_groq := false; q_failed_attempts := 0 |}.

Lemma apply_fixes_ignores_escalation repo bugs w :
  apply_fixes repo bugs w = apply_fixes repo (without_escalation <$> bugs) w.
Proof.
  unfold apply_fixes. generalize (@nil fix_outcome) as acc. revert w.
  induction bugs as [|bug rest IH]; intros w acc; [done|].
  rewrite fmap_cons. cbn [apply_fixes_from]. unfold bind.
  change (apply_fix repo (without_escalation bug) w) with (apply_fix repo bug w).
  destruct (apply_fix repo bug w) as [[item|e] w1]; [apply IH | done].
Qed.


(** *** The oracle fallback on an empty answer *)

Lemma strip_nl : Py.strip Py.nl = "".
Proof. reflexivity. Qed.

(** C6 (where the code departs from its contract): when the oracle answers a
    request about a Python file that is not blank with the empty text,
    [fixed] is a single newline; it passes the emptiness test, differs from
    the source and compiles, so [fix_file] overwrites the file with that
    newline and returns [True].  The source is the text read from the
    file. *)
Theorem fix_file_empty_answer_overwrites
    (file_path bug_type : string) (line_no : Z) (w : world) (stored : string) :
  fs w !! file_path = Some (File stored) ->
  Py.strip (Py.universal_newlines stored) <> "" ->
  responses_create (groq_calls w)
    (_build_prompt (Py.universal_newlines stored) bug_type line_no)
    = Ok "" ->
  Py.endswith ".py" file_path = true ->
  compile_exec Py.nl file_path = Ok tt ->
  (Py.dirname file_path = "" \/ fs w !! Py.dirname file_path = Some Dir) ->
  fix_file file_path bug_type line_no w
  = (Ok true, {| fs := <[file_path := File Py.nl]> (fs w);
                 groq_calls := S (groq_calls w) |}).
Proof.
  intros Hfile Hblank Hanswer Hpy Hcompile Hdir.
  unfold fix_file, fix_file_async, except_Exception, bind, exists_, read_text,
    request, ret.
  rewrite Hfile.
  rewrite bool_decide_eq_true_2 by eauto. cbn [negb]. rewrite Hfile.
  rewrite Hanswer.
  change (Py.strip "" +:+ Py.nl) with Py.nl.
  change (String.eqb Py.nl "") with false. rewrite strip_nl. cbn [orb].
  destruct (String.eqb_spec "" (Py.strip (Py.universal_newlines stored)))
    as [Heq|_]; [congruence|].
  rewrite Hpy, Hcompile. cbn [negb].
  unfold write_text. cbn [fs]. rewrite Hfile.
  destruct Hdir as [Hd|Hd].
  - rewrite decide_True by done. reflexivity.
  - destruct (decide (Py.dirname file_path = "")); [reflexivity|].
    rewrite Hd. reflexivity.
Qed.

(** *** Outcomes, bounds and what the strategies leave alone *)

(** The outcome [apply_fixes] builds for a bug, given whether it was fixed. *)
Definition outcome_of (bug : queued_bug) (fixed : bool) : fix_outcome :=
  {| f_file := q_file bug; f_bug_type := q_bug_type bug; f_line := q_line bug;
     f_status := if fixed then "Fixed" else "Failed";
     f_commit_message :=
       if fixed then "[AI-AGENT] Fix " +:+ q_bug_type bug +:+ " error"
       else "[AI-AGENT] Could not auto-fix " +:+ q_bug_type bug |}.

Lemma apply_fix_outcome repo bug w item w' :
  apply_fix repo bug w = (Ok item, w') ->
  exists fixed, item = outcome_of bug fixed.
Proof.
  unfold apply_fix. intros H.
  apply bind_Ok in H as (ex & w1 & _ & H).
  apply bind_Ok in H as (fixed & w2 & _ & H).
  apply bind_Ok in H as (fixed' & w3 & _ & H).
  unfold ret in H. injection H as <- _. by exists fixed'.
Qed.

Lemma apply_fixes_from_outcomes repo bugs acc w fixes w' :
  apply_fixes_from repo bugs acc w = (Ok fixes, w') ->
  exists new, fixes = acc ++ new
    /\ Forall2 (fun bug item => exists fixed, item = outcome_of bug fixed)
         bugs new.
Proof.
  revert acc w. induction bugs as [|bug rest IH]; intros acc w H.
  - unfold apply_fixes_from, ret in H. injection H as <- _.
    exists []. by rewrite app_nil_r.
  - cbn [apply_fixes_from] in H.
    apply bind_Ok in H as (item & w1 & Hitem & H).
    apply IH in H as (new & -> & Hnew).
    exists (item :: new). rewrite <- app_assoc. split; [done|].
    constructor; [|done]. by eapply apply_fix_outcome.
Qed.

(** X8: whenever [apply_fixes] returns, its list pairs off with the input
    bugs one to one and in order; each outcome repeats its bug's file, type
    and line, its status is Fixed or Failed, and its commit message is the
    fixed template for that status and bug type. *)
Theorem apply_fixes_outcomes (repo_path : string) (bugs : list queued_bug)
    (w : world) (fixes : list fix_outcome) (w' : world) :
  apply_fixes repo_path bugs w = (Ok fixes, w') ->
  length fixes = length bugs
  /\ Forall2 (fun bug item =>
       f_file item = q_file bug /\ f_bug_type item = q_bug_type bug
       /\ f_line item = q_line bug
       /\ ((f_status item = "Fixed"
            /\ f_commit_message item
               = "[AI-AGENT] Fix " +:+ q_bug_type bug +:+ " error")
           \/ (f_status item = "Failed"
               /\ f_commit_message item
                  = "[AI-AGENT] Could not auto-fix " +:+ q_bug_type bug)))
       bugs fixes.
Proof.
  intros H. apply apply_fixes_from_outcomes in H as (new & -> & Hnew).
  cbn [app]. split; [symmetry; by eapply Forall2_length|].
  eapply Forall2_impl; [exact Hnew|].
  intros bug item [[] ->]; cbn; split_and!; auto.
Qed.

(** [c] sends no request to the oracle. *)
Definition keeps_calls {A} (c : M world A) : Prop :=
  forall w r w', c w = (r, w') -> groq_calls w' = groq_calls w.

Lemma keeps_calls_bind {A B} (c : M world A) (k : A -> M world B) :
  keeps_calls c -> (forall a, keeps_calls (k a)) -> keeps_calls (bind c k).
Proof.
  intros Hc Hk w r w' H.
  apply bind_cases in H as [(a & w1 & H1 & H2)|(e & H1 & _)].
  - apply Hc in H1. apply Hk in H2. congruence.
  - by apply Hc in H1.
Qed.

Lemma keeps_calls_ret {A} (a : A) : keeps_calls (ret a).
Proof. intros w r w' H. unfold ret in H. by injection H as _ <-. Qed.

Lemma keeps_calls_exists p : keeps_calls (exists_ p).
Proof. intros w r w' H. unfold exists_ in H. by injection H as _ <-. Qed.

Lemma keeps_calls_read_text p : keeps_calls (read_text p).
Proof. intros w r w' H. apply reads_only_read_text in H. by subst. Qed.

Lemma keeps_calls_readlines p : keeps_calls (readlines p).
Proof. intros w r w' H. apply reads_only_readlines in H. by subst. Qed.

Lemma keeps_calls_write_text p c : keeps_calls (write_text p c).
Proof.
  intros w r w' H. unfold write_text in H.
  repeat case_match; by injection H as _ <-.
Qed.

Lemma keeps_calls_modify_fs f : keeps_calls (modify (with_fs f)).
Proof. intros w r w' H. unfold modify in H. by injection H as _ <-. Qed.

Create HintDb calls.
Hint Resolve keeps_calls_ret keeps_calls_exists keeps_calls_read_text
  keeps_calls_readlines keeps_calls_write_text keeps_calls_modify_fs : calls.

Ltac calls :=
  unfold writelines;
  repeat first
    [ apply keeps_calls_bind; [|intros ?]
    | progress auto with calls
    | match goal with
      | |- keeps_calls (let '(_, _) := ?x in _) => destruct x
      | |- keeps_calls (if ?b then _ else _) => destruct b
      end ].

Lemma keeps_calls_strategies repo p l :
  keeps_calls (fix_syntax_issue p l) /\ keeps_calls (fix_indentation_issue p l)
  /\ keeps_calls (fix_with_ruff repo p) /\ keeps_calls (fix_type_error p l)
  /\ keeps_calls (fix_logic_issue p l) /\ keeps_calls (fix_missing_init repo p).
Proof.
  unfold fix_syntax_issue, fix_indentation_issue, fix_with_ruff,
    fix_type_error, fix_logic_issue, fix_missing_init.
  split_and!; calls.
Qed.

(** The deterministic part of [apply_fix] sends no request. *)
Lemma keeps_calls_apply_fix repo bug :
  q_bug_type bug = "UNKNOWN" \/ q_file bug = "<unknown>" ->
  keeps_calls (apply_fix repo bug).
Proof.
  intros Hu. unfold apply_fix.
  apply keeps_calls_bind; [auto with calls|]. intros ex.
  apply keeps_calls_bind.
  { pose proof (keeps_calls_strategies repo
                  (Py.path_join repo (q_file bug)) (q_line bug))
      as (? & ? & _ & ? & ? & _).
    pose proof (keeps_calls_strategies repo (q_file bug) (q_line bug))
      as (_ & _ & ? & _ & _ & ?).
    repeat match goal with
           | |- keeps_calls (if ?b then _ else _) => destruct b
           end; auto with calls. }
  intros fixed.
  assert (Hskip : negb fixed && negb (String.eqb (q_bug_type bug) "UNKNOWN")
                  && negb (String.eqb (q_file bug) "<unknown>") = false).
  { destruct Hu as [->| ->]; cbn; by rewrite ?andb_false_r. }
  rewrite Hskip. calls.
Qed.

Lemma keeps_calls_apply_fixes_from repo bugs acc :
  Forall (fun q => q_bug_type q = "UNKNOWN" \/ q_file q = "<unknown>") bugs ->
  keeps_calls (apply_fixes_from repo bugs acc).
Proof.
  intros Hb. revert acc. induction Hb as [|bug rest Hbug _ IH]; intros acc.
  - apply keeps_calls_ret.
  - cbn [apply_fixes_from]. apply keeps_calls_bind.
    + by apply keeps_calls_apply_fix.
    + intros item. apply IH.
Qed.

(** X9: bugs of type UNKNOWN, and bugs whose file is [<unknown>], never reach
    the oracle: over a batch made of such bugs [apply_fixes] sends no
    request, however it ends. *)
Theorem unknown_bugs_never_reach_oracle (repo_path : string)
    (bugs : list queued_bug) (w : world) :
  Forall (fun q => q_bug_type q = "UNKNOWN" \/ q_file q = "<unknown>") bugs ->
  groq_calls (apply_fixes repo_path bugs w).2 = groq_calls w.
Proof.
  intros Hb. destruct (apply_fixes repo_path bugs w) as [r w'] eqn:H.
  by apply keeps_calls_apply_fixes_from in H.
Qed.

Lemma apply_fix_unknown repo bug w :
  q_bug_type bug = "UNKNOWN" ->
  apply_fix repo bug w = (Ok (outcome_of bug false), w).
Proof.
  intros Hu. unfold apply_fix, bind, exists_, ret, outcome_of. rewrite Hu.
  reflexivity.
Qed.

(** X10: a batch of UNKNOWN bugs is answered without touching anything: no
    strategy runs, the file system and the oracle are left alone, and every
    bug comes back Failed with the message "Could not auto-fix UNKNOWN". *)
Theorem apply_fixes_unknown_batch (repo_path : string)
    (bugs : list queued_bug) (w : world) :
  Forall (fun q => q_bug_type q = "UNKNOWN") bugs ->
  apply_fixes repo_path bugs w
  = (Ok ((fun q => {| f_file := q_file q; f_bug_type := "UNKNOWN";
                      f_line := q_line q; f_status := "Failed";
                      f_commit_message :=
                        "[AI-AGENT] Could not auto-fix UNKNOWN" |}) <$> bugs),
     w).
Proof.
  intros Hb. unfold apply_fixes.
  change (Ok (?f <$> bugs), w) with (Ok ([] ++ (f <$> bugs)), w).
  generalize (@nil fix_outcome) as acc.
  induction Hb as [|bug rest Hbug _ IH]; intros acc.
  - cbn. by rewrite app_nil_r.
  - cbn [apply_fixes_from]. unfold bind at 1.
    rewrite (apply_fix_unknown _ _ _ Hbug), IH, fmap_cons, <- app_assoc.
    unfold outcome_of. rewrite Hbug. reflexivity.
Qed.

(** The four line strategies read the file before they look at the line
    number: on a file that does not decode each of them raises the codec's
    error, whatever the line number, and leaves the world as it is. *)
Lemma line_strategies_undecodable (file_path : string) (line_no : Z)
    (w : world) (reason : string) :
  fs w !! file_path = Some (Undecodable reason) ->
  let r := (Raise (Exc "UnicodeDecodeError" reason), w) in
  fix_syntax_issue file_path line_no w = r
  /\ fix_indentation_issue file_path line_no w = r
  /\ fix_type_error file_path line_no w = r
  /\ fix_logic_issue file_path line_no w = r.
Proof.
  intros Hfile.
  unfold fix_syntax_issue, fix_indentation_issue, fix_type_error,
    fix_logic_issue, readlines, bind, read_text, ret.
  rewrite Hfile. done.
Qed.

(** X11: on a file that decodes, a line number that is zero, negative or
    beyond the last line of the text read (the stored text after the
    translation of its newlines) makes each of the four line strategies
    return [False] and leave the world as it is. *)
Theorem line_out_of_range (file_path : string) (line_no : Z) (w : world)
    (stored : string) :
  fs w !! file_path = Some (File stored) ->
  line_no <= 0
  \/ Z.of_nat (length (Py.readlines (Py.universal_newlines stored))) < line_no ->
  fix_syntax_issue file_path line_no w = (Ok false, w)
  /\ fix_indentation_issue file_path line_no w = (Ok false, w)
  /\ fix_type_error file_path line_no w = (Ok false, w)
  /\ fix_logic_issue file_path line_no w = (Ok false, w).
Proof.
  intros Hfile Hline.
  assert (Hr : line_in_range line_no
                 (Py.readlines (Py.universal_newlines stored)) = false).
  { unfold line_in_range. apply negb_false_iff, orb_true_iff.
    destruct Hline; [left; lia | right; lia]. }
  unfold fix_syntax_issue, fix_indentation_issue, fix_type_error,
    fix_logic_issue, readlines, bind, read_text, ret.
  rewrite Hfile, Hr. done.
Qed.

(** X12: each of the five strategies that write a file themselves either
    returns [True] or leaves the whole world as it found it, also when it
    raises. *)
Theorem strategies_write_only_on_success (repo_path file_path : string)
    (line_no : Z) (w : world) (r : result bool) (w' : world) :
  r <> Ok true ->
  (fix_syntax_issue file_path line_no w = (r, w') -> w' = w)
  /\ (fix_indentation_issue file_path line_no w = (r, w') -> w' = w)
  /\ (fix_type_error file_path line_no w = (r, w') -> w' = w)
  /\ (fix_logic_issue file_path line_no w = (r, w') -> w' = w)
  /\ (fix_missing_init repo_path file_path w = (r, w') -> w' = w).
Proof.
  intros Hr. split_and!; intros H.
  - by eapply fix_syntax_issue_atomic.
  - by eapply fix_indentation_issue_atomic.
  - by eapply fix_type_error_atomic.
  - by eapply fix_logic_issue_atomic.
  - by eapply fix_missing_init_atomic.
Qed.

Lemma write_text_ok p c w w' :
  write_text p c w = (Ok tt, w') -> w' = with_fs (insert p (File c)) w.
Proof.
  unfold write_text. intros H. repeat case_match; congruence.
Qed.

(** X13: when [fix_missing_init] returns [True] it has created an empty
    [__init__.py] in the directory of the module file, which was not there
    before, and changed nothing else; run again on the result it returns
    [False] and changes nothing. *)
Theorem fix_missing_init_once (repo_path module_file : string)
    (w w' : world) :
  fix_missing_init repo_path module_file w = (Ok true, w') ->
  let init_file :=
    Py.path_join (Py.dirname (Py.path_join repo_path module_file))
      "__init__.py" in
  fs w !! init_file = None
  /\ w' = {| fs := <[init_file := File ""]> (fs w);
             groq_calls := groq_calls w |}
  /\ fix_missing_init repo_path module_file w' = (Ok false, w').
Proof.
  intros H init_file.
  assert (Hagain : forall w0, fs w0 !! init_file = Some (File "") ->
            fix_missing_init repo_path module_file w0 = (Ok false, w0)).
  { intros w0 Hw0. unfold fix_missing_init, bind, exists_, ret.
    fold init_file. destruct (String.eqb _ ""); [done|].
    rewrite bool_decide_eq_true_2 by eauto. done. }
  unfold fix_missing_init, bind, exists_, ret in H.
  destruct (String.eqb _ "") eqn:Hdir; [congruence|]. fold init_file in H.
  destruct (bool_decide (is_Some (fs w !! init_file))) eqn:Hex; [congruence|].
  apply bool_decide_eq_false in Hex.
  assert (Hnone : fs w !! init_file = None).
  { destruct (fs w !! init_file) eqn:Hl; [|done]. destruct Hex. eauto. }
  assert (Hw : w' = {| fs := <[init_file := File ""]> (fs w);
                       groq_calls := groq_calls w |}).
  { destruct (write_text init_file "" w) as [[[]|e] w1] eqn:Hwrite;
      [|congruence].
    injection H as <-. by apply write_text_ok in Hwrite. }
  split_and!; [done..|].
  apply Hagain. rewrite Hw. cbn [fs]. apply lookup_insert_eq.
Qed.

Lemma except_Exception_cases {A} (c h : M world A) w r w' :
  except_Exception c h w = (r, w') ->
  (c w = (r, w') /\ forall cls msg, r <> Raise (Exc cls msg))
  \/ (exists cls msg w1, c w = (Raise (Exc cls msg), w1) /\ h w1 = (r, w')).
Proof.
  unfold except_Exception. destruct (c w) as [[a|[cls msg|cls msg]] w1];
    intros H.
  - left. injection H as <- <-. by split.
  - right. eauto.
  - left. injection H as <- <-. by split.
Qed.

(** How one call of [fix_file] can end: without a write, or with the one
    write of a validated answer. *)
Lemma fix_file_cases file_path bug_type line_no w r w' :
  fix_file file_path bug_type line_no w = (r, w') ->
  (r <> Ok true /\ (forall cls msg, r <> Raise (Exc cls msg))
   /\ fs w' = fs w /\ (groq_calls w' <= S (groq_calls w))%nat
   /\ (fs w !! file_path = None -> w' = w))
  \/ (r = Ok true /\ exists stored output_text,
        fs w !! file_path = Some (File stored)
        /\ responses_create (groq_calls w)
             (_build_prompt (Py.universal_newlines stored) bug_type
                line_no) = Ok output_text
        /\ Py.strip (Py.strip output_text +:+ Py.nl)
           <> Py.strip (Py.universal_newlines stored)
        /\ (Py.endswith ".py" file_path = true ->
            compile_exec (Py.strip output_text +:+ Py.nl) file_path = Ok tt)
        /\ w' = {| fs := <[file_path := File (Py.strip output_text +:+ Py.nl)]>
                           (fs w);
                   groq_calls := S (groq_calls w) |}).
Proof.
  intros H.
  assert (Hinner : forall r1 w1,
    fix_file_async file_path bug_type line_no w = (r1, w1) ->
    (r1 <> Ok true /\ (forall cls msg, r1 <> Raise (Exc cls msg))
     /\ fs w1 = fs w /\ (groq_calls w1 <= S (groq_calls w))%nat
     /\ (fs w !! file_path = None -> w1 = w))
    \/ (r1 = Ok true /\ exists stored output_text,
          fs w !! file_path = Some (File stored)
          /\ responses_create (groq_calls w)
               (_build_prompt (Py.universal_newlines stored) bug_type
                line_no) = Ok output_text
          /\ Py.strip (Py.strip output_text +:+ Py.nl)
           <> Py.strip (Py.universal_newlines stored)
          /\ (Py.endswith ".py" file_path = true ->
              compile_exec (Py.strip output_text +:+ Py.nl) file_path = Ok tt)
          /\ w1 = {| fs := <[file_path := File (Py.strip output_text +:+ Py.nl)]>
                             (fs w);
                     groq_calls := S (groq_calls w) |})).
  { clear H. intros r1 w1 H. unfold fix_file_async in H.
    match type of H with
    | except_Exception ?b _ _ = _ => set (body := b) in H
    end.
    assert (Hbody : forall rb wb, body w = (rb, wb) ->
      (rb <> Ok true /\ fs wb = fs w
       /\ (groq_calls wb <= S (groq_calls w))%nat
       /\ (fs w !! file_path = None -> wb = w))
      \/ (rb = Ok true /\ exists stored output_text,
            fs w !! file_path = Some (File stored)
            /\ responses_create (groq_calls w)
                 (_build_prompt (Py.universal_newlines stored) bug_type
                line_no) = Ok output_text
            /\ Py.strip (Py.strip output_text +:+ Py.nl)
           <> Py.strip (Py.universal_newlines stored)
            /\ (Py.endswith ".py" file_path = true ->
                compile_exec (Py.strip output_text +:+ Py.nl) file_path = Ok tt)
            /\ wb = {| fs := <[file_path := File (Py.strip output_text +:+ Py.nl)]>
                               (fs w);
                       groq_calls := S (groq_calls w) |})).
    { clear H. unfold body. clear body. intros rb wb H.
      unfold bind, exists_ in H.
      destruct (fs w !! file_path) as [[stored| |reason]|] eqn:Hfile.
      2,3:
        (rewrite bool_decide_eq_true_2 in H by eauto; cbn [negb] in H;
         unfold read_text in H; rewrite Hfile in H;
         injection H as <- <-; left; by split_and!; [|done|lia|]).
      2:{ rewrite bool_decide_eq_false_2 in H by (by intros [??]).
          cbn [negb] in H. unfold ret in H.
          injection H as <- <-. left. by split_and!; [|done|lia|]. }
      rewrite bool_decide_eq_true_2 in H by eauto. cbn [negb] in H.
      unfold read_text in H. rewrite Hfile in H. unfold request in H.
      set (w1' := {| fs := fs w; groq_calls := S (groq_calls w) |}) in *.
      destruct (responses_create (groq_calls w) _) as [out|e] eqn:Hreq.
      2:{ injection H as <- <-. left. by split_and!; [|done|cbn; lia|]. }
      set (fixed := Py.strip out +:+ Py.nl) in *.
      destruct (String.eqb fixed ""
                || String.eqb (Py.strip fixed)
                     (Py.strip (Py.universal_newlines stored))) eqn:Htest.
      { unfold ret in H. injection H as <- <-.
        left. by split_and!; [|done|cbn; lia|]. }
      apply orb_false_iff in Htest as [_ Hdiff].
      apply String.eqb_neq in Hdiff.
      set (check := if Py.endswith ".py" file_path then _ else _) in H.
      assert (Hcheck : forall ok w2, check w1' = (ok, w2) ->
        w2 = w1' /\ (ok = Ok true ->
                     Py.endswith ".py" file_path = true ->
                     compile_exec fixed file_path = Ok tt)).
      { unfold check. intros ok w2 Hc. destruct (Py.endswith ".py" file_path).
        - destruct (compile_exec fixed file_path) as [[]|e].
          + injection Hc as <- <-. done.
          + destruct (is_syntax_error e); injection Hc as <- <-;
              (split; [done|discriminate]).
        - unfold ret in Hc. injection Hc as <- <-. split; [done|discriminate]. }
      destruct (check w1') as [ok w2] eqn:Hc.
      destruct (Hcheck ok w2 eq_refl) as [-> Hok].
      destruct ok as [[|]|e].
      - cbn [negb] in H.
        destruct (write_text file_path fixed w1') as [[[]|e] w3] eqn:Hw.
        + apply write_text_ok in Hw. subst w3. unfold ret in H.
          injection H as <- <-. right. split; [done|].
          exists stored, out. split_and!; [done|done|done|by apply Hok|done].
        + apply write_text_raise in Hw. subst w3.
          injection H as <- <-. left. by split_and!; [|done|cbn; lia|].
      - cbn [negb] in H. unfold ret in H. injection H as <- <-.
        left. by split_and!; [|done|cbn; lia|].
      - injection H as <- <-. left. by split_and!; [|done|cbn; lia|]. }
    apply except_Exception_cases in H as [[H Hno]|(cls & msg & w0 & H & Hret)].
    - destruct (Hbody _ _ H) as [(? & ? & ? & ?)|?]; [left|by right].
      by split_and!.
    - destruct (Hbody _ _ H) as [(_ & ? & ? & ?)|[? _]]; [|congruence].
      unfold ret in Hret. injection Hret as <- <-. left. by split_and!. }
  unfold fix_file in H.
  apply except_Exception_cases in H as [[H Hno]|(cls & msg & w1 & H & Hret)].
  - exact (Hinner _ _ H).
  - destruct (Hinner _ _ H) as [(_ & Hexc & _)|[? _]]; [|congruence].
    by destruct (Hexc cls msg).
Qed.

(** X14: [fix_file] contains its failures.  It never lets an [Exception]
    out, it sends at most one request, and whenever it does not return
    [True] the file system is exactly as before; for a file that does not
    exist nothing at all happens and the oracle is not asked. *)
Theorem fix_file_contains_failures (file_path bug_type : string) (line_no : Z)
    (w : world) (r : result bool) (w' : world) :
  fix_file file_path bug_type line_no w = (r, w') ->
  (forall cls msg, r <> Raise (Exc cls msg))
  /\ (groq_calls w' <= S (groq_calls w))%nat
  /\ (r <> Ok true -> fs w' = fs w)
  /\ (fs w !! file_path = None -> r <> Ok true /\ w' = w).
Proof.
  intros H. apply fix_file_cases in H
    as [(Hr & Hexc & Hfs & Hcalls & Hnone)
       |(-> & stored & out & Hfile & _ & _ & _ & ->)].
  - split_and!; [done..|]. intros Hn. split; [done|by apply Hnone].
  - split_and!; [done | cbn; lia | done | congruence].
Qed.

(** X15: [fix_file] returns [True] only after exactly one request whose
    answer, stripped and ended with a newline, differs from the source after
    stripping and (for a [.py] path) compiles; the file then holds that text
    and nothing else has changed.  The source is the text read from the
    file, which decodes. *)
Theorem fix_file_success (file_path bug_type : string) (line_no : Z)
    (w w' : world) :
  fix_file file_path bug_type line_no w = (Ok true, w') ->
  exists stored output_text,
    fs w !! file_path = Some (File stored)
    /\ responses_create (groq_calls w)
         (_build_prompt (Py.universal_newlines stored) bug_type
                line_no) = Ok output_text
    /\ Py.strip (Py.strip output_text +:+ Py.nl)
       <> Py.strip (Py.universal_newlines stored)
    /\ (Py.endswith ".py" file_path = true ->
        compile_exec (Py.strip output_text +:+ Py.nl) file_path = Ok tt)
    /\ w' = {| fs := <[file_path := File (Py.strip output_text +:+ Py.nl)]>
                       (fs w);
               groq_calls := S (groq_calls w) |}.
Proof.
  intros H. apply fix_file_cases in H as [[? _]|[_ H]]; [done|exact H].
Qed.

(** X16: when the lint strategy returns, its answer says whether the text
    of the target file changed: [True] exactly when a read of the file gives
    another text after the tool ran than before.  The stored file then
    differs too; a change of the stored file that a read does not show (line
    endings alone) is answered [False]. *)
Theorem fix_with_ruff_reports_change (repo_path rel_file : string)
    (w : world) (changed : bool) (w' : world) :
  fix_with_ruff repo_path rel_file w = (Ok changed, w') ->
  let target := Py.path_join repo_path rel_file in
  (changed = true <-> (read_text target w').1 <> (read_text target w).1)
  /\ (changed = true -> fs w' !! target <> fs w !! target).
Proof.
  intros H target.
  assert (Hread : changed = true
                  <-> (read_text target w').1 <> (read_text target w).1).
  { unfold fix_with_ruff, bind, exists_, ret, modify in H. fold target in H.
    assert (Hsame : forall b w0, (Ok false, w) = (Ok b, w0) ->
              b = true
              <-> (read_text target w0).1 <> (read_text target w).1).
    { intros b w0 Heq. injection Heq as <- <-.
      split; [discriminate|congruence]. }
    destruct (bool_decide (is_Some (fs w !! target)));
      cbn [negb] in H; [|by apply Hsame].
    destruct (read_text target w) as [[before|e] w1] eqn:Hb; [|congruence].
    apply reads_only_read_text in Hb as Hw1. subst w1.
    destruct (bool_decide (is_Some (fs w !! _cached_python repo_path)));
      cbn [negb] in H; [|by (rewrite ?Hb; apply Hsame)].
    destruct (read_text target (with_fs _ w)) as [[after|e] w2] eqn:Ha;
      [|congruence].
    apply reads_only_read_text in Ha as Hw2. subst w2.
    injection H as <- <-. rewrite Ha. cbn [fst].
    rewrite bool_decide_eq_true.
    split; intros Hn Heq; apply Hn; [by injection Heq | by subst]. }
  split; [exact Hread|].
  intros Hc Heq. apply Hread in Hc. apply Hc.
  unfold read_text. rewrite Heq.
  by destruct (fs w !! target) as [[]|].
Qed.

(** X17: when the indentation strategy returns [True], the file decoded,
    the line number lay within the text read (the stored text after the
    translation of its newlines), and the file now holds the lines of that
    text, every one as it was read but the target line; the line written in
    its place holds no tab character. *)
Theorem fix_indentation_issue_success (file_path : string) (line_no : Z)
    (w w' : world) :
  fix_indentation_issue file_path line_no w = (Ok true, w') ->
  exists stored updated,
    fs w !! file_path = Some (File stored)
    /\ 0 < line_no
       <= Z.of_nat (length (Py.readlines (Py.universal_newlines stored)))
    /\ Py.contains Py.tab updated = false
    /\ w' = with_fs
              (insert file_path
                 (File (Py.join ""
                          (<[Z.to_nat (line_no - 1) := updated]>
                             (Py.readlines
                                (Py.universal_newlines stored)))))) w.
Proof.
  unfold fix_indentation_issue, readlines, bind, read_text. intros H.
  destruct (fs w !! file_path) as [[stored| |?]|] eqn:Hfile; try congruence.
  unfold ret at 1 in H.
  set (lines := Py.readlines (Py.universal_newlines stored)) in *.
  destruct (line_in_range line_no lines) eqn:Hr;
    cbn [negb] in H; [|unfold ret in H; congruence].
  assert (Hrange : 0 < line_no <= Z.of_nat (length lines)).
  { unfold line_in_range in Hr. apply negb_true_iff, orb_false_iff in Hr. lia. }
  set (original := nth (Z.to_nat (line_no - 1)) lines "") in H.
  pose proof (PyFacts.replace_char_gone (ascii_of_nat 9) "    " original eq_refl)
    as Hclean.
  change (String (ascii_of_nat 9) "") with Py.tab in Hclean.
  assert (Hindent : Py.contains Py.tab
                      ("    " +:+ Py.replace Py.tab "    " original) = false).
  { unfold Py.tab. rewrite PyFacts.contains_char_app.
    fold Py.tab. by rewrite Hclean. }
  assert (Hwrite : forall updated,
    Py.contains Py.tab updated = false ->
    (writelines file_path (<[Z.to_nat (line_no - 1) := updated]> lines);;;
     ret true) w = (Ok true, w') ->
    exists stored0 updated0,
      Some (File stored) = Some (File stored0)
      /\ 0 < line_no
         <= Z.of_nat (length (Py.readlines (Py.universal_newlines stored0)))
      /\ Py.contains Py.tab updated0 = false
      /\ w' = with_fs
                (insert file_path
                   (File (Py.join ""
                            (<[Z.to_nat (line_no - 1) := updated0]>
                               (Py.readlines
                                  (Py.universal_newlines stored0)))))) w).
  { intros updated Hu Hw. unfold writelines, bind, ret in Hw.
    destruct (write_text _ _ w) as [[[]|e] w1] eqn:Hwt; [|congruence].
    apply write_text_ok in Hwt. injection Hw as <-.
    by exists stored, updated. }
  repeat match type of H with
  | (let '(_, _) := (if ?b then _ else _) in _) _ = _ => destruct b
  end;
    try match type of H with
    | context [bool_decide ?P] => destruct (bool_decide P)
    end;
    cbn [negb] in H;
    first [ by (unfold ret in H; congruence)
          | by (eapply Hwrite; [|exact H]) ].
Qed.

End Engine.

(** *** The engine on a small working tree *)

Definition repo_tree : gmap string node :=
  <["workspace/repo/pkg/shop.py" := File ("def total(items)" +:+ Py.nl)]>
  (<["workspace/repo/pkg/calc.py" := File ("total = price * (1 + rate" +:+ Py.nl)]>
  (<["workspace/repo/pkg/mod.py" := File ("import helpers" +:+ Py.nl)]>
  (<["workspace/repo/pkg" := Dir]>
  (<["workspace/repo" := Dir]>
  (<["workspace" := Dir]> ∅))))).

Definition fresh_clone : world := {| fs := repo_tree; groq_calls := 0 |}.

(** C3 (failing input): an IMPORT bug whose file lies in a directory that
    does not exist in the working tree makes [fix_missing_init] open
    [__init__.py] for writing there; the [FileNotFoundError] leaves
    [apply_fixes]: no outcome is returned, neither for this bug nor for the
    bug after it. *)
Theorem apply_fixes_raises_on_missing_directory
    (re_sub : string -> string -> string -> string)
    (ruff_check_fix : string -> string -> gmap string node -> gmap string node)
    (responses_create : nat -> string -> result string)
    (compile_exec : string -> string -> result unit) :
  let ghost := {| q_file := "ghost/mod.py"; q_bug_type := "IMPORT";
                  q_line := 3; q_status := "Detected";
                  q_force_groq := false; q_failed_attempts := 0 |} in
  let calc := {| q_file := "pkg/calc.py"; q_bug_type := "SYNTAX";
                 q_line := 1; q_status := "Detected";
                 q_force_groq := false; q_failed_attempts := 0 |} in
  apply_fixes re_sub ruff_check_fix responses_create compile_exec
    "workspace/repo" [ghost; calc] fresh_clone
  = (Raise (Exc "FileNotFoundError"
       "[Errno 2] No such file or directory: 'workspace/repo/ghost/__init__.py'"),
     fresh_clone).
Proof. vm_compute. reflexivity. Qed.

(** An oracle that answers every request with the empty text, and a compiler
    that knows only that a blank module compiles. *)
Definition silent_oracle : nat -> string -> result string :=
  fun _ _ => Ok "".
Definition blank_module_compiles : string -> string -> result unit :=
  fun source _ =>
    if String.eqb (Py.strip source) "" then Ok tt
    else Raise (Exc "SyntaxError" "invalid syntax").

Lemma fix_file_empty_answer_overwrites_witness :
  fs fresh_clone !! "workspace/repo/pkg/calc.py"
    = Some (File ("total = price * (1 + rate" +:+ Py.nl))
  /\ fix_file silent_oracle blank_module_compiles
       "workspace/repo/pkg/calc.py" "SYNTAX" 1 fresh_clone
     = (Ok true,
        {| fs := <["workspace/repo/pkg/calc.py" := File Py.nl]> repo_tree;
           groq_calls := 1 |}).
Proof.
  split; [reflexivity|].
  apply (fix_file_empty_answer_overwrites silent_oracle blank_module_compiles
           "workspace/repo/pkg/calc.py" "SYNTAX" 1 fresh_clone
           ("total = price * (1 + rate" +:+ Py.nl)).
  - reflexivity.
  - discriminate.
  - reflexivity.
  - reflexivity.
  - reflexivity.
  - right. reflexivity.
Defined.

(** The same answer seen from [apply_fixes]: the bug is reported Fixed. *)
Example apply_fixes_empty_answer
    (re_sub : string -> string -> string -> string)
    (ruff_check_fix : string -> string -> gmap string node -> gmap string node) :
  apply_fixes re_sub ruff_check_fix silent_oracle blank_module_compiles
    "workspace/repo"
    [{| q_file := "pkg/calc.py"; q_bug_type := "SYNTAX"; q_line := 1;
        q_status := "Detected"; q_force_groq := false;
        q_failed_attempts := 0 |}]
    fresh_clone
  = (Ok [{| f_file := "pkg/calc.py"; f_bug_type := "SYNTAX"; f_line := 1;
            f_status := "Fixed";
            f_commit_message := "[AI-AGENT] Fix SYNTAX error" |}],
     {| fs := <["workspace/repo/pkg/calc.py" := File Py.nl]> repo_tree;
        groq_calls := 1 |}).
Proof. vm_compute. reflexivity. Qed.

(** *** The extra engine theorems on the small working tree *)

(** A regular-expression engine none of whose patterns matches, a lint tool
    that finds nothing to fix, and an oracle whose requests time out. *)
Definition sub_no_match : string -> string -> string -> string :=
  fun _ _ text => text.
Definition ruff_idle : string -> string -> gmap string node -> gmap string node :=
  fun _ _ tree => tree.
Definition oracle_timeout : nat -> string -> result string :=
  fun _ _ => Raise (Exc "APITimeoutError" "Request timed out.").

Definition shop_bug : queued_bug :=
  {| q_file := "pkg/shop.py"; q_bug_type := "SYNTAX"; q_line := 1;
     q_status := "Detected"; q_force_groq := false; q_failed_attempts := 0 |}.
Definition unknown_bug : queued_bug :=
  {| q_file := "<unknown>"; q_bug_type := "UNKNOWN"; q_line := 0;
     q_status := "Detected"; q_force_groq := true; q_failed_attempts := 2 |}.
Definition stray_bug : queued_bug :=
  {| q_file := "<unknown>"; q_bug_type := "LOGIC"; q_line := 0;
     q_status := "Detected"; q_force_groq := false; q_failed_attempts := 0 |}.

Lemma apply_fixes_outcomes_witness :
  let fixes := [outcome_of shop_bug true; outcome_of unknown_bug false] in
  length fixes = length [shop_bug; unknown_bug]
  /\ Forall2 (fun bug item =>
       f_file item = q_file bug /\ f_bug_type item = q_bug_type bug
       /\ f_line item = q_line bug
       /\ ((f_status item = "Fixed"
            /\ f_commit_message item
               = "[AI-AGENT] Fix " +:+ q_bug_type bug +:+ " error")
           \/ (f_status item = "Failed"
               /\ f_commit_message item
                  = "[AI-AGENT] Could not auto-fix " +:+ q_bug_type bug)))
       [shop_bug; unknown_bug] fixes.
Proof.
  apply (apply_fixes_outcomes sub_no_match ruff_idle oracle_timeout
           blank_module_compiles "workspace/repo" [shop_bug; unknown_bug]
           fresh_clone
           [outcome_of shop_bug true; outcome_of unknown_bug false]
           {| fs := <["workspace/repo/pkg/shop.py"
                      := File ("def total(items):" +:+ Py.nl)]> repo_tree;
              groq_calls := 0 |}).
  vm_compute. reflexivity.
Defined.

Lemma unknown_bugs_never_reach_oracle_witness :
  groq_calls (apply_fixes sub_no_match ruff_idle silent_oracle
                blank_module_compiles "workspace/repo"
                [unknown_bug; stray_bug] fresh_clone).2
  = groq_calls fresh_clone.
Proof.
  apply (unknown_bugs_never_reach_oracle sub_no_match ruff_idle silent_oracle
           blank_module_compiles "workspace/repo" [unknown_bug; stray_bug]
           fresh_clone).
  constructor; [left; reflexivity|].
  constructor; [right; reflexivity|]. constructor.
Defined.

Lemma apply_fixes_unknown_batch_witness :
  apply_fixes sub_no_match ruff_idle silent_oracle blank_module_compiles
    "workspace/repo" [unknown_bug] fresh_clone
  = (Ok [{| f_file := "<unknown>"; f_bug_type := "UNKNOWN"; f_line := 0;
            f_status := "Failed";
            f_commit_message := "[AI-AGENT] Could not auto-fix UNKNOWN" |}],
     fresh_clone).
Proof.
  apply (apply_fixes_unknown_batch sub_no_match ruff_idle silent_oracle
           blank_module_compiles "workspace/repo" [unknown_bug] fresh_clone).
  constructor; [reflexivity|constructor].
Defined.

Lemma line_out_of_range_witness :
  fix_syntax_issue sub_no_match "workspace/repo/pkg/calc.py" 2 fresh_clone
    = (Ok false, fresh_clone)
  /\ fix_indentation_issue "workspace/repo/pkg/calc.py" 2 fresh_clone
    = (Ok false, fresh_clone)
  /\ fix_type_error sub_no_match "workspace/repo/pkg/calc.py" 2 fresh_clone
    = (Ok false, fresh_clone)
  /\ fix_logic_issue sub_no_match "workspace/repo/pkg/calc.py" 2 fresh_clone
    = (Ok false, fresh_clone).
Proof.
  apply (line_out_of_range sub_no_match "workspace/repo/pkg/calc.py" 2
           fresh_clone ("total = price * (1 + rate" +:+ Py.nl)).
  - reflexivity.
  - right. vm_compute. reflexivity.
Defined.

(** A clone whose [pkg/data.py] is not valid UTF-8: the line strategies
    raise at the read, whatever the line number, and the error leaves
    [apply_fixes]; the oracle fallback catches it and answers [False]. *)
Definition invalid_start_byte : string :=
  "'utf-8' codec can't decode byte 0xff in position 0: invalid start byte".
Definition binary_clone : world :=
  {| fs := <["workspace/repo/pkg/data.py" := Undecodable invalid_start_byte]>
             repo_tree;
     groq_calls := 0 |}.

Example line_strategies_on_undecodable_file :
  fix_syntax_issue sub_no_match "workspace/repo/pkg/data.py" 0 binary_clone
    = (Raise (Exc "UnicodeDecodeError" invalid_start_byte), binary_clone)
  /\ apply_fixes sub_no_match ruff_idle silent_oracle blank_module_compiles
       "workspace/repo"
       [{| q_file := "pkg/data.py"; q_bug_type := "LOGIC"; q_line := 7;
           q_status := "Detected"; q_force_groq := false;
           q_failed_attempts := 0 |}]
       binary_clone
     = (Raise (Exc "UnicodeDecodeError" invalid_start_byte), binary_clone)
  /\ fix_file silent_oracle blank_module_compiles
       "workspace/repo/pkg/data.py" "LOGIC" 7 binary_clone
     = (Ok false, binary_clone).
Proof. vm_compute. by repeat split. Qed.

Lemma strategies_write_only_on_success_witness :
  let p := "workspace/repo/pkg/calc.py" in
  let w := fresh_clone in
  (fix_syntax_issue sub_no_match p 1 w = (Ok false, w) -> w = w)
  /\ (fix_indentation_issue p 1 w = (Ok false, w) -> w = w)
  /\ (fix_type_error sub_no_match p 1 w = (Ok false, w) -> w = w)
  /\ (fix_logic_issue sub_no_match p 1 w = (Ok false, w) -> w = w)
  /\ (fix_missing_init "workspace/repo" p w = (Ok false, w) -> w = w).
Proof.
  intros p w.
  apply (strategies_write_only_on_success sub_no_match "workspace/repo"
           "workspace/repo/pkg/calc.py" 1 fresh_clone (Ok false) fresh_clone).
  discriminate.
Defined.

Lemma fix_missing_init_once_witness :
  let w' := {| fs := <["workspace/repo/pkg/__init__.py" := File ""]> repo_tree;
               groq_calls := 0 |} in
  fix_missing_init "workspace/repo" "pkg/mod.py" fresh_clone = (Ok true, w')
  /\ fix_missing_init "workspace/repo" "pkg/mod.py" w' = (Ok false, w').
Proof.
  intros w'. split; [vm_compute; reflexivity|].
  apply (fix_missing_init_once "workspace/repo" "pkg/mod.py" fresh_clone w').
  vm_compute. reflexivity.
Defined.

Lemma fix_file_contains_failures_witness :
  let w' := {| fs := repo_tree; groq_calls := 1 |} in
  (forall cls msg, Ok false <> Raise (Exc cls msg))
  /\ (groq_calls w' <= S (groq_calls fresh_clone))%nat
  /\ (Ok false <> Ok true -> fs w' = fs fresh_clone)
  /\ (fs fresh_clone !! "workspace/repo/pkg/calc.py" = None ->
      Ok false <> Ok true /\ w' = fresh_clone).
Proof.
  intros w'.
  apply (fix_file_contains_failures oracle_timeout blank_module_compiles
           "workspace/repo/pkg/calc.py" "SYNTAX" 1 fresh_clone (Ok false) w').
  vm_compute. reflexivity.
Defined.

Lemma fix_file_success_witness :
  exists stored output_text,
    fs fresh_clone !! "workspace/repo/pkg/calc.py" = Some (File stored)
    /\ silent_oracle (groq_calls fresh_clone)
         (_build_prompt (Py.universal_newlines stored) "SYNTAX" 1)
       = Ok output_text
    /\ Py.strip (Py.strip output_text +:+ Py.nl)
       <> Py.strip (Py.universal_newlines stored)
    /\ (Py.endswith ".py" "workspace/repo/pkg/calc.py" = true ->
        blank_module_compiles (Py.strip output_text +:+ Py.nl)
          "workspace/repo/pkg/calc.py" = Ok tt)
    /\ {| fs := <["workspace/repo/pkg/calc.py" := File Py.nl]> repo_tree;
          groq_calls := 1 |}
       = {| fs := <["workspace/repo/pkg/calc.py"
                    := File (Py.strip output_text +:+ Py.nl)]>
                    (fs fresh_clone);
            groq_calls := S (groq_calls fresh_clone) |}.
Proof.
  apply (fix_file_success silent_oracle blank_module_compiles
           "workspace/repo/pkg/calc.py" "SYNTAX" 1 fresh_clone
           {| fs := <["workspace/repo/pkg/calc.py" := File Py.nl]> repo_tree;
              groq_calls := 1 |}).
  vm_compute. reflexivity.
Defined.

(** A clone with its virtual environment in place, and a lint tool that
    drops the unused import of [pkg/mod.py]. *)
Definition prepared_clone : world :=
  {| fs := <["workspace/repo/.venv/bin/python" := File ""]> repo_tree;
     groq_calls := 0 |}.
Definition ruff_drops_import
  : string -> string -> gmap string node -> gmap string node :=
  fun repo_path rel_file tree =>
    <[Py.path_join repo_path rel_file := File ""]> tree.

Lemma fix_with_ruff_reports_change_witness :
  let w' := with_fs (insert "workspace/repo/pkg/mod.py" (File ""))
              prepared_clone in
  let target := Py.path_join "workspace/repo" "pkg/mod.py" in
  (true = true
   <-> (read_text target w').1 <> (read_text target prepared_clone).1)
  /\ (true = true -> fs w' !! target <> fs prepared_clone !! target).
Proof.
  intros w'.
  apply (fix_with_ruff_reports_change ruff_drops_import "workspace/repo"
           "pkg/mod.py" prepared_clone true w').
  vm_compute. reflexivity.
Defined.

(** A clone whose [pkg/mod.py] ends its lines with a carriage return and a
    line feed, and a lint tool that rewrites the file with line feeds alone:
    the stored file changes, a read shows the same text, and the strategy
    answers [False]. *)
Definition windows_clone : world :=
  {| fs := <["workspace/repo/pkg/mod.py"
             := File ("import os" +:+ Py.cr +:+ Py.nl)]>
             (fs prepared_clone);
     groq_calls := 0 |}.
Definition ruff_rewrites_endings
  : string -> string -> gmap string node -> gmap string node :=
  fun repo_path rel_file tree =>
    <[Py.path_join repo_path rel_file := File ("import os" +:+ Py.nl)]> tree.

Example fix_with_ruff_line_endings :
  let r := fix_with_ruff ruff_rewrites_endings "workspace/repo" "pkg/mod.py"
             windows_clone in
  r.1 = Ok false
  /\ fs windows_clone !! "workspace/repo/pkg/mod.py"
     = Some (File ("import os" +:+ Py.cr +:+ Py.nl))
  /\ fs r.2 !! "workspace/repo/pkg/mod.py"
     = Some (File ("import os" +:+ Py.nl)).
Proof. vm_compute. by repeat split. Qed.

(** A clone with a loop whose body lost its indentation; its lines end with
    a carriage return and a line feed. *)
Definition loop_source : string :=
  "for item in items:" +:+ Py.cr +:+ Py.nl
  +:+ "print(item)" +:+ Py.cr +:+ Py.nl.
Definition loop_clone : world :=
  {| fs := <["workspace/repo/pkg/loop.py" := File loop_source]> repo_tree;
     groq_calls := 0 |}.

Lemma fix_indentation_issue_success_witness :
  exists stored updated,
    fs loop_clone !! "workspace/repo/pkg/loop.py" = Some (File stored)
    /\ 0 < 2 <= Z.of_nat (length (Py.readlines (Py.universal_newlines stored)))
    /\ Py.contains Py.tab updated = false
    /\ with_fs (insert "workspace/repo/pkg/loop.py"
                  (File ("for item in items:" +:+ Py.nl
                         +:+ "    print(item)" +:+ Py.nl))) loop_clone
       = with_fs
           (insert "workspace/repo/pkg/loop.py"
              (File (Py.join ""
                       (<[Z.to_nat (2 - 1) := updated]>
                          (Py.readlines (Py.universal_newlines stored))))))
           loop_clone.
Proof.
  apply (fix_indentation_issue_success "workspace/repo/pkg/loop.py" 2
           loop_clone
           (with_fs (insert "workspace/repo/pkg/loop.py"
                       (File ("for item in items:" +:+ Py.nl
                              +:+ "    print(item)" +:+ Py.nl))) loop_clone)).
  vm_compute. reflexivity.
Defined.

End FixAgent.

(** ** [agents/git_agent.py]: the name of the fix branch *)
Module GitAgent.

Section Branch.
(** [str.upper], which can leave the code points below 256. *)
Variable upper : string -> string.

(** The branch name [create_branch] computes before it touches the
    repository. *)
Definition branch_name (team leader : string) : string :=
  Py.replace " " "_" (upper (team +:+ "_" +:+ leader +:+ "_AI_Fix")).

(** X18: the branch name holds no space, whatever the team and leader names
    are. *)
Theorem branch_name_has_no_space (team leader : string) :
  Py.contains " " (branch_name team leader) = false.
Proof. unfold branch_name. by apply PyFacts.replace_char_gone. Qed.

End Branch.

End GitAgent.

(** ** [agents/test_agent.py]: the test pass *)
Module TestAgent.

(** What [subprocess.run(cmd, capture_output=True, text=True)] returns. *)
Record completed : Type := {
  stdout : option string;
  stderr : option string;
  returncode : Z
}.

Section Agent.
(** The machine the commands run on. *)
Variable W : Type.
(** [os.path.abspath] and [os.path.exists] *)
Variable abspath : string -> string.
Variable path_exists : string -> W -> bool.
(** [subprocess.run(cmd, cwd=cwd, capture_output=True, text=True,
    timeout=timeout)]; it raises [TimeoutExpired] when the time is up. *)
Variable subprocess_run : list string -> string -> Z -> M W completed.

(** The agent: the paths it has prepared, and the machine. *)
Record t : Type := {
  _prepared_repos : gmap string (string * string);
  sys : W
}.

(** [value or ""] *)
Definition or_empty (value : option string) : string := default "" value.

(** [_run]: the output and the return code of a command; a timeout and a
    failure to run are turned into a return code. *)
Definition _run (cmd : list string) (cwd : string) (timeout : Z)
  : M t (string * Z) :=
  fun a =>
    let r := subprocess_run cmd cwd timeout (sys a) in
    let a' := {| _prepared_repos := _prepared_repos a; sys := r.2 |} in
    match r.1 with
    | Ok c =>
        (Ok (or_empty (stdout c) +:+ or_empty (stderr c), returncode c), a')
    | Raise (Exc cls msg) =>
        if String.eqb cls "TimeoutExpired"
        then (Ok ("COMMAND_TIMEOUT: " +:+ Py.join " " cmd, 124), a')
        else (Ok ("COMMAND_FAILED: " +:+ Py.join " " cmd +:+ " :: " +:+ msg,
                  1), a')
    | Raise e => (Raise e, a')
    end.

Definition exists_ (p : string) : M t bool :=
  fun a => (Ok (path_exists p (sys a)), a).

Definition prepared (repo_path : string) (a : t) : bool :=
  bool_decide (is_Some (_prepared_repos a !! repo_path)).

(** Lines 51-81: the analysers and the tests, in the prepared
    environment. *)
Definition run_checks (repo_path python_bin : string) : M t (option string) :=
  ex <~ exists_ python_bin;;
  if negb ex then ret (Some "VENV_CREATION_FAILED")
  else
    ruff <~ _run [python_bin; "-m"; "ruff"; "check"; "--fix"; "."]
              repo_path 180;;
    pyright <~ _run [python_bin; "-m"; "basedpyright"; "."] repo_path 180;;
    test <~ _run [python_bin; "-m"; "pytest"] repo_path 300;;
    let combined := (or_empty (Some ruff.1) +:+ or_empty (Some pyright.1))
                    +:+ or_empty (Some test.1) in
    if (pyright.2 =? 0) && (test.2 =? 0) then ret None
    else ret (Some combined).

(** Lines 40-49 and what follows them: the tools are installed, the path is
    registered, the checks run. *)
Definition install_tools (repo_path python_bin pip_bin install_log : string)
  : M t (option string) :=
  deps <~ _run [pip_bin; "install"; "pytest"; "ruff"; "basedpyright"]
            repo_path 180;;
  let install_log := install_log +:+ or_empty (Some deps.1) in
  if negb (deps.2 =? 0)
  then ret (Some ("ENV_SETUP_FAILED" +:+ Py.nl +:+ install_log))
  else
    modify (fun a =>
      {| _prepared_repos :=
           <[repo_path := (python_bin, pip_bin)]> (_prepared_repos a);
         sys := sys a |});;;
    run_checks repo_path python_bin.

Definition run_tests (repo_path : string) : M t (option string) :=
  let repo_path := abspath repo_path in
  let venv_path := Py.path_join repo_path ".venv" in
  let python_bin := Py.path_join (Py.path_join venv_path "bin") "python" in
  let pip_bin := Py.path_join (Py.path_join venv_path "bin") "pip" in
  a <~ get;;
  (if prepared repo_path a && negb (path_exists python_bin (sys a))
   then modify (fun a =>
          {| _prepared_repos := delete repo_path (_prepared_repos a);
             sys := sys a |})
   else ret tt);;;
  a <~ get;;
  if negb (prepared repo_path a) then
    _run ["python3"; "-m"; "venv"; ".venv"] repo_path 60;;;
    ex <~ exists_ python_bin;;
    if negb ex then ret (Some "VENV_CREATION_FAILED")
    else
      let req_file := Py.path_join repo_path "requirements.txt" in
      let install_log := "" in
      ex <~ exists_ req_file;;
      if ex then
        req <~ _run [pip_bin; "install"; "-r"; req_file] repo_path 180;;
        let install_log := install_log +:+ or_empty (Some req.1) in
        if negb (req.2 =? 0)
        then ret (Some ("ENV_SETUP_FAILED" +:+ Py.nl +:+ install_log))
        else install_tools repo_path python_bin pip_bin install_log
      else install_tools repo_path python_bin pip_bin install_log
  else run_checks repo_path python_bin.

(** *** What a test pass can and cannot do *)

(** [c] lets no [Exception] out and touches no cache entry but the one of
    [key]. *)
Definition contained (key : string) {A} (c : M t A) : Prop :=
  forall a r a', c a = (r, a') ->
    (forall cls msg, r <> Raise (Exc cls msg))
    /\ forall q, q <> key -> _prepared_repos a' !! q = _prepared_repos a !! q.

Lemma contained_bind key {A B} (c : M t A) (k : A -> M t B) :
  contained key c -> (forall x, contained key (k x)) ->
  contained key (bind c k).
Proof.
  intros Hc Hk a r a' H.
  apply bind_cases in H as [(x & a1 & H1 & H2)|(e & H1 & ->)].
  - apply Hc in H1 as [_ H1]. apply Hk in H2 as [? H2]. split; [done|].
    intros q Hq. by rewrite H2, H1.
  - apply Hc in H1 as [Hne Hframe]. split; [|done].
    intros cls msg Heq. injection Heq as ->. by eapply Hne.
Qed.

Lemma contained_ret key {A} (x : A) : contained key (ret x).
Proof. intros a r a' H. unfold ret in H. by injection H as <- <-. Qed.

Lemma contained_get key : contained key get.
Proof. intros a r a' H. unfold get in H. by injection H as <- <-. Qed.

Lemma contained_exists key p : contained key (exists_ p).
Proof. intros a r a' H. unfold exists_ in H. by injection H as <- <-. Qed.

Lemma contained_run key cmd cwd timeout : contained key (_run cmd cwd timeout).
Proof.
  intros a r a' H. unfold _run in H.
  destruct (subprocess_run cmd cwd timeout (sys a)) as [[c|[cls msg|cls msg]] w];
    cbn [fst snd] in H; try destruct (String.eqb cls "TimeoutExpired");
    by injection H as <- <-.
Qed.

Lemma contained_register key value :
  contained key (modify (fun a =>
    {| _prepared_repos := <[key := value]> (_prepared_repos a);
       sys := sys a |})).
Proof.
  intros a r a' H. unfold modify in H. injection H as <- <-.
  split; [done|]. intros q Hq. cbn. by rewrite lookup_insert_ne.
Qed.

Lemma contained_forget key :
  contained key (modify (fun a =>
    {| _prepared_repos := delete key (_prepared_repos a); sys := sys a |})).
Proof.
  intros a r a' H. unfold modify in H. injection H as <- <-.
  split; [done|]. intros q Hq. cbn. by rewrite lookup_delete_ne.
Qed.

Create HintDb contained.
Hint Resolve contained_ret contained_get contained_exists contained_run
  contained_register contained_forget : contained.

Ltac contained :=
  repeat first
    [ progress auto with contained
    | match goal with
      | |- contained _ (if ?b then _ else _) => destruct b
      | |- contained _ (let _ := _ in _) => cbn zeta
      end
    | apply contained_bind; [|intros ?] ].

Lemma contained_run_checks repo_path python_bin :
  contained repo_path (run_checks repo_path python_bin).
Proof. unfold run_checks. contained. Qed.

Lemma contained_install_tools repo_path python_bin pip_bin install_log :
  contained repo_path (install_tools repo_path python_bin pip_bin install_log).
Proof.
  unfold install_tools. pose proof contained_run_checks. contained.
Qed.

(** X23: a test pass lets no [Exception] out (a timeout or a command that
    cannot be started becomes a return code), and it touches no entry of the
    cache of prepared paths but the one of the repository it is run on. *)
Theorem run_tests_contained (repo_path : string) (a : t)
    (r : result (option string)) (a' : t) :
  run_tests repo_path a = (r, a') ->
  (forall cls msg, r <> Raise (Exc cls msg))
  /\ forall q, q <> abspath repo_path ->
       _prepared_repos a' !! q = _prepared_repos a !! q.
Proof.
  revert a r a'. change (contained (abspath repo_path) (run_tests repo_path)).
  unfold run_tests. cbn zeta.
  pose proof contained_run_checks. pose proof contained_install_tools.
  contained.
Qed.

(** A return code of zero comes from the command itself. *)
Lemma _run_zero cmd cwd timeout a out a' :
  _run cmd cwd timeout a = (Ok (out, 0), a') ->
  exists c, subprocess_run cmd cwd timeout (sys a) = (Ok c, sys a')
    /\ returncode c = 0.
Proof.
  unfold _run. intros H.
  destruct (subprocess_run cmd cwd timeout (sys a))
    as [[c|[cls msg|cls msg]] w] eqn:Hrun;
    cbn [fst snd] in H; try destruct (String.eqb cls "TimeoutExpired");
    try discriminate.
  injection H as _ Hrc <-. by exists c.
Qed.

Lemma _run_world cmd cwd timeout a r a' :
  _run cmd cwd timeout a = (r, a') ->
  sys a' = (subprocess_run cmd cwd timeout (sys a)).2.
Proof.
  unfold _run. intros H.
  destruct (subprocess_run cmd cwd timeout (sys a))
    as [[c|[cls msg|cls msg]] w];
    cbn [fst snd] in *; try destruct (String.eqb cls "TimeoutExpired");
    by injection H as _ <-.
Qed.

(** What [None] stands for: the interpreter of the environment was there,
    and after the lint command the type checker and the tests each ran to
    their end with return code zero. *)
Definition clean (repo_path : string) (a' : t) : Prop :=
  let python_bin :=
    Py.path_join (Py.path_join (Py.path_join repo_path ".venv") "bin")
      "python" in
  exists w0 pyright w2 test,
    path_exists python_bin w0 = true
    /\ subprocess_run [python_bin; "-m"; "basedpyright"; "."] repo_path 180
         (subprocess_run [python_bin; "-m"; "ruff"; "check"; "--fix"; "."]
            repo_path 180 w0).2
       = (Ok pyright, w2)
    /\ returncode pyright = 0
    /\ subprocess_run [python_bin; "-m"; "pytest"] repo_path 300 w2
       = (Ok test, sys a')
    /\ returncode test = 0.

(** [c] returns [None] only in a clean state. *)
Definition none_is_clean (repo_path : string) (c : M t (option string))
  : Prop :=
  forall a a', c a = (Ok None, a') -> clean repo_path a'.

Lemma none_is_clean_bind repo_path {A} (c : M t A)
    (k : A -> M t (option string)) :
  (forall x, none_is_clean repo_path (k x)) ->
  none_is_clean repo_path (bind c k).
Proof.
  intros Hk a a' H.
  apply bind_cases in H as [(x & a1 & _ & H)|(e & _ & ?)]; [|done].
  by eapply Hk.
Qed.

Lemma none_is_clean_ret repo_path text :
  none_is_clean repo_path (ret (Some text)).
Proof. intros a a' H. discriminate. Qed.

Lemma none_is_clean_run_checks repo_path :
  none_is_clean repo_path
    (run_checks repo_path
       (Py.path_join (Py.path_join (Py.path_join repo_path ".venv") "bin")
          "python")).
Proof.
  intros a a'. unfold run_checks.
  set (python_bin := Py.path_join _ "python"). intros H.
  unfold bind at 1, exists_ at 1 in H.
  destruct (path_exists python_bin (sys a)) eqn:Hex; cbn [negb] in H;
    [|discriminate].
  apply bind_cases in H as [(ruff & a1 & Hruff & H)|(e & _ & ?)]; [|done].
  apply bind_cases in H as [([out2 rc2] & a2 & Hpyright & H)|(e & _ & ?)];
    [|done].
  apply bind_cases in H as [([out3 rc3] & a3 & Htest & H)|(e & _ & ?)];
    [|done].
  cbn [fst snd] in H.
  destruct (rc2 =? 0) eqn:H2; [|discriminate].
  destruct (rc3 =? 0) eqn:H3; [|discriminate].
  apply Z.eqb_eq in H2 as ->. apply Z.eqb_eq in H3 as ->.
  unfold ret in H. injection H as <-.
  apply _run_world in Hruff.
  apply _run_zero in Hpyright as (c2 & Hc2 & Hrc2).
  apply _run_zero in Htest as (c3 & Hc3 & Hrc3).
  exists (sys a), c2, (sys a2), c3. fold python_bin.
  rewrite <- Hruff. by split_and!.
Qed.

Create HintDb clean.
Hint Resolve none_is_clean_ret none_is_clean_run_checks : clean.

Ltac none_is_clean :=
  repeat first
    [ progress auto with clean
    | match goal with
      | |- none_is_clean _ (if ?b then _ else _) => destruct b
      | |- none_is_clean _ (let _ := _ in _) => cbn zeta
      end
    | apply none_is_clean_bind; intros ? ].

(** X24: a test pass returns [None] only if the interpreter of the
    repository's environment was in place and the type checker and the
    tests, run after the lint command, both came back by themselves with
    return code zero; a timeout (124) or a command that could not be started
    (1) never counts as clean.  The return code of the lint command does
    not matter. *)
Theorem run_tests_none_is_clean (repo_path : string) (a a' : t) :
  run_tests repo_path a = (Ok None, a') -> clean (abspath repo_path) a'.
Proof.
  revert a a'.
  change (none_is_clean (abspath repo_path) (run_tests repo_path)).
  unfold run_tests, install_tools. none_is_clean.
Qed.

End Agent.

Arguments _prepared_repos {W} _.
Arguments sys {W} _.

(** A machine without state on which every path exists and every command
    prints nothing and returns zero. *)
Definition quiet_run : list string -> string -> Z -> M unit completed :=
  fun _ _ _ => ret {| stdout := Some ""; stderr := Some ""; returncode := 0 |}.
Definition fresh_agent : t unit := {| _prepared_repos := ∅; sys := tt |}.
Definition prepared_agent : t unit :=
  {| _prepared_repos :=
       {[ "/srv/repo" := ("/srv/repo/.venv/bin/python",
                          "/srv/repo/.venv/bin/pip") ]};
     sys := tt |}.

Lemma run_tests_contained_witness :
  (forall cls msg, Ok (@None string) <> Raise (Exc cls msg))
  /\ forall q, q <> "/srv/repo" ->
       _prepared_repos prepared_agent !! q = _prepared_repos fresh_agent !! q.
Proof.
  apply (run_tests_contained unit (fun p => p) (fun _ _ => true) quiet_run
           "/srv/repo" fresh_agent (Ok None) prepared_agent).
  vm_compute. reflexivity.
Defined.

Lemma run_tests_none_is_clean_witness :
  clean unit (fun _ _ => true) quiet_run "/srv/repo" prepared_agent.
Proof.
  apply (run_tests_none_is_clean unit (fun p => p) (fun _ _ => true) quiet_run
           "/srv/repo" fresh_agent prepared_agent).
  vm_compute. reflexivity.
Defined.

End TestAgent.

(** ** [orchestrator.py]: the run state machine *)
Module Orchestrator.

(** [_log] prints a line and publishes it on the event bus; nothing in [run]
    reads the bus, and the lines are left out of this model. *)

Definition max_bug_attempts : Z := 2.

(** An entry of the run timeline. *)
Record run_entry : Type := {
  run_no : Z;
  run_status : string;
  timestamp : string
}.

(** [self.status]: ["state"] is always present, the other keys only in the
    dicts that set them. *)
Record status_record : Type := {
  state : string;
  error : option string;
  started_at : option string;
  ended_at : option string;
  total_time_seconds : option Z
}.

(** The fields of the orchestrator object that [run] reads and writes. *)
Record orchestrator : Type := {
  timeline : list run_entry;
  fixes : list fix_outcome;
  status : status_record;
  _fix_index : gmap (string * string * Z) nat;
  _bug_fail_counts : gmap (string * string * Z) Z;
  status_mgr : StatusManager.t
}.

(** [__init__] *)
Definition init : orchestrator :=
  {| timeline := []; fixes := [];
     status := {| state := "IDLE"; error := None; started_at := None;
                  ended_at := None; total_time_seconds := None |};
     _fix_index := ∅; _bug_fail_counts := ∅;
     status_mgr := StatusManager.init |}.

(** *** [_upsert_fixes] *)

(** One turn of the loop of [_upsert_fixes], on [self.fixes] and
    [self._fix_index].  Both arms of the status test store [item].  The
    [IndexError] of [self.fixes[existing_pos]] needs an index that points
    outside the list, which [index_ok] below rules out. *)
Definition upsert_item
    (acc : list fix_outcome * gmap (string * string * Z) nat)
    (item : fix_outcome)
  : result (list fix_outcome * gmap (string * string * Z) nat) :=
  let key := fix_key item in
  match acc.2 !! key with
  | None => Ok (acc.1 ++ [item], <[key := length acc.1]> acc.2)
  | Some existing_pos =>
      match acc.1 !! existing_pos with
      | None => Raise (Exc "IndexError" "list index out of range")
      | Some existing =>
          if negb (String.eqb (f_status existing) "Fixed")
             && String.eqb (f_status item) "Fixed"
          then Ok (<[existing_pos := item]> acc.1, acc.2)
          else Ok (<[existing_pos := item]> acc.1, acc.2)
      end
  end.

Fixpoint _upsert_fixes (items : list fix_outcome)
    (acc : list fix_outcome * gmap (string * string * Z) nat)
  : result (list fix_outcome * gmap (string * string * Z) nat) :=
  match items with
  | [] => Ok acc
  | item :: rest =>
      match upsert_item acc item with
      | Ok acc' => _upsert_fixes rest acc'
      | Raise e => Raise e
      end
  end.

(** The batches of a run, one per iteration, upserted in order. *)
Fixpoint upsert_batches (batches : list (list fix_outcome))
    (acc : list fix_outcome * gmap (string * string * Z) nat)
  : result (list fix_outcome * gmap (string * string * Z) nat) :=
  match batches with
  | [] => Ok acc
  | batch :: rest =>
      match _upsert_fixes batch acc with
      | Ok acc' => upsert_batches rest acc'
      | Raise e => Raise e
      end
  end.

(** *** Facts about the fix accumulator *)

(** Every position the index holds lies inside the list. *)
Definition index_ok
    (acc : list fix_outcome * gmap (string * string * Z) nat) : Prop :=
  forall key pos, acc.2 !! key = Some pos -> (pos < length acc.1)%nat.

Lemma index_ok_empty : index_ok ([], ∅).
Proof. intros key pos H. simpl in H. by rewrite lookup_empty in H. Qed.

(** A recorded key is overwritten by the incoming item, whatever the two
    statuses are. *)
Lemma upsert_item_overwrites acc item pos :
  index_ok acc ->
  acc.2 !! fix_key item = Some pos ->
  upsert_item acc item = Ok (<[pos := item]> acc.1, acc.2).
Proof.
  intros Hok Hpos. unfold upsert_item. rewrite Hpos.
  destruct (lookup_lt_is_Some_2 acc.1 pos (Hok _ _ Hpos)) as [existing ->].
  by destruct (_ && _).
Qed.

Lemma upsert_item_ok acc item :
  index_ok acc ->
  exists acc', upsert_item acc item = Ok acc' /\ index_ok acc'.
Proof.
  intros Hok. destruct (acc.2 !! fix_key item) as [pos|] eqn:Hpos.
  - rewrite (upsert_item_overwrites _ _ _ Hok Hpos). eexists; split; [done|].
    intros key pos' H. cbn [fst snd] in *. rewrite length_insert. by eapply Hok.
  - unfold upsert_item. rewrite Hpos. eexists; split; [done|].
    intros key pos' H. cbn [fst snd] in *. rewrite length_app. simpl.
    destruct (decide (fix_key item = key)) as [<-|Hne].
    + rewrite lookup_insert_eq in H. injection H as <-. lia.
    + rewrite lookup_insert_ne in H by done. apply Hok in H. lia.
Qed.

Lemma _upsert_fixes_ok items acc :
  index_ok acc ->
  exists acc', _upsert_fixes items acc = Ok acc' /\ index_ok acc'.
Proof.
  revert acc. induction items as [|item rest IH]; intros acc Hok.
  - by exists acc.
  - simpl. destruct (upsert_item_ok acc item Hok) as (acc1 & -> & Hok1).
    by apply IH.
Qed.

(** C1 (failing input): iteration 1 records the key [(app.py, SYNTAX, 10)] as
    Fixed, iteration 2 reports the same key as Failed; after the second
    upsert the accumulator holds the Failed outcome in place of the Fixed
    one. *)
Theorem upsert_failed_replaces_fixed :
  let fixed := {| f_file := "app.py"; f_bug_type := "SYNTAX"; f_line := 10;
                  f_status := "Fixed";
                  f_commit_message := "[AI-AGENT] Fix SYNTAX error" |} in
  let failed := {| f_file := "app.py"; f_bug_type := "SYNTAX"; f_line := 10;
                   f_status := "Failed";
                   f_commit_message := "[AI-AGENT] Could not auto-fix SYNTAX" |} in
  upsert_batches [[fixed]] ([], ∅)
    = Ok ([fixed], {[ ("app.py", "SYNTAX", 10) := 0%nat ]})
  /\ upsert_batches [[fixed]; [failed]] ([], ∅)
    = Ok ([failed], {[ ("app.py", "SYNTAX", 10) := 0%nat ]}).
Proof.
  intros fixed failed.
  assert (H1 : upsert_item ([], ∅) fixed
               = Ok ([fixed], {[ fix_key fixed := 0%nat ]})).
  { unfold upsert_item. cbn [fst snd]. rewrite lookup_empty.
    by rewrite insert_empty. }
  assert (H2 : upsert_item ([fixed], {[ fix_key fixed := 0%nat ]}) failed
               = Ok ([failed], {[ fix_key fixed := 0%nat ]})).
  { rewrite (upsert_item_overwrites _ _ 0%nat); [done| |].
    - intros key pos H. cbn [fst snd] in H.
      apply lookup_singleton_Some in H as [_ <-]. simpl. lia.
    - apply lookup_singleton_eq. }
  split; cbn [upsert_batches _upsert_fixes]; rewrite H1; [done|].
  cbn [upsert_batches _upsert_fixes]. by rewrite H2.
Qed.

(** In general: once a key is recorded, an upsert of an outcome that is not
    Fixed puts that outcome in the key's place, also when the outcome
    recorded there was Fixed. *)
Lemma upsert_item_drops_fixed acc item pos existing :
  index_ok acc ->
  acc.2 !! fix_key item = Some pos ->
  acc.1 !! pos = Some existing ->
  f_status existing = "Fixed" ->
  f_status item <> "Fixed" ->
  exists acc', upsert_item acc item = Ok acc'
    /\ acc'.1 !! pos = Some item /\ acc'.2 = acc.2.
Proof.
  intros Hok Hpos Hex _ _. rewrite (upsert_item_overwrites _ _ _ Hok Hpos).
  eexists; split_and!; [done| |done]. simpl.
  apply list_lookup_insert_eq. by eapply Hok.
Qed.

(** *** The escalation bookkeeping of [run] *)

(** Lines 123-134: every bug is queued with its failure count; at or above
    [max_bug_attempts] it is marked [force_groq]. *)
Definition queue_bug (counts : gmap (string * string * Z) Z) (b : bug)
  : queued_bug :=
  let failed_attempts := default 0 (counts !! bug_key b) in
  {| q_file := b_file b; q_bug_type := b_bug_type b; q_line := b_line b;
     q_status := b_status b;
     q_force_groq := bool_decide (max_bug_attempts <= failed_attempts);
     q_failed_attempts := failed_attempts |}.

(** Lines 139-144: a success clears the counter of its key, a failure
    increments it. *)
Definition count_outcome (counts : gmap (string * string * Z) Z)
    (item : fix_outcome) : gmap (string * string * Z) Z :=
  let key := fix_key item in
  if String.eqb (f_status item) "Fixed" then delete key counts
  else <[key := default 0 (counts !! key) + 1]> counts.

Definition count_fixed (items : list fix_outcome) : Z :=
  Z.of_nat (length (filter (fun f => f_status f = "Fixed") items)).

(** What [run] hands to [ResultsManager.generate]. *)
Record run_summary : Type := {
  rs_repo_url : string;
  rs_team_name : string;
  rs_leader_name : string;
  rs_branch : string;
  rs_failures : Z;
  rs_fixes : Z;
  rs_timeline : list run_entry;
  rs_retry_limit : Z;
  rs_total_commits : Z;
  rs_total_time_seconds : Z;
  rs_started_at : string;
  rs_ended_at : string
}.

(** *** [utils/results_manager.py]: what [generate] computes *)

(** The two entries of the results file that [ResultsManager.generate]
    computes from the timeline; the other entries are copies of its
    arguments. *)
Definition final_status (timeline : list run_entry) : string :=
  match last timeline with
  | Some e => run_status e
  | None => "NO_RUNS"
  end.

Definition iterations_recorded (timeline : list run_entry) : Z :=
  Z.of_nat (length timeline).

(** *** What the accumulator holds after any batches *)

(** The latest of the outcomes seen for [key]. *)
Definition latest (key : string * string * Z) (seen : list fix_outcome)
  : option fix_outcome :=
  last (filter (fun f => fix_key f = key) seen).

(** The accumulator after the outcomes [seen] have been upserted. *)
Record holds_latest (seen : list fix_outcome)
    (acc : list fix_outcome * gmap (string * string * Z) nat) : Prop := {
  index_matches : forall key pos,
    acc.2 !! key = Some pos <-> (fix_key <$> acc.1) !! pos = Some key;
  keys_distinct : NoDup (fix_key <$> acc.1);
  entries_latest : forall pos item,
    acc.1 !! pos = Some item -> latest (fix_key item) seen = Some item;
  keys_complete : forall f, f ∈ seen -> fix_key f ∈ fix_key <$> acc.1
}.

Lemma holds_latest_index_ok seen acc : holds_latest seen acc -> index_ok acc.
Proof.
  intros [Hidx _ _ _] key pos H. apply Hidx in H.
  apply lookup_lt_Some in H. by rewrite length_fmap in H.
Qed.

Lemma holds_latest_empty : holds_latest [] ([], ∅).
Proof.
  split; cbn [fst snd fmap list_fmap].
  - intros key pos. by rewrite lookup_empty, lookup_nil.
  - constructor.
  - intros pos item H. by rewrite lookup_nil in H.
  - intros f H. by apply elem_of_nil in H.
Qed.

Lemma latest_snoc_same seen item :
  latest (fix_key item) (seen ++ [item]) = Some item.
Proof.
  unfold latest. rewrite filter_app, filter_cons, filter_nil.
  rewrite decide_True by done. apply last_snoc.
Qed.

Lemma latest_snoc_other key seen item :
  fix_key item <> key -> latest key (seen ++ [item]) = latest key seen.
Proof.
  intros Hne. unfold latest. rewrite filter_app, filter_cons, filter_nil.
  rewrite decide_False by done. by rewrite app_nil_r.
Qed.

Lemma holds_latest_upsert_item seen acc item :
  holds_latest seen acc ->
  exists acc', upsert_item acc item = Ok acc'
    /\ holds_latest (seen ++ [item]) acc'.
Proof.
  intros Hinv. pose proof (holds_latest_index_ok _ _ Hinv) as Hok.
  destruct Hinv as [Hidx Hnd Hlatest Hseen].
  destruct (acc.2 !! fix_key item) as [pos|] eqn:Hpos.
  - rewrite (upsert_item_overwrites _ _ _ Hok Hpos). eexists; split; [done|].
    assert (Hkey : (fix_key <$> acc.1) !! pos = Some (fix_key item))
      by by apply Hidx.
    assert (Hkeys : fix_key <$> <[pos := item]> acc.1 = fix_key <$> acc.1).
    { rewrite list_fmap_insert. by apply list_insert_id. }
    split; cbn [fst snd]; rewrite ?Hkeys; [done|done| |].
    + intros j y Hj. apply list_lookup_insert_Some in Hj
        as [(_ & <- & _)|[Hne Hj]]; [apply latest_snoc_same|].
      rewrite latest_snoc_other; [by eapply Hlatest|].
      intros Heq. apply Hne. eapply NoDup_lookup; [exact Hnd|exact Hkey|].
      by rewrite list_lookup_fmap, Hj, Heq.
    + intros f Hf. apply elem_of_app in Hf as [Hf|Hf]; [by apply Hseen|].
      apply list_elem_of_singleton in Hf as ->.
      by eapply list_elem_of_lookup_2.
  - unfold upsert_item. rewrite Hpos. eexists; split; [done|].
    assert (Hnew : fix_key item ∉ fix_key <$> acc.1).
    { intros Hin. apply list_elem_of_lookup in Hin as [pos Hin].
      apply Hidx in Hin. congruence. }
    split; cbn [fst snd]; rewrite ?fmap_app; cbn [fmap list_fmap].
    + intros key pos. rewrite lookup_insert_Some, lookup_app_Some,
        list_lookup_singleton_Some, length_fmap, Hidx.
      split.
      * intros [[<- <-]|[_ H]]; [right|by left].
        split_and!; [lia|lia|done].
      * intros [H|(? & ? & <-)]; [right|left].
        -- split; [|done]. intros <-. apply Hnew.
           by eapply list_elem_of_lookup_2.
        -- split; [done|].
           assert (pos < length (fix_key <$> acc.1) -> False)%nat; [|lia].
           { rewrite length_fmap. lia. }
    + apply NoDup_app. split_and!; [done| |apply NoDup_singleton].
      intros key Hin Hk. apply list_elem_of_singleton in Hk as ->. done.
    + intros j y Hj. apply lookup_app_Some in Hj as [Hj|[_ Hj]].
      * rewrite latest_snoc_other; [by eapply Hlatest|].
        intros Heq. apply Hnew. rewrite Heq.
        apply list_elem_of_fmap. exists y. split; [done|].
        by eapply list_elem_of_lookup_2.
      * apply list_lookup_singleton_Some in Hj as [_ <-].
        apply latest_snoc_same.
    + intros f Hf. apply elem_of_app.
      apply elem_of_app in Hf as [Hf|Hf]; [left; by apply Hseen|right].
      apply list_elem_of_singleton in Hf as ->. by apply list_elem_of_singleton.
Qed.

Lemma holds_latest_upsert_fixes items seen acc :
  holds_latest seen acc ->
  exists acc', _upsert_fixes items acc = Ok acc'
    /\ holds_latest (seen ++ items) acc'.
Proof.
  revert seen acc. induction items as [|item rest IH]; intros seen acc Hinv.
  - exists acc. by rewrite app_nil_r.
  - cbn [_upsert_fixes].
    destruct (holds_latest_upsert_item _ _ item Hinv) as (acc1 & -> & Hinv1).
    destruct (IH _ _ Hinv1) as (acc2 & -> & Hinv2).
    exists acc2. by rewrite <- app_assoc in Hinv2.
Qed.

Lemma holds_latest_upsert_batches batches seen acc :
  holds_latest seen acc ->
  exists acc', upsert_batches batches acc = Ok acc'
    /\ holds_latest (seen ++ concat batches) acc'.
Proof.
  revert seen acc. induction batches as [|batch rest IH]; intros seen acc Hinv.
  - exists acc. by rewrite app_nil_r.
  - cbn [upsert_batches concat].
    destruct (holds_latest_upsert_fixes batch _ _ Hinv) as (acc1 & -> & Hinv1).
    destruct (IH _ _ Hinv1) as (acc2 & -> & Hinv2).
    exists acc2. by rewrite <- app_assoc in Hinv2.
Qed.

(** X20: whatever batches a run upserts into a fresh accumulator,
    [_upsert_fixes] never raises, and afterwards [self.fixes] holds exactly
    one outcome for every key reported so far, namely the latest outcome
    reported for that key, and nothing else; [self._fix_index] maps each key
    to the position of its outcome. *)
Theorem upsert_batches_hold_latest (batches : list (list fix_outcome)) :
  exists acc, upsert_batches batches ([], ∅) = Ok acc
    /\ NoDup (fix_key <$> acc.1)
    /\ (forall item,
          item ∈ acc.1 <-> latest (fix_key item) (concat batches) = Some item)
    /\ (forall key pos,
          acc.2 !! key = Some pos <-> fix_key <$> acc.1 !! pos = Some key).
Proof.
  destruct (holds_latest_upsert_batches batches _ _ holds_latest_empty)
    as (acc & Hrun & [Hidx Hnd Hlatest Hseen]).
  rewrite app_nil_l in Hlatest, Hseen.
  exists acc. split_and!; [done|done| |].
  - intros item. split.
    + intros Hin. apply list_elem_of_lookup in Hin as [pos Hin].
      by eapply Hlatest.
    + intros Hlast. pose proof Hlast as Hin.
      apply last_Some_elem_of, list_elem_of_filter in Hin as [_ Hin].
      apply Hseen, list_elem_of_fmap in Hin as (y & Hy & Hin).
      apply list_elem_of_lookup in Hin as [pos Hpos].
      pose proof (Hlatest _ _ Hpos) as Hy'. rewrite <- Hy, Hlast in Hy'.
      injection Hy' as <-. by eapply list_elem_of_lookup_2.
  - intros key pos. rewrite Hidx. by rewrite list_lookup_fmap.
Qed.

(** *** Facts about the failure counters *)

(** The failures in a row at the head of a list of outcomes given latest
    first. *)
Fixpoint failures_in_a_row (latest_first : list fix_outcome) : nat :=
  match latest_first with
  | [] => 0
  | item :: earlier =>
      if String.eqb (f_status item) "Fixed" then 0
      else S (failures_in_a_row earlier)
  end.

(** The failures recorded for [key] since its last success. *)
Definition failure_streak (key : string * string * Z)
    (items : list fix_outcome) : nat :=
  failures_in_a_row (reverse (filter (fun f => fix_key f = key) items)).

Lemma failure_streak_snoc key items item :
  failure_streak key (items ++ [item])
  = if decide (fix_key item = key) then
      if String.eqb (f_status item) "Fixed" then 0%nat
      else S (failure_streak key items)
    else failure_streak key items.
Proof.
  unfold failure_streak. rewrite filter_app, reverse_app.
  rewrite filter_cons, filter_nil.
  destruct (decide (fix_key item = key)); [|by rewrite app_nil_l].
  by rewrite reverse_singleton.
Qed.

Lemma counts_follow_streak items key :
  foldl count_outcome ∅ items !! key
  = match failure_streak key items with
    | O => None
    | S n => Some (Z.of_nat (S n))
    end.
Proof.
  revert key. induction items as [|item items IH] using rev_ind; intros key.
  { cbn. apply lookup_empty. }
  rewrite foldl_app, failure_streak_snoc. cbn [foldl].
  unfold count_outcome at 1.
  destruct (String.eqb (f_status item) "Fixed").
  - destruct (decide (fix_key item = key)) as [->|Hne].
    + by rewrite lookup_delete_eq.
    + by rewrite lookup_delete_ne.
  - destruct (decide (fix_key item = key)) as [->|Hne].
    + rewrite lookup_insert_eq, IH.
      destruct (failure_streak _ items); cbn [default id]; f_equal; lia.
    + by rewrite lookup_insert_ne.
Qed.

(** X19: the escalation bookkeeping counts failures in a row.  After any
    sequence of outcomes folded into fresh counters, a bug is queued with
    [failed_attempts] equal to the number of failures recorded for its key
    since the key's last success (outcomes of other keys in between do not
    matter), and with [force_groq] exactly when that number is at least
    two. *)
Theorem queue_bug_counts_failures_in_a_row (items : list fix_outcome)
    (b : bug) :
  let queued := queue_bug (foldl count_outcome ∅ items) b in
  q_failed_attempts queued = Z.of_nat (failure_streak (bug_key b) items)
  /\ q_force_groq queued
     = bool_decide (2 <= failure_streak (bug_key b) items)%nat.
Proof.
  cbn zeta. unfold queue_bug. cbn [q_failed_attempts q_force_groq].
  rewrite counts_follow_streak.
  assert (Hd : default 0
                 match failure_streak (bug_key b) items with
                 | O => None
                 | S n => Some (Z.of_nat (S n))
                 end
               = Z.of_nat (failure_streak (bug_key b) items)).
  { by destruct (failure_streak (bug_key b) items). }
  rewrite Hd. split; [done|].
  unfold max_bug_attempts. apply bool_decide_ext. lia.
Qed.

Section Run.
(** The world outside the orchestrator (working tree, remote, network,
    clock) and the collaborators acting on it. *)
Variable W : Type.
Variable Time : Type.
(** [datetime.now(timezone.utc).isoformat()] and [time.time()] *)
Variable utc_now : W -> string.
Variable time_time : W -> Time.
(** [int(later - earlier)] *)
Variable whole_seconds : Time -> Time -> Z.
Variable clone : string -> M W string.
Variable create_branch : string -> string -> string -> M W string.
Variable run_tests : string -> M W (option string).
(** [BugAgent.parse]: it acts on nothing, and can raise. *)
Variable parse : string -> result (list bug).
Variable apply_fixes : string -> list queued_bug -> M W (list fix_outcome).
Variable commit_push : string -> list fix_outcome -> M W bool.
Variable results_generate : run_summary -> M W unit.
(** The body of [_archive_repo] for a non-empty path. *)
Variable archive_tree : string -> M W unit.
Variable cleanup_repo : string -> M W unit.

(** The local variables of [run] that outlive the [try] block. *)
Record locals : Type := {
  branch : string;
  path : string;
  total_failures : Z;
  total_fixes : Z;
  total_commits : Z
}.

(** The state [run] threads: the object, the locals and the world. *)
Record run_state : Type := {
  self : orchestrator;
  loc : locals;
  world : W
}.

Definition on_self (f : orchestrator -> orchestrator) : M run_state unit :=
  modify (fun s => {| self := f (self s); loc := loc s; world := world s |}).

Definition on_loc (f : locals -> locals) : M run_state unit :=
  modify (fun s => {| self := self s; loc := f (loc s); world := world s |}).

(** The call of a collaborator that acts on nothing. *)
Definition returned {A} (r : result A) : M run_state A := fun s => (r, s).

(** A collaborator's call. *)
Definition call {A} (c : M W A) : M run_state A :=
  fun s => let r := c (world s) in
           (r.1, {| self := self s; loc := loc s; world := r.2 |}).

Definition on_status_mgr (f : StatusManager.t -> StatusManager.t)
  : M run_state unit :=
  on_self (fun o =>
    {| timeline := timeline o; fixes := fixes o; status := status o;
       _fix_index := _fix_index o; _bug_fail_counts := _bug_fail_counts o;
       status_mgr := f (status_mgr o) |}).

Definition set_status (st : status_record) : M run_state unit :=
  on_self (fun o =>
    {| timeline := timeline o; fixes := fixes o; status := st;
       _fix_index := _fix_index o; _bug_fail_counts := _bug_fail_counts o;
       status_mgr := status_mgr o |}).

Definition timeline_append (e : run_entry) : M run_state unit :=
  on_self (fun o =>
    {| timeline := timeline o ++ [e]; fixes := fixes o; status := status o;
       _fix_index := _fix_index o; _bug_fail_counts := _bug_fail_counts o;
       status_mgr := status_mgr o |}).

Definition set_counts (f : gmap (string * string * Z) Z
                           -> gmap (string * string * Z) Z)
  : M run_state unit :=
  on_self (fun o =>
    {| timeline := timeline o; fixes := fixes o; status := status o;
       _fix_index := _fix_index o;
       _bug_fail_counts := f (_bug_fail_counts o);
       status_mgr := status_mgr o |}).

(** [self._upsert_fixes(fixes)] *)
Definition upsert (items : list fix_outcome) : M run_state unit :=
  fun s =>
    let o := self s in
    match _upsert_fixes items (fixes o, _fix_index o) with
    | Ok acc =>
        (Ok tt,
         {| self := {| timeline := timeline o; fixes := acc.1;
                       status := status o; _fix_index := acc.2;
                       _bug_fail_counts := _bug_fail_counts o;
                       status_mgr := status_mgr o |};
            loc := loc s; world := world s |})
    | Raise e => (Raise e, s)
    end.

(** One turn of the [for] loop; [true] is the [break]. *)
Definition iteration (retry_limit i : Z) : M run_state bool :=
  s <~ get;;
  let run_at := utc_now (world s) in
  let p := path (loc s) in
  on_status_mgr (StatusManager.set_step "Testing" (Some (i + 1)));;;
  failures <~ call (run_tests p);;
  match failures with
  | None | Some "" =>
      timeline_append {| run_no := i + 1; run_status := "PASSED";
                         timestamp := run_at |};;;
      ret true
  | Some failures =>
      timeline_append {| run_no := i + 1; run_status := "FAILED";
                         timestamp := run_at |};;;
      on_status_mgr (StatusManager.set_step "Bug Detection" (Some (i + 1)));;;
      bugs <~ returned (parse failures);;
      on_status_mgr
        (StatusManager.update_counts (Some (Z.of_nat (length bugs))) None);;;
      s <~ get;;
      let attemptable := queue_bug (_bug_fail_counts (self s)) <$> bugs in
      on_status_mgr (StatusManager.set_step "Fixing" (Some (i + 1)));;;
      fixes <~ call (apply_fixes p attemptable);;
      set_counts (fun counts => foldl count_outcome counts fixes);;;
      on_status_mgr
        (StatusManager.update_counts None (Some (count_fixed fixes)));;;
      on_status_mgr (StatusManager.mark_step "Fixing" "Done");;;
      on_status_mgr (StatusManager.set_step "Commit" (Some (i + 1)));;;
      committed <~ call (commit_push p fixes);;
      on_loc (fun l =>
        {| branch := branch l; path := path l;
           total_failures := total_failures l; total_fixes := total_fixes l;
           total_commits := if committed then total_commits l + 1
                            else total_commits l |});;;
      on_status_mgr (StatusManager.mark_step "Commit" "Done");;;
      on_loc (fun l =>
        {| branch := branch l; path := path l;
           total_failures := total_failures l + Z.of_nat (length bugs);
           total_fixes := total_fixes l + count_fixed fixes;
           total_commits := total_commits l |});;;
      upsert fixes;;;
      ret false
  end.

(** [for i in range(retry_limit)], over the indices still to run. *)
Fixpoint iterations (retry_limit : Z) (todo : list Z) : M run_state unit :=
  match todo with
  | [] => ret tt
  | i :: rest =>
      stop <~ iteration retry_limit i;;
      if stop then ret tt else iterations retry_limit rest
  end.

(** The [try] block. *)
Definition run_body (repo_url team leader : string) (retry_limit : Z)
    (started : string) (start_time : Time) : M run_state unit :=
  on_status_mgr (StatusManager.set_step "Cloning" (Some 0));;;
  p <~ call (clone repo_url);;
  on_loc (fun l =>
    {| branch := branch l; path := p; total_failures := total_failures l;
       total_fixes := total_fixes l; total_commits := total_commits l |});;;
  b <~ call (create_branch p team leader);;
  on_loc (fun l =>
    {| branch := b; path := path l;
       total_failures := total_failures l;
       total_fixes := total_fixes l; total_commits := total_commits l |});;;
  on_status_mgr (StatusManager.set_branch b);;;
  on_status_mgr (StatusManager.mark_step "Clone" "Done");;;
  iterations retry_limit (seqZ 0 retry_limit);;;
  s <~ get;;
  let ended := utc_now (world s) in
  let seconds := whole_seconds (time_time (world s)) start_time in
  call (results_generate
          {| rs_repo_url := repo_url; rs_team_name := team;
             rs_leader_name := leader; rs_branch := b;
             rs_failures := total_failures (loc s);
             rs_fixes := total_fixes (loc s);
             rs_timeline := timeline (self s);
             rs_retry_limit := retry_limit;
             rs_total_commits := total_commits (loc s);
             rs_total_time_seconds := seconds;
             rs_started_at := started; rs_ended_at := ended |});;;
  (if String.eqb p "" then ret tt else call (archive_tree p));;;
  set_status {| state := "COMPLETED"; error := None;
                started_at := Some started; ended_at := Some ended;
                total_time_seconds := Some seconds |};;;
  on_status_mgr (StatusManager.set_state "COMPLETED" "");;;
  s <~ get;;
  on_status_mgr
    (StatusManager.set_step "Completed"
       (Some (Z.of_nat (length (timeline (self s)))))).

(** The [except Exception] handler. *)
Definition on_exception (msg started : string) (start_time : Time)
  : M run_state unit :=
  s <~ get;;
  set_status {| state := "FAILED"; error := Some msg;
                started_at := Some started;
                ended_at := Some (utc_now (world s));
                total_time_seconds :=
                  Some (whole_seconds (time_time (world s)) start_time) |};;;
  on_status_mgr (StatusManager.set_state "FAILED" msg).

(** The [finally] block: the RUNNING guard, then the clean-up, whose
    exceptions are dropped. *)
Definition finally : M run_state unit :=
  s <~ get;;
  (if String.eqb (state (status (self s))) "RUNNING" then
     let st := status (self s) in
     set_status {| state := "FAILED"; error := Some "Unknown termination";
                   started_at := started_at st; ended_at := ended_at st;
                   total_time_seconds := total_time_seconds st |};;;
     on_status_mgr (StatusManager.set_state "FAILED" "Unknown termination")
   else ret tt);;;
  fun s => match (if String.eqb (path (loc s)) "" then ret tt
                  else call (cleanup_repo (path (loc s)))) s with
           | (Raise (Exc _ _), s') => (Ok tt, s')
           | r => r
           end.

(** The state at the start of the [try] block. *)
Definition run_start (retry_limit : Z) (o : orchestrator) (w : W)
  : run_state :=
  {| self := {| timeline := []; fixes := [];
                status := {| state := "RUNNING"; error := None;
                             started_at := Some (utc_now w);
                             ended_at := None;
                             total_time_seconds := None |};
                _fix_index := ∅; _bug_fail_counts := ∅;
                status_mgr :=
                  StatusManager.reset retry_limit "" (status_mgr o) |};
     loc := {| branch := ""; path := ""; total_failures := 0;
               total_fixes := 0; total_commits := 0 |};
     world := w |}.

(** [run]: the result is [Ok] unless an exception leaves [run]. *)
Definition run (repo_url team leader : string) (retry_limit : Z)
    (o : orchestrator) (w : W) : result unit * orchestrator * W :=
  let started := utc_now w in
  let start_time := time_time w in
  let tried := run_body repo_url team leader retry_limit started start_time
                 (run_start retry_limit o w) in
  let handled :=
    match tried.1 with
    | Raise (Exc _ msg) => on_exception msg started start_time tried.2
    | r => (r, tried.2)
    end in
  let final := finally handled.2 in
  (match final.1 with Ok _ => handled.1 | Raise e => Raise e end,
   self final.2, world final.2).

(** *** What the [try] block does to [self.status] *)

(** [c] leaves [self.status] alone, however it ends. *)
Definition keeps_status {A} (c : M run_state A) : Prop :=
  forall s r s', c s = (r, s') -> status (self s') = status (self s).

Lemma bind_inv {S A B} (c : M S A) (k : A -> M S B) s r s' :
  bind c k s = (r, s') ->
  (exists a s1, c s = (Ok a, s1) /\ k a s1 = (r, s'))
  \/ (exists e, c s = (Raise e, s') /\ r = Raise e).
Proof.
  unfold bind. destruct (c s) as [[a|e] s1]; intros H.
  - left. eauto.
  - right. injection H as <- <-. eauto.
Qed.

Lemma keeps_status_bind {A B} (c : M run_state A) (k : A -> M run_state B) :
  keeps_status c -> (forall a, keeps_status (k a)) -> keeps_status (bind c k).
Proof.
  intros Hc Hk s r s' H.
  apply bind_inv in H as [(a & s1 & H1 & H2)|(e & H1 & _)].
  - apply Hc in H1. apply Hk in H2. congruence.
  - by apply Hc in H1.
Qed.

Lemma keeps_status_ret {A} (a : A) : keeps_status (ret a).
Proof. intros s r s' H. unfold ret in H. by injection H as _ <-. Qed.

Lemma keeps_status_get : keeps_status get.
Proof. intros s r s' H. unfold get in H. by injection H as _ <-. Qed.

Lemma keeps_status_returned {A} (r : result A) : keeps_status (returned r).
Proof. intros s r' s' H. unfold returned in H. by injection H as _ <-. Qed.

Lemma keeps_status_call {A} (c : M W A) : keeps_status (call c).
Proof. intros s r s' H. unfold call in H. by injection H as _ <-. Qed.

Lemma keeps_status_on_loc f : keeps_status (on_loc f).
Proof. intros s r s' H. unfold on_loc, modify in H. by injection H as _ <-. Qed.

Lemma keeps_status_on_status_mgr f : keeps_status (on_status_mgr f).
Proof.
  intros s r s' H. unfold on_status_mgr, on_self, modify in H.
  by injection H as _ <-.
Qed.

Lemma keeps_status_timeline_append e : keeps_status (timeline_append e).
Proof.
  intros s r s' H. unfold timeline_append, on_self, modify in H.
  by injection H as _ <-.
Qed.

Lemma keeps_status_set_counts f : keeps_status (set_counts f).
Proof.
  intros s r s' H. unfold set_counts, on_self, modify in H.
  by injection H as _ <-.
Qed.

Lemma keeps_status_upsert items : keeps_status (upsert items).
Proof.
  intros s r s' H. unfold upsert in H.
  destruct (_upsert_fixes _ _); by injection H as _ <-.
Qed.

Lemma keeps_status_if {A} (b : bool) (c1 c2 : M run_state A) :
  keeps_status c1 -> keeps_status c2 -> keeps_status (if b then c1 else c2).
Proof. by destruct b. Qed.

Create HintDb frame.
Hint Resolve keeps_status_ret keeps_status_get keeps_status_returned
  keeps_status_call
  keeps_status_on_loc keeps_status_on_status_mgr keeps_status_timeline_append
  keeps_status_set_counts keeps_status_upsert keeps_status_if : frame.

Ltac frame :=
  repeat first
    [ apply keeps_status_bind; [|intros ?]
    | progress auto with frame
    | match goal with
      | |- keeps_status (match ?x with _ => _ end) => destruct x
      end ].

Lemma keeps_status_iteration retry_limit i :
  keeps_status (iteration retry_limit i).
Proof. unfold iteration. frame. Qed.

Lemma keeps_status_iterations retry_limit todo :
  keeps_status (iterations retry_limit todo).
Proof.
  induction todo as [|i rest IH]; simpl; [auto with frame|].
  apply keeps_status_bind; [apply keeps_status_iteration|].
  intros stop. by apply keeps_status_if; auto with frame.
Qed.

(** The [try] block either raises with [self.status] as it found it, or
    returns with the COMPLETED record stored and the status manager in state
    COMPLETED without an error entry. *)
Lemma run_body_status repo_url team leader retry_limit started start_time
    s r s' :
  run_body repo_url team leader retry_limit started start_time s = (r, s') ->
  match r with
  | Ok _ =>
      state (status (self s')) = "COMPLETED"
      /\ error (status (self s')) = None
      /\ StatusManager.sm_state (StatusManager._state (status_mgr (self s')))
         = "COMPLETED"
      /\ StatusManager.error (StatusManager._state (status_mgr (self s')))
         = None
  | Raise _ => status (self s') = status (self s)
  end.
Proof.
  unfold run_body. intros H.
  remember (status (self s)) as st0 eqn:Heq.
  repeat match type of H with
  | bind (set_status _) _ _ = _ => fail 1
  | bind ?c _ _ = _ =>
      let Hc := fresh "Hc" in
      let Hs := fresh "Hs" in
      assert (Hc : keeps_status c)
        by (auto using keeps_status_iterations with frame);
      apply bind_inv in H as [(? & ? & Hs & H)|(? & Hs & ->)];
      apply Hc in Hs; rewrite <- Hs in Heq; clear Hs Hc; [|congruence]
  end.
  cbv [bind set_status on_status_mgr on_self modify get] in H.
  injection H as <- <-. done.
Qed.

(** The [finally] block stores the sentinel when the state is still RUNNING
    and leaves the object alone otherwise. *)
Lemma finally_self s :
  self (finally s).2 =
    if String.eqb (state (status (self s))) "RUNNING" then
      {| timeline := timeline (self s); fixes := fixes (self s);
         status := {| state := "FAILED"; error := Some "Unknown termination";
                      started_at := started_at (status (self s));
                      ended_at := ended_at (status (self s));
                      total_time_seconds :=
                        total_time_seconds (status (self s)) |};
         _fix_index := _fix_index (self s);
         _bug_fail_counts := _bug_fail_counts (self s);
         status_mgr := StatusManager.set_state "FAILED" "Unknown termination"
                         (status_mgr (self s)) |}
    else self s.
Proof.
  unfold finally, bind, get.
  destruct (String.eqb (state (status (self s))) "RUNNING");
    cbv [set_status on_status_mgr on_self modify ret bind call];
    cbn [self loc world path];
    repeat match goal with
    | |- context [if ?b then _ else _] => destruct b
    | |- context [match ?x with _ => _ end] => destruct x
    end; reflexivity.
Qed.

(** How the clean-up call of the [finally] block ends when the block is
    entered in state [s]; without a path there is no call. *)
Definition cleaned (s : run_state) : result unit :=
  if String.eqb (path (loc s)) "" then Ok tt
  else (cleanup_repo (path (loc s)) (world s)).1.

(** The [finally] block lets no [Exception] out: it returns, unless the
    clean-up is left by an exception that is not an [Exception], which then
    leaves the block. *)
Lemma finally_result s :
  (finally s).1 = match cleaned s with
                  | Raise (BaseExc cls msg) => Raise (BaseExc cls msg)
                  | _ => Ok tt
                  end.
Proof.
  unfold finally, cleaned, bind, get.
  destruct (String.eqb (state (status (self s))) "RUNNING");
    cbv [set_status on_status_mgr on_self modify ret bind];
    cbn [self loc world path];
    (destruct (String.eqb _ ""); [done|]);
    unfold call; cbn [self loc world path fst snd];
    match goal with
    | |- context [cleanup_repo ?p ?w0] =>
        destruct (cleanup_repo p w0) as [[[]|[c m|c m]] w1]
    end; reflexivity.
Qed.

(** C7 (as the code has it): the two status records are set by the [try]
    block and its handlers alone, whatever the clean-up in the [finally]
    block does.  A run ends COMPLETED, with no error entry in either record,
    exactly when the [try] block returns.  When the [try] block is left by an
    [Exception], the run ends FAILED and [self.status] holds [str(exc)] as
    its error, empty or not, while the status manager holds it only when it
    is not empty.  When the [try] block is left by any other exception the
    run ends FAILED with the sentinel in both records.  [run] itself lets no
    [Exception] out; it is left by an exception that is not an [Exception]
    exactly when the clean-up raises one (which then leaves [run]) or the
    [try] block was left by one, and in the first case the records can be
    those of a run that completed or failed with [str(exc)]. *)
Theorem run_terminal_error (repo_url team leader : string) (retry_limit : Z)
    (o : orchestrator) (w : W) :
  let tried := run_body repo_url team leader retry_limit (utc_now w)
                 (time_time w) (run_start retry_limit o w) in
  let outcome := run repo_url team leader retry_limit o w in
  let o' := outcome.1.2 in
  let mgr := StatusManager._state (status_mgr o') in
  match tried.1 with
  | Ok _ =>
      state (status o') = "COMPLETED" /\ error (status o') = None
      /\ StatusManager.sm_state mgr = "COMPLETED"
      /\ StatusManager.error mgr = None
  | Raise (Exc _ msg) =>
      state (status o') = "FAILED" /\ error (status o') = Some msg
      /\ StatusManager.sm_state mgr = "FAILED"
      /\ StatusManager.error mgr = (if decide (msg = "") then None else Some msg)
  | Raise (BaseExc _ _) =>
      state (status o') = "FAILED"
      /\ error (status o') = Some "Unknown termination"
      /\ StatusManager.sm_state mgr = "FAILED"
      /\ StatusManager.error mgr = Some "Unknown termination"
  end
  /\ (forall cls msg, outcome.1.1 <> Raise (Exc cls msg))
  /\ outcome.1.1
     = match cleaned tried.2, tried.1 with
       | Raise (BaseExc cls msg), _ => Raise (BaseExc cls msg)
       | _, Raise (BaseExc cls msg) => Raise (BaseExc cls msg)
       | _, _ => Ok tt
       end.
Proof.
  intros tried outcome o' mgr. unfold mgr, o', outcome, run. fold tried.
  cbn [fst snd].
  destruct tried as [r s1] eqn:Htried. unfold tried in Htried.
  apply run_body_status in Htried. cbn [fst snd].
  split_and!.
  - destruct r as [[]|[cls msg|cls msg]].
    + destruct Htried as (Hst & Herr & Hms & Hme).
      cbn [snd]. rewrite finally_self, Hst. done.
    + rewrite finally_self.
      cbv [on_exception bind get set_status on_status_mgr on_self modify].
      cbn [snd self status state error status_mgr]. done.
    + cbn [snd]. rewrite finally_self, Htried.
      cbn [run_start self status state]. done.
  - intros cls msg. rewrite finally_result.
    destruct (cleaned _) as [[]|[c m|c m]]; try done;
      destruct r as [[]|[c' m'|c' m']]; try done;
      cbv [on_exception bind get set_status on_status_mgr on_self modify];
      done.
  - rewrite finally_result.
    assert (Hsame : forall msg,
      cleaned (on_exception msg (utc_now w) (time_time w) s1).2 = cleaned s1)
      by reflexivity.
    destruct r as [[]|[c' m'|c' m']]; cbn [snd]; rewrite ?Hsame;
      destruct (cleaned s1) as [[]|[c m|c m]]; reflexivity.
Qed.

(** *** The guard of [main.py]'s [run_agent] after a run *)

(** [run_agent] (lines 49-62 of [main.py]) up to the hand-over of [orch.run]
    to the background tasks: a request is refused with status 409 while
    [orch.status] says RUNNING. *)
Definition run_agent (o : orchestrator) : result string :=
  if String.eqb (state (status o)) "RUNNING"
  then Raise (Exc "HTTPException" "409: Agent is already running")
  else Ok "started".

(** X25: a run never leaves the orchestrator in state RUNNING, whatever the
    collaborators do and however the run ends (also when an exception that
    is not an [Exception] passes through [run]); the next request to
    [run_agent] is therefore accepted. *)
Theorem run_agent_accepts_after_run (repo_url team leader : string)
    (retry_limit : Z) (o : orchestrator) (w : W) :
  let o' := (run repo_url team leader retry_limit o w).1.2 in
  state (status o') <> "RUNNING" /\ run_agent o' = Ok "started".
Proof.
  cbn zeta.
  assert (Hstate : state (status (run repo_url team leader retry_limit o w).1.2)
                   = "COMPLETED"
                   \/ state (status
                               (run repo_url team leader retry_limit o w).1.2)
                      = "FAILED").
  { unfold run. cbn [fst snd].
    destruct (run_body _ _ _ _ _ _ _) as [r s1] eqn:Htried.
    apply run_body_status in Htried. cbn [fst snd].
    destruct r as [[]|[cls msg|cls msg]].
    - destruct Htried as (Hst & _). cbn [snd]. rewrite finally_self, Hst.
      by left.
    - rewrite finally_self.
      cbv [on_exception bind get set_status on_status_mgr on_self modify].
      cbn [snd self status state]. by right.
    - cbn [snd]. rewrite finally_self, Htried.
      cbn [run_start self status state]. by right. }
  unfold run_agent. destruct Hstate as [-> | ->]; by split.
Qed.

(** *** The shape of the timeline, whatever the collaborators do *)

(** [c] leaves [self.timeline] alone, however it ends. *)
Definition keeps_timeline {A} (c : M run_state A) : Prop :=
  forall s r s', c s = (r, s') -> timeline (self s') = timeline (self s).

Lemma keeps_timeline_bind {A B} (c : M run_state A) (k : A -> M run_state B) :
  keeps_timeline c -> (forall a, keeps_timeline (k a)) ->
  keeps_timeline (bind c k).
Proof.
  intros Hc Hk s r s' H.
  apply bind_inv in H as [(a & s1 & H1 & H2)|(e & H1 & _)].
  - apply Hc in H1. apply Hk in H2. congruence.
  - by apply Hc in H1.
Qed.

Lemma keeps_timeline_ret {A} (a : A) : keeps_timeline (ret a).
Proof. intros s r s' H. unfold ret in H. by injection H as _ <-. Qed.

Lemma keeps_timeline_get : keeps_timeline get.
Proof. intros s r s' H. unfold get in H. by injection H as _ <-. Qed.

Lemma keeps_timeline_returned {A} (r : result A) :
  keeps_timeline (returned r).
Proof. intros s r' s' H. unfold returned in H. by injection H as _ <-. Qed.

Lemma keeps_timeline_call {A} (c : M W A) : keeps_timeline (call c).
Proof. intros s r s' H. unfold call in H. by injection H as _ <-. Qed.

Lemma keeps_timeline_on_loc f : keeps_timeline (on_loc f).
Proof. intros s r s' H. unfold on_loc, modify in H. by injection H as _ <-. Qed.

Lemma keeps_timeline_on_status_mgr f : keeps_timeline (on_status_mgr f).
Proof.
  intros s r s' H. unfold on_status_mgr, on_self, modify in H.
  by injection H as _ <-.
Qed.

Lemma keeps_timeline_set_status st : keeps_timeline (set_status st).
Proof.
  intros s r s' H. unfold set_status, on_self, modify in H.
  by injection H as _ <-.
Qed.

Lemma keeps_timeline_set_counts f : keeps_timeline (set_counts f).
Proof.
  intros s r s' H. unfold set_counts, on_self, modify in H.
  by injection H as _ <-.
Qed.

Lemma keeps_timeline_upsert items : keeps_timeline (upsert items).
Proof.
  intros s r s' H. unfold upsert in H.
  destruct (_upsert_fixes _ _); by injection H as _ <-.
Qed.

Lemma keeps_timeline_if {A} (b : bool) (c1 c2 : M run_state A) :
  keeps_timeline c1 -> keeps_timeline c2 ->
  keeps_timeline (if b then c1 else c2).
Proof. by destruct b. Qed.

Create HintDb timeline.
Hint Resolve keeps_timeline_ret keeps_timeline_get keeps_timeline_returned
  keeps_timeline_call
  keeps_timeline_on_loc keeps_timeline_on_status_mgr
  keeps_timeline_set_status keeps_timeline_set_counts keeps_timeline_upsert
  keeps_timeline_if keeps_timeline_bind : timeline.

Ltac keeps_timeline :=
  repeat first
    [ apply keeps_timeline_bind; [|intros ?]
    | progress auto with timeline
    | match goal with
      | |- keeps_timeline (match ?x with _ => _ end) => destruct x
      end ].

(** [c] does not break out of the loop. *)
Definition never_breaks (c : M run_state bool) : Prop :=
  forall s r s', c s = (r, s') -> r <> Ok true.

Lemma never_breaks_bind {A} (c : M run_state A) (k : A -> M run_state bool) :
  (forall a, never_breaks (k a)) -> never_breaks (bind c k).
Proof.
  intros Hk s r s' H.
  apply bind_inv in H as [(a & s1 & _ & H)|(e & _ & ->)]; [|done].
  by eapply Hk.
Qed.

Lemma never_breaks_ret_false : never_breaks (ret false).
Proof. intros s r s' H. unfold ret in H. by injection H as <- _. Qed.

(** Only the last entry of a timeline can be a pass. *)
Definition only_last_passes (entries : list run_entry) : Prop :=
  forall j e, entries !! j = Some e ->
    run_status e = "FAILED"
    \/ (run_status e = "PASSED" /\ S j = length entries).

Lemma only_last_passes_nil : only_last_passes [].
Proof. intros j e Hj. by rewrite lookup_nil in Hj. Qed.

Lemma only_last_passes_one e :
  run_status e = "FAILED" \/ run_status e = "PASSED" -> only_last_passes [e].
Proof.
  intros He [|j] e' Hj; cbn in Hj; [|by destruct j].
  injection Hj as <-. destruct He; [by left|by right].
Qed.

(** What one turn of the loop does to the timeline: nothing when it is left
    before the test pass has returned, else one entry, which is a pass
    exactly when the turn breaks out of the loop. *)
Lemma iteration_timeline retry_limit i s r s' :
  iteration retry_limit i s = (r, s') ->
  (timeline (self s') = timeline (self s) /\ exists e, r = Raise e)
  \/ exists e, timeline (self s') = timeline (self s) ++ [e]
       /\ run_no e = i + 1
       /\ ((run_status e = "PASSED" /\ r = Ok true)
           \/ (run_status e = "FAILED" /\ r <> Ok true)).
Proof.
  unfold iteration. intros H.
  remember (timeline (self s)) as tl0 eqn:Heq.
  do 3 match type of H with
  | bind ?c _ _ = _ =>
      let Hc := fresh "Hc" in
      let Hs := fresh "Hs" in
      assert (Hc : keeps_timeline c) by auto with timeline;
      apply bind_inv in H as [(? & ? & Hs & H)|(? & Hs & ->)];
      apply Hc in Hs; rewrite <- Hs in Heq; clear Hs Hc;
      [|left; split; [done|eauto]]
  end.
  match type of H with
  | match ?f with _ => _ end _ = _ => destruct f as [[|c failures]|]
  end.
  1,3: right; cbv [bind timeline_append on_self modify ret] in H;
       injection H as <- <-; cbn [self timeline]; rewrite <- Heq;
       eexists; split; [done|]; cbn; split; [done|by left].
  right.
  apply bind_inv in H as [([] & s1 & Hs & H)|(? & Hs & ->)];
    cbv [timeline_append on_self modify] in Hs; [|discriminate].
  injection Hs as <-.
  match type of H with
  | ?rest _ = _ =>
      assert (Hk : keeps_timeline rest) by (cbn zeta; keeps_timeline);
      assert (Hn : never_breaks rest)
        by (cbn zeta; repeat (apply never_breaks_bind; intros ?);
            apply never_breaks_ret_false)
  end.
  pose proof (Hk _ _ _ H) as Htl. apply Hn in H. clear Hk Hn.
  cbn [self timeline] in Htl. rewrite <- Heq in Htl.
  eexists. split; [exact Htl|]. cbn. split; [done|by right].
Qed.

(** The loop over [todo = seqZ start n] appends at most [n] entries, numbered
    from [start + 1] on without a gap; only the last can be a pass. *)
Lemma iterations_timeline retry_limit (n : nat) start s r s' :
  iterations retry_limit (seqZ start (Z.of_nat n)) s = (r, s') ->
  exists new, timeline (self s') = timeline (self s) ++ new
    /\ (length new <= n)%nat
    /\ run_no <$> new = seqZ (start + 1) (Z.of_nat (length new))
    /\ only_last_passes new.
Proof.
  revert start s. induction n as [|n IH]; intros start s H.
  { cbn in H. unfold ret in H. injection H as _ <-.
    exists []. rewrite app_nil_r.
    split_and!; [done|done|done|apply only_last_passes_nil]. }
  rewrite seqZ_cons in H by lia.
  replace (Z.pred (Z.of_nat (S n))) with (Z.of_nat n) in H by lia.
  cbn [iterations] in H.
  assert (Hone : forall e : run_entry, run_no e = start + 1 ->
            run_no <$> [e] = seqZ (start + 1) (Z.of_nat (length [e]))).
  { intros e He. cbn. by rewrite He. }
  apply bind_inv in H as [(stop & s1 & Hit & H)|(x & Hit & ->)];
    apply iteration_timeline in Hit
      as [[Htl [x' Hx]]|(e & Htl & Hno & [[Hst Hr]|[Hst Hr]])];
    try congruence.
  - (* the pass: the loop is left *)
    injection Hr as ->. unfold ret in H. injection H as _ <-.
    exists [e]. split_and!; [done|cbn; lia|by apply Hone|].
    apply only_last_passes_one. by right.
  - (* a failed pass: the loop goes on *)
    destruct stop; [done|].
    apply IH in H as (new & Htl' & Hlen & Hnos & Hlast).
    exists (e :: new). split_and!.
    + rewrite Htl', Htl, <- app_assoc. done.
    + cbn. lia.
    + cbn [fmap list_fmap length]. rewrite seqZ_cons by lia.
      rewrite Hno. f_equal. fold (fmap (M:=list) run_no new). rewrite Hnos.
      f_equal; lia.
    + intros [|j] e' Hj.
      * injection Hj as <-. by left.
      * apply Hlast in Hj as [?|[? ?]]; [by left|right].
        split; [done|]. cbn. lia.
  - (* the turn raises before the test pass has returned *)
    exists []. rewrite app_nil_r.
    split_and!; [done|cbn; lia|done|apply only_last_passes_nil].
  - (* the turn raises after a failed pass *)
    exists [e]. split_and!; [done|cbn; lia|by apply Hone|].
    apply only_last_passes_one. by left.
Qed.

(** The [try] block adds to the timeline what its loop adds. *)
Lemma run_body_timeline repo_url team leader retry_limit started start_time
    s r s' :
  run_body repo_url team leader retry_limit started start_time s = (r, s') ->
  exists new, timeline (self s') = timeline (self s) ++ new
    /\ Z.of_nat (length new) <= Z.max 0 retry_limit
    /\ run_no <$> new = seqZ 1 (Z.of_nat (length new))
    /\ only_last_passes new.
Proof.
  unfold run_body. intros H.
  remember (timeline (self s)) as tl0 eqn:Heq.
  repeat match type of H with
  | bind (iterations _ _) _ _ = _ => fail 1
  | bind ?c _ _ = _ =>
      let Hc := fresh "Hc" in
      let Hs := fresh "Hs" in
      assert (Hc : keeps_timeline c) by auto with timeline;
      apply bind_inv in H as [(? & ? & Hs & H)|(? & Hs & ->)];
      apply Hc in Hs; rewrite <- Hs in Heq; clear Hs Hc;
      [|exists []; rewrite app_nil_r;
        split_and!; [done|cbn; lia|done|apply only_last_passes_nil]]
  end.
  replace (seqZ 0 retry_limit)
    with (seqZ 0 (Z.of_nat (Z.to_nat retry_limit))) in H
    by (unfold seqZ; by rewrite Nat2Z.id).
  apply bind_inv in H as [([] & s1 & Hit & H)|(e & Hit & ->)];
    apply iterations_timeline in Hit as (new & Htl & Hlen & Hnos & Hlast);
    rewrite <- Heq in Htl; exists new.
  2:{ split_and!; [done|lia|done|done]. }
  match type of H with
  | ?rest _ = _ =>
      assert (Hk : keeps_timeline rest) by (cbn zeta; keeps_timeline)
  end.
  apply Hk in H. split_and!; [congruence|lia|done|done].
Qed.

(** X21: whatever the collaborators do, and however the run ends, the
    timeline of a run has at most [retry_limit] entries (none when
    [retry_limit] is zero or negative), its run numbers are 1, 2, ... without
    a gap, every entry is FAILED or PASSED, and only the last entry can be
    PASSED. *)
Theorem run_timeline_shape (repo_url team leader : string) (retry_limit : Z)
    (o : orchestrator) (w : W) :
  let entries := timeline (run repo_url team leader retry_limit o w).1.2 in
  Z.of_nat (length entries) <= Z.max 0 retry_limit
  /\ run_no <$> entries = seqZ 1 (Z.of_nat (length entries))
  /\ forall j e, entries !! j = Some e ->
       run_status e = "FAILED"
       \/ (run_status e = "PASSED" /\ S j = length entries).
Proof.
  cbn zeta. unfold run. cbn [fst snd].
  destruct (run_body _ _ _ _ _ _ _) as [r s1] eqn:Htried.
  apply run_body_timeline in Htried as (new & Htl & Hlen & Hnos & Hlast).
  cbn [run_start self timeline app] in Htl. cbn [fst snd].
  assert (Hfinal : forall s, timeline (self (finally s).2) = timeline (self s)).
  { intros s. rewrite finally_self. by destruct (String.eqb _ _). }
  rewrite Hfinal.
  destruct r as [[]|[cls msg|cls msg]]; cbn [snd];
    cbv [on_exception bind get set_status on_status_mgr on_self modify];
    cbn [snd self timeline]; by rewrite Htl.
Qed.

(** *** Running the [try] block step by step *)

Lemma bind_ok {S A B} (c : M S A) (k : A -> M S B) s a s1 :
  c s = (Ok a, s1) -> bind c k s = k a s1.
Proof. unfold bind. by intros ->. Qed.

Lemma call_ok {A} (c : M W A) s a w' :
  c (world s) = (Ok a, w') ->
  call c s = (Ok a, {| self := self s; loc := loc s; world := w' |}).
Proof. unfold call. by intros ->. Qed.


(** *** A run whose first test pass succeeds *)

(** The [try] block after the loop: the results file, the archive and the
    COMPLETED records. *)
Definition after_loop (repo_url team leader : string) (retry_limit : Z)
    (started : string) (start_time : Time) (p b : string)
  : M run_state unit :=
  s <~ get;;
  let ended := utc_now (world s) in
  let seconds := whole_seconds (time_time (world s)) start_time in
  call (results_generate
          {| rs_repo_url := repo_url; rs_team_name := team;
             rs_leader_name := leader; rs_branch := b;
             rs_failures := total_failures (loc s);
             rs_fixes := total_fixes (loc s);
             rs_timeline := timeline (self s);
             rs_retry_limit := retry_limit;
             rs_total_commits := total_commits (loc s);
             rs_total_time_seconds := seconds;
             rs_started_at := started; rs_ended_at := ended |});;;
  (if String.eqb p "" then ret tt else call (archive_tree p));;;
  set_status {| state := "COMPLETED"; error := None;
                started_at := Some started; ended_at := Some ended;
                total_time_seconds := Some seconds |};;;
  on_status_mgr (StatusManager.set_state "COMPLETED" "");;;
  s <~ get;;
  on_status_mgr
    (StatusManager.set_step "Completed"
       (Some (Z.of_nat (length (timeline (self s)))))).

(** The state in which the loop is left when its first test pass, run in the
    world [w2] after the branch was made, succeeds and leaves the world
    [w3]. *)
Definition passed_at_once (retry_limit : Z) (o : orchestrator) (w : W)
    (p b : string) (w2 w3 : W) : run_state :=
  {| self :=
       {| timeline := [{| run_no := 1; run_status := "PASSED";
                          timestamp := utc_now w2 |}];
          fixes := [];
          status := {| state := "RUNNING"; error := None;
                       started_at := Some (utc_now w); ended_at := None;
                       total_time_seconds := None |};
          _fix_index := ∅; _bug_fail_counts := ∅;
          status_mgr :=
            StatusManager.set_step "Testing" (Some 1)
              (StatusManager.mark_step "Clone" "Done"
                 (StatusManager.set_branch b
                    (StatusManager.set_step "Cloning" (Some 0)
                       (StatusManager.reset retry_limit ""
                          (status_mgr o))))) |};
     loc := {| branch := b; path := p; total_failures := 0; total_fixes := 0;
               total_commits := 0 |};
     world := w3 |}.

Ltac fields :=
  cbn [self loc world timeline fixes status _fix_index _bug_fail_counts
       status_mgr branch path total_failures total_fixes total_commits
       fst snd].
Ltac pure := erewrite bind_ok by reflexivity; fields.
Ltac called H := erewrite bind_ok by (apply call_ok; exact H); fields.

(** A turn whose test pass reports nothing breaks out of the loop, having
    done nothing but the test pass. *)
Lemma iteration_passes retry_limit i s failures w3 :
  run_tests (path (loc s)) (world s) = (Ok failures, w3) ->
  failures = None \/ failures = Some "" ->
  iteration retry_limit i s
  = (Ok true,
     {| self :=
          {| timeline := timeline (self s)
                         ++ [{| run_no := i + 1; run_status := "PASSED";
                                timestamp := utc_now (world s) |}];
             fixes := fixes (self s); status := status (self s);
             _fix_index := _fix_index (self s);
             _bug_fail_counts := _bug_fail_counts (self s);
             status_mgr :=
               StatusManager.set_step "Testing" (Some (i + 1))
                 (status_mgr (self s)) |};
        loc := loc s; world := w3 |}).
Proof.
  destruct s as [[tl fx st idx cnt mgr] [br pa tf tfx tc] w]. fields.
  intros Htests Hpass. unfold iteration.
  pure. pure. called Htests.
  by destruct Hpass as [-> | ->].
Qed.

Lemma run_body_passed_at_once repo_url team leader retry_limit started
    start_time o w p w1 b w2 failures w3 :
  0 < retry_limit ->
  clone repo_url w = (Ok p, w1) ->
  create_branch p team leader w1 = (Ok b, w2) ->
  run_tests p w2 = (Ok failures, w3) ->
  failures = None \/ failures = Some "" ->
  run_body repo_url team leader retry_limit started start_time
    (run_start retry_limit o w)
  = after_loop repo_url team leader retry_limit started start_time p b
      (passed_at_once retry_limit o w p b w2 w3).
Proof.
  intros Hlimit Hclone Hbranch Htests Hpass.
  unfold run_body, run_start.
  pure. called Hclone. pure. called Hbranch. do 3 pure.
  rewrite seqZ_cons by lia.
  erewrite bind_ok.
  2:{ cbn [iterations]. erewrite bind_ok.
      2:{ apply (iteration_passes _ _ _ failures w3); fields; done. }
      reflexivity. }
  reflexivity.
Qed.

Lemma keeps_timeline_after_loop repo_url team leader retry_limit started
    start_time p b :
  keeps_timeline
    (after_loop repo_url team leader retry_limit started start_time p b).
Proof. unfold after_loop. cbn zeta. keeps_timeline. Qed.

(** What [run] leaves in the object, given how the [try] block ended. *)
Lemma run_timeline_of_try repo_url team leader retry_limit o w r s1 :
  run_body repo_url team leader retry_limit (utc_now w) (time_time w)
    (run_start retry_limit o w) = (r, s1) ->
  timeline (run repo_url team leader retry_limit o w).1.2
  = timeline (self s1).
Proof.
  intros Htried. unfold run. rewrite Htried. cbn [fst snd].
  rewrite finally_self.
  assert (Hif : forall (b : bool) (o1 o2 : orchestrator),
            timeline o1 = timeline o2 ->
            timeline (if b then o1 else o2) = timeline o2)
    by (by intros []).
  rewrite Hif by done.
  destruct r as [[]|[cls msg|cls msg]]; cbn [snd];
    cbv [on_exception bind get set_status on_status_mgr on_self modify];
    cbn [snd self timeline]; done.
Qed.


(** *** The summary handed to [ResultsManager.generate] *)

(** The counters of [run] stay within bounds: no more fixes than failures,
    no more commits than test passes. *)
Definition totals_ok (s : run_state) : Prop :=
  0 <= total_fixes (loc s) <= total_failures (loc s)
  /\ 0 <= total_commits (loc s) <= Z.of_nat (length (timeline (self s))).

Lemma count_fixed_bounds items :
  0 <= count_fixed items <= Z.of_nat (length items).
Proof.
  unfold count_fixed. pose proof (length_filter (fun f => f_status f = "Fixed") items).
  lia.
Qed.

Ltac stepped H :=
  let Hs := fresh "Hs" in
  apply bind_inv in H as [(? & ? & Hs & H)|(? & _ & ?)]; [|discriminate];
  first
    [ progress cbv [get on_status_mgr on_self on_loc set_counts
                    timeline_append set_status modify] in Hs;
      injection Hs as <- <-
    | unfold call in Hs; injection Hs as ? <-
    | unfold returned in Hs; injection Hs as ? <-
    | unfold upsert in Hs; destruct (_upsert_fixes _ _);
      [injection Hs as <- <-|discriminate] ];
  cbn [self loc world timeline fixes status _fix_index _bug_fail_counts
       status_mgr branch path total_failures total_fixes total_commits
       fst snd] in H.

Section Counted.
(** The fix engine answers every bug it is given ([FixAgent.apply_fixes]
    does). *)
Hypothesis apply_fixes_answers_all : forall p bugs w items w',
  apply_fixes p bugs w = (Ok items, w') -> length items = length bugs.

Lemma iteration_totals retry_limit i s stop s' :
  iteration retry_limit i s = (Ok stop, s') -> totals_ok s -> totals_ok s'.
Proof.
  destruct s as [[tl fx st idx cnt mgr] [br pa tf tfx tc] w].
  unfold totals_ok. fields. intros H Hok. unfold iteration in H.
  do 3 stepped H.
  match type of H with
  | match ?f with _ => _ end _ = _ => destruct f as [[|c failures]|]
  end.
  1,3: cbv [bind timeline_append on_self modify ret] in H;
       injection H as _ <-; fields; rewrite length_app; cbn [length]; lia.
  do 7 stepped H.
  match goal with
  | Hfix : (apply_fixes ?p ?bugs ?w0).1 = Ok ?items |- _ =>
      assert (Hlen : length items = length bugs)
        by (apply (apply_fixes_answers_all p bugs w0 items
                     (apply_fixes p bugs w0).2);
            rewrite <- Hfix; by destruct (apply_fixes p bugs w0));
      pose proof (count_fixed_bounds items) as Hfixed
  end.
  rewrite length_fmap in Hlen.
  do 9 stepped H.
  unfold ret in H. injection H as _ <-. fields.
  rewrite length_app. cbn [length].
  match goal with
  | |- context [if ?committed then _ else _] => destruct committed
  end; lia.
Qed.

Lemma iterations_totals retry_limit todo s s' :
  iterations retry_limit todo s = (Ok tt, s') -> totals_ok s -> totals_ok s'.
Proof.
  revert s. induction todo as [|i rest IH]; intros s H Hok.
  - unfold iterations, ret in H. by injection H as <-.
  - cbn [iterations] in H.
    apply bind_inv in H as [(stop & s1 & Hit & H)|(? & _ & ?)]; [|discriminate].
    apply iteration_totals in Hit; [|done].
    destruct stop; [|by eapply IH].
    unfold ret in H. by injection H as <-.
Qed.

(** When the [try] block returns, [results_generate] has returned on a
    summary that holds the timeline of the run and counters within
    bounds. *)
Lemma run_body_summary repo_url team leader retry_limit started start_time
    o w s' :
  run_body repo_url team leader retry_limit started start_time
    (run_start retry_limit o w) = (Ok tt, s') ->
  exists summary w1 w2,
    results_generate summary w1 = (Ok tt, w2)
    /\ rs_timeline summary = timeline (self s')
    /\ rs_repo_url summary = repo_url /\ rs_retry_limit summary = retry_limit
    /\ 0 <= rs_fixes summary <= rs_failures summary
    /\ 0 <= rs_total_commits summary
         <= Z.of_nat (length (rs_timeline summary)).
Proof.
  unfold run_body, run_start. intros H.
  do 7 stepped H.
  apply bind_inv in H as [([] & s1 & Hloop & H)|(? & _ & ?)]; [|discriminate].
  apply iterations_totals in Hloop; [|unfold totals_ok; fields; cbn; lia].
  destruct Hloop as [Hfixes Hcommits].
  stepped H.
  apply bind_inv in H as [([] & s2 & Hgen & H)|(? & _ & ?)]; [|discriminate].
  match type of H with
  | ?rest _ = _ =>
      assert (Hk : keeps_timeline rest) by (cbn zeta; keeps_timeline)
  end.
  apply Hk in H. clear Hk.
  unfold call in Hgen.
  match type of Hgen with
  | ((results_generate ?summary ?w1).1, _) = _ =>
      exists summary, w1, (results_generate summary w1).2;
      destruct (results_generate summary w1) as [rg wg] eqn:Hrg
  end.
  cbn [fst snd] in Hgen. injection Hgen as -> <-.
  cbn [self timeline] in H.
  cbn [rs_timeline rs_repo_url rs_retry_limit rs_fixes rs_failures
       rs_total_commits].
  split_and!; first [done|lia].
Qed.

(** A loop that has at least one turn and returns has appended an
    entry. *)
Lemma iterations_ok_nonempty retry_limit i rest s s' :
  iterations retry_limit (i :: rest) s = (Ok tt, s') ->
  timeline (self s') <> [].
Proof.
  cbn [iterations]. intros H.
  apply bind_inv in H as [(stop & s1 & Hit & H)|(? & _ & ?)]; [|discriminate].
  apply iteration_timeline in Hit as [[_ [e ?]]|(e & Htl & _)]; [done|].
  assert (Hgrow : forall todo s2 r s3,
            iterations retry_limit todo s2 = (r, s3) ->
            timeline (self s2) <> [] -> timeline (self s3) <> []).
  { clear. intros todo s2 r s3 H Hne.
    replace todo with (seqZ 0 0 ++ todo) in H by done.
    assert (Hpre : exists new, timeline (self s3) = timeline (self s2) ++ new).
    { clear Hne. revert s2 H. cbn [app seqZ].
      induction todo as [|i rest IH]; intros s2 H.
      - unfold iterations, ret in H. injection H as _ <-.
        exists []. by rewrite app_nil_r.
      - cbn [iterations] in H.
        apply bind_inv in H as [(stop & s1 & Hit & H)|(? & Hit & ->)];
          apply iteration_timeline in Hit as [[Htl _]|(e & Htl & _)].
        + destruct stop.
          * unfold ret in H. injection H as _ <-. exists [].
            by rewrite app_nil_r.
          * apply IH in H as [new ->]. exists new. by rewrite Htl.
        + destruct stop.
          * unfold ret in H. injection H as _ <-. by exists [e].
          * apply IH in H as [new ->]. exists (e :: new).
            by rewrite Htl, <- app_assoc.
        + exists []. by rewrite app_nil_r.
        + by exists [e]. }
    destruct Hpre as [new ->]. by destruct (timeline (self s2)). }
  destruct stop.
  - unfold ret in H. injection H as <-. rewrite Htl.
    by destruct (timeline (self s)).
  - eapply Hgrow; [exact H|]. rewrite Htl. by destruct (timeline (self s)).
Qed.

Lemma run_body_nonempty repo_url team leader retry_limit started start_time
    o w s' :
  0 < retry_limit ->
  run_body repo_url team leader retry_limit started start_time
    (run_start retry_limit o w) = (Ok tt, s') ->
  timeline (self s') <> [].
Proof.
  unfold run_body, run_start. intros Hlimit H.
  do 7 stepped H.
  apply bind_inv in H as [([] & s1 & Hloop & H)|(? & _ & ?)]; [|discriminate].
  rewrite seqZ_cons in Hloop by lia.
  apply iterations_ok_nonempty in Hloop.
  match type of H with
  | ?rest _ = _ =>
      assert (Hk : keeps_timeline rest) by (cbn zeta; keeps_timeline)
  end.
  apply Hk in H. by rewrite H.
Qed.

(** A run that ends COMPLETED is a run whose [try] block returned. *)
Lemma completed_run_try repo_url team leader retry_limit o w :
  state (status (run repo_url team leader retry_limit o w).1.2) = "COMPLETED" ->
  exists s',
    run_body repo_url team leader retry_limit (utc_now w) (time_time w)
      (run_start retry_limit o w) = (Ok tt, s')
    /\ timeline (run repo_url team leader retry_limit o w).1.2
       = timeline (self s').
Proof.
  destruct (run_body repo_url team leader retry_limit (utc_now w)
              (time_time w) (run_start retry_limit o w)) as [r s1] eqn:Htried.
  rewrite (run_timeline_of_try _ _ _ _ _ _ _ _ Htried).
  unfold run. rewrite Htried. cbn [fst snd].
  pose proof (run_body_status _ _ _ _ _ _ _ _ _ Htried) as Hst.
  destruct r as [[]|[cls msg|cls msg]]; [by exists s1| |].
  - rewrite finally_self.
    cbv [on_exception bind get set_status on_status_mgr on_self modify].
    cbn [snd self status state]. discriminate.
  - cbn [snd]. rewrite finally_self, Hst.
    cbn [run_start self status state]. discriminate.
Qed.

(** X26: when the fix engine answers every bug it is given, a run that ends
    COMPLETED has called [results_generate], which returned, on a summary
    that holds the final timeline of the run, whose counters are within
    bounds (no more fixes than failures, no more commits than test passes,
    no more test passes than [retry_limit]), and for which
    [ResultsManager.generate] computes the final status NO_RUNS exactly when
    [retry_limit] is zero or negative, and PASSED or FAILED otherwise. *)
Theorem completed_run_summary (repo_url team leader : string)
    (retry_limit : Z) (o : orchestrator) (w : W) :
  let o' := (run repo_url team leader retry_limit o w).1.2 in
  state (status o') = "COMPLETED" ->
  exists summary w1 w2,
    results_generate summary w1 = (Ok tt, w2)
    /\ rs_timeline summary = timeline o'
    /\ rs_repo_url summary = repo_url /\ rs_retry_limit summary = retry_limit
    /\ 0 <= rs_fixes summary <= rs_failures summary
    /\ 0 <= rs_total_commits summary
         <= iterations_recorded (rs_timeline summary)
    /\ iterations_recorded (rs_timeline summary) <= Z.max 0 retry_limit
    /\ (final_status (rs_timeline summary) = "NO_RUNS" <-> retry_limit <= 0)
    /\ (final_status (rs_timeline summary) = "NO_RUNS"
        \/ final_status (rs_timeline summary) = "PASSED"
        \/ final_status (rs_timeline summary) = "FAILED").
Proof.
  cbn zeta. intros Hdone.
  apply completed_run_try in Hdone as (s' & Htried & ->).
  destruct (run_body_summary _ _ _ _ _ _ _ _ _ Htried)
    as (summary & w1 & w2 & Hgen & Htl & Hurl & Hlimit & Hfixes & Hcommits).
  destruct (run_body_timeline _ _ _ _ _ _ _ _ _ Htried)
    as (new & Hnew & Hlen & _ & Hlast).
  cbn [run_start self timeline app] in Hnew.
  exists summary, w1, w2. rewrite Htl, Hnew in *. unfold iterations_recorded.
  assert (Hstatus : final_status new = "NO_RUNS" /\ new = []
                    \/ new <> [] /\ (final_status new = "PASSED"
                                     \/ final_status new = "FAILED")).
  { unfold final_status. destruct (last new) as [e|] eqn:Hl.
    - right. split; [by destruct new|].
      apply last_Some in Hl as [l' ->].
      destruct (Hlast (length l') e) as [->|[-> _]]; [|by right|by left].
      by rewrite lookup_app_r, Nat.sub_diag.
    - left. split; [done|]. by apply last_None. }
  split_and!; try done; try lia.
  - split.
    + intros Hno. destruct (Z_le_gt_dec retry_limit 0) as [?|Hpos]; [done|].
      apply run_body_nonempty in Htried; [|lia].
      rewrite Hnew in Htried.
      destruct Hstatus as [[_ ->]|[_ [Hp|Hf]]]; [done|..]; congruence.
    + intros Hle. destruct Hstatus as [[? _]|[Hne _]]; [done|].
      destruct new; [done|]. cbn [length] in Hlen. lia.
  - destruct Hstatus as [[? _]|[_ [?|?]]]; auto.
Qed.

End Counted.

(** *** A run in which every test pass fails *)

(** The state in which the loop starts, after a clone that returned [p] and
    a branch creation that returned [b] and left the world [w2]. *)
Definition loop_start (retry_limit : Z) (o : orchestrator) (w : W)
    (p b : string) (w2 : W) : run_state :=
  {| self :=
       {| timeline := []; fixes := [];
          status := {| state := "RUNNING"; error := None;
                       started_at := Some (utc_now w); ended_at := None;
                       total_time_seconds := None |};
          _fix_index := ∅; _bug_fail_counts := ∅;
          status_mgr :=
            StatusManager.mark_step "Clone" "Done"
              (StatusManager.set_branch b
                 (StatusManager.set_step "Cloning" (Some 0)
                    (StatusManager.reset retry_limit "" (status_mgr o)))) |};
     loc := {| branch := b; path := p; total_failures := 0; total_fixes := 0;
               total_commits := 0 |};
     world := w2 |}.

(** Every test pass of the turns [todo], the first of which starts in [s],
    reports failures: [run_tests] returns a text that is not empty.  The
    next turn starts in the state the turn before leaves. *)
Fixpoint every_pass_fails (retry_limit : Z) (todo : list Z) (s : run_state)
  : Prop :=
  match todo with
  | [] => True
  | i :: rest =>
      (exists out w1,
         run_tests (path (loc s)) (world s) = (Ok (Some out), w1)
         /\ out <> "")
      /\ every_pass_fails retry_limit rest (iteration retry_limit i s).2
  end.

Lemma run_body_loop repo_url team leader retry_limit started start_time
    o w p w1 b w2 :
  clone repo_url w = (Ok p, w1) ->
  create_branch p team leader w1 = (Ok b, w2) ->
  run_body repo_url team leader retry_limit started start_time
    (run_start retry_limit o w)
  = (iterations retry_limit (seqZ 0 retry_limit);;;
     after_loop repo_url team leader retry_limit started start_time p b)
      (loop_start retry_limit o w p b w2).
Proof.
  intros Hclone Hbranch. unfold run_body, run_start.
  pure. called Hclone. pure. called Hbranch. do 3 pure. reflexivity.
Qed.

(** A turn whose test pass reports failures and which returns has appended
    one FAILED entry and does not leave the loop. *)
Lemma iteration_failed_pass retry_limit i s out w1 stop s' :
  run_tests (path (loc s)) (world s) = (Ok (Some out), w1) ->
  out <> "" ->
  iteration retry_limit i s = (Ok stop, s') ->
  stop = false
  /\ timeline (self s')
     = timeline (self s)
       ++ [{| run_no := i + 1; run_status := "FAILED";
              timestamp := utc_now (world s) |}]
  /\ path (loc s') = path (loc s).
Proof.
  destruct s as [[tl fx st idx cnt mgr] [br pa tf tfx tc] w]. fields.
  intros Htests Hout H. unfold iteration in H.
  do 3 stepped H.
  match goal with
  | Hx : (run_tests pa w).1 = Ok _ |- _ =>
      rewrite Htests in Hx, H; cbn [fst snd] in Hx, H; injection Hx as <-
  end.
  destruct out as [|c out]; [done|].
  do 16 stepped H.
  unfold ret in H. by injection H as <- <-.
Qed.

Lemma iterations_all_fail retry_limit todo s s' :
  every_pass_fails retry_limit todo s ->
  iterations retry_limit todo s = (Ok tt, s') ->
  exists new,
    timeline (self s') = timeline (self s) ++ new
    /\ run_no <$> new = (fun i => i + 1) <$> todo
    /\ Forall (fun e => run_status e = "FAILED") new
    /\ path (loc s') = path (loc s).
Proof.
  revert s. induction todo as [|i rest IH]; intros s Hpass H.
  - unfold iterations, ret in H. injection H as <-.
    exists []. by rewrite app_nil_r.
  - cbn [iterations] in H. destruct Hpass as [(out & w1 & Htests & Hout) Hrest].
    apply bind_inv in H as [(stop & s1 & Hit & H)|(? & _ & ?)]; [|discriminate].
    rewrite Hit in Hrest. cbn [snd] in Hrest.
    destruct (iteration_failed_pass _ _ _ _ _ _ _ Htests Hout Hit)
      as (-> & Htl & Hpath).
    destruct (IH _ Hrest H) as (new & Htl' & Hno & Hall & Hpath').
    eexists (_ :: new). split_and!.
    + by rewrite Htl', Htl, <- app_assoc.
    + by rewrite !fmap_cons, Hno.
    + by constructor.
    + congruence.
Qed.

(** C8: when no exception occurs in the [try] block of a run with
    [retry_limit = N >= 0] and every test pass of the run reports failures,
    the run ends in state COMPLETED (in [self.status] and in the status
    manager, neither with an error entry); its timeline has N entries,
    numbered 1 to N in order, all FAILED, and the status manager's iteration
    count is N, whatever the clean-up does.  The run returns normally unless
    the clean-up lets an exception out that is not an [Exception]. *)
Theorem run_all_fail_completes (repo_url team leader : string) (N : Z)
    (o : orchestrator) (w : W) (p : string) (w1 : W) (b : string) (w2 : W) :
  0 <= N ->
  clone repo_url w = (Ok p, w1) ->
  create_branch p team leader w1 = (Ok b, w2) ->
  every_pass_fails N (seqZ 0 N) (loop_start N o w p b w2) ->
  let tried := run_body repo_url team leader N (utc_now w) (time_time w)
                 (run_start N o w) in
  tried.1 = Ok tt ->
  let r := run repo_url team leader N o w in
  let o' := r.1.2 in
  let mgr := StatusManager._state (status_mgr o') in
  ((forall cls msg,
      (cleanup_repo p (world tried.2)).1 <> Raise (BaseExc cls msg)) ->
   r.1.1 = Ok tt)
  /\ state (status o') = "COMPLETED" /\ error (status o') = None
  /\ StatusManager.sm_state mgr = "COMPLETED"
  /\ StatusManager.error mgr = None
  /\ length (timeline o') = Z.to_nat N
  /\ run_no <$> timeline o' = seqZ 1 N
  /\ Forall (fun e => run_status e = "FAILED") (timeline o')
  /\ StatusManager.iteration mgr = N.
Proof.
  intros HN Hclone Hbranch Hpass tried Htried r o' mgr.
  destruct tried as [res s'] eqn:Hbody. unfold tried in Hbody.
  cbn [fst snd] in Htried. subst res.
  assert (Hloop : exists new,
    timeline (self s') = new
    /\ run_no <$> new = (fun i => i + 1) <$> seqZ 0 N
    /\ Forall (fun e => run_status e = "FAILED") new
    /\ path (loc s') = p
    /\ StatusManager.iteration (StatusManager._state (status_mgr (self s')))
       = Z.of_nat (length new)).
  { pose proof Hbody as H.
    rewrite (run_body_loop _ _ _ _ _ _ _ _ _ _ _ _ Hclone Hbranch) in H.
    apply bind_inv in H as [([] & s3 & Hit & H)|(? & _ & ?)]; [|discriminate].
    destruct (iterations_all_fail _ _ _ _ Hpass Hit)
      as (new & Htl & Hno & Hall & Hpath).
    cbn [loop_start self loc timeline path app] in Htl, Hpath.
    destruct s3 as [[tl fx st idx cnt m] [br pa tf tfx tc] w3].
    cbn [self loc timeline path] in Htl, Hpath. subst tl pa.
    unfold after_loop in H. do 2 stepped H.
    exists new.
    destruct (String.eqb p ""); do 4 stepped H;
      cbv [on_status_mgr on_self modify] in H; by injection H as <-. }
  destruct Hloop as (new & Htl & Hno & Hall & Hpath & Hiter).
  pose proof (run_body_status _ _ _ _ _ _ _ _ _ Hbody)
    as (Hst & Herr & Hms & Hme).
  unfold mgr, o', r, run. rewrite Hbody. cbn [fst snd].
  rewrite finally_self, Hst. cbn [String.eqb Ascii.eqb Bool.eqb].
  assert (Hlen : length new = Z.to_nat N).
  { rewrite <- (length_fmap run_no), Hno, length_fmap, length_seqZ. done. }
  split_and!; try done.
  - cbn [snd]. intros Hclean.
    unfold finally, bind, get. rewrite Hst.
    cbn [String.eqb Ascii.eqb Bool.eqb]. unfold ret. rewrite Hpath.
    destruct (String.eqb p ""); [done|].
    unfold call. cbn [fst snd].
    pose proof Hclean as Hcl.
    destruct (cleanup_repo p (world s')) as [[[]|[c m|c m]] w6];
      cbn [fst snd] in *; try done.
    by destruct (Hcl c m).
  - by rewrite Htl.
  - rewrite Htl, Hno.
    transitivity (Z.add 1 <$> seqZ 0 N);
      [apply list_fmap_ext; intros; lia | apply (fmap_add_seqZ 1 0 N)].
  - by rewrite Htl.
  - rewrite Hiter, Hlen. lia.
Qed.

End Run.

(** X22: when the clone and the branch succeed and the first test pass
    reports nothing ([None] or the empty text), the run attempts nothing:
    its result, the object it leaves and the world it leaves are the same
    whatever the classifier, the fix engine and [commit_push] are, so none of
    them is called; and the timeline is the single entry PASSED with run
    number 1, stamped before the test pass. *)
Theorem first_pass_attempts_nothing (W Time : Type)
    (utc_now : W -> string) (time_time : W -> Time)
    (whole_seconds : Time -> Time -> Z)
    (clone : string -> M W string)
    (create_branch : string -> string -> string -> M W string)
    (run_tests : string -> M W (option string))
    (parse parse' : string -> result (list bug))
    (apply_fixes apply_fixes'
       : string -> list queued_bug -> M W (list fix_outcome))
    (commit_push commit_push' : string -> list fix_outcome -> M W bool)
    (results_generate : run_summary -> M W unit)
    (archive_tree cleanup_repo : string -> M W unit)
    (repo_url team leader : string) (retry_limit : Z) (o : orchestrator)
    (w : W) (p : string) (w1 : W) (b : string) (w2 : W)
    (failures : option string) (w3 : W) :
  0 < retry_limit ->
  clone repo_url w = (Ok p, w1) ->
  create_branch p team leader w1 = (Ok b, w2) ->
  run_tests p w2 = (Ok failures, w3) ->
  failures = None \/ failures = Some "" ->
  let outcome :=
    run W Time utc_now time_time whole_seconds clone create_branch run_tests
      parse apply_fixes commit_push results_generate archive_tree
      cleanup_repo repo_url team leader retry_limit o w in
  outcome
  = run W Time utc_now time_time whole_seconds clone create_branch run_tests
      parse' apply_fixes' commit_push' results_generate archive_tree
      cleanup_repo repo_url team leader retry_limit o w
  /\ timeline outcome.1.2
     = [{| run_no := 1; run_status := "PASSED"; timestamp := utc_now w2 |}].
Proof.
  intros Hlimit Hclone Hbranch Htests Hpass outcome.
  pose proof (run_body_passed_at_once W Time utc_now time_time whole_seconds
                clone create_branch run_tests parse apply_fixes commit_push
                results_generate archive_tree repo_url team leader
                retry_limit (utc_now w) (time_time w) o w p w1 b w2 failures
                w3 Hlimit Hclone Hbranch Htests Hpass) as Hbody.
  pose proof (run_body_passed_at_once W Time utc_now time_time whole_seconds
                clone create_branch run_tests parse' apply_fixes' commit_push'
                results_generate archive_tree repo_url team leader
                retry_limit (utc_now w) (time_time w) o w p w1 b w2 failures
                w3 Hlimit Hclone Hbranch Htests Hpass) as Hbody'.
  split.
  - unfold outcome, run. by rewrite Hbody, Hbody'.
  - unfold outcome.
    destruct (after_loop W Time utc_now time_time whole_seconds
                results_generate archive_tree repo_url team leader
                retry_limit (utc_now w) (time_time w) p b
                (passed_at_once W utc_now retry_limit o w p b w2 w3))
      as [r s1] eqn:Htail.
    rewrite (run_timeline_of_try _ _ _ _ _ _ _ _ _ _ _ _ _ _ _ _ _ _ _ _ _ _
               Hbody).
    by apply keeps_timeline_after_loop in Htail.
Qed.

(** *** Escalation as the fix engine sees it *)

(** C2 (failing input): an IMPORT bug with two recorded failures and a SYNTAX
    bug with three are queued with [force_groq] set.  [apply_fixes] reads
    neither [force_groq] nor [failed_attempts] of any bug; on these two it
    runs the missing-[__init__] strategy, which creates [pkg/__init__.py],
    and the syntax strategy, which appends the missing colon, reports both
    bugs Fixed, and sends no request to the oracle. *)
Theorem escalated_bugs_run_deterministic_strategy
    (re_sub : string -> string -> string -> string)
    (ruff_check_fix : string -> string -> gmap string FixAgent.node
                      -> gmap string FixAgent.node)
    (responses_create : nat -> string -> result string)
    (compile_exec : string -> string -> result unit) :
  let import_bug := {| b_file := "pkg/mod.py"; b_bug_type := "IMPORT";
                       b_line := 1; b_status := "Detected" |} in
  let syntax_bug := {| b_file := "pkg/shop.py"; b_bug_type := "SYNTAX";
                       b_line := 1; b_status := "Detected" |} in
  let counts := <[bug_key syntax_bug := 3]> {[ bug_key import_bug := 2 ]} in
  let queued := queue_bug counts <$> [import_bug; syntax_bug] in
  Forall (fun q => q_force_groq q = true) queued
  /\ (q_failed_attempts <$> queued) = [2; 3]
  /\ (forall repo_path bugs w,
        FixAgent.apply_fixes re_sub ruff_check_fix responses_create
          compile_exec repo_path bugs w
        = FixAgent.apply_fixes re_sub ruff_check_fix responses_create
            compile_exec repo_path (FixAgent.without_escalation <$> bugs) w)
  /\ FixAgent.apply_fixes re_sub ruff_check_fix responses_create compile_exec
       "workspace/repo" queued FixAgent.fresh_clone
     = (Ok [{| f_file := "pkg/mod.py"; f_bug_type := "IMPORT"; f_line := 1;
               f_status := "Fixed";
               f_commit_message := "[AI-AGENT] Fix IMPORT error" |};
            {| f_file := "pkg/shop.py"; f_bug_type := "SYNTAX"; f_line := 1;
               f_status := "Fixed";
               f_commit_message := "[AI-AGENT] Fix SYNTAX error" |}],
        {| FixAgent.fs :=
             <["workspace/repo/pkg/shop.py" :=
                 FixAgent.File ("def total(items):" +:+ Py.nl)]>
               (<["workspace/repo/pkg/__init__.py" := FixAgent.File ""]>
                  FixAgent.repo_tree);
           FixAgent.groq_calls := 0 |}).
Proof.
  split_and!.
  - vm_compute. by repeat constructor.
  - vm_compute. reflexivity.
  - intros. apply FixAgent.apply_fixes_ignores_escalation.
  - vm_compute. reflexivity.
Qed.

(** *** Two small runs *)

(** Collaborators that do nothing to a world without content: the clock
    stands still, the clone and the branch succeed, the commit finds nothing
    to commit, and the fix engine fails every bug. *)
Definition still_clock : unit -> string := fun _ => "2026-01-01T00:00:00+00:00".
Definition clone_ok : string -> M unit string :=
  fun _ => ret "workspace/repo".
Definition clone_asserts : string -> M unit string :=
  fun _ => raise (Exc "AssertionError" "").
Definition branch_ok : string -> string -> string -> M unit string :=
  fun _ _ _ => ret "TEAM_LEAD_AI_FIX".
Definition tests_fail : string -> M unit (option string) :=
  fun _ => ret (Some "1 failed in 0.12s").
Definition classify : string -> result (list bug) :=
  BugAgent.parse BugAgent.no_match BugAgent.no_match BugAgent.no_match
    BugAgent.no_match 4300.
Definition fix_nothing : string -> list queued_bug -> M unit (list fix_outcome) :=
  fun _ bugs =>
    ret ((fun q => {| f_file := q_file q; f_bug_type := q_bug_type q;
                      f_line := q_line q; f_status := "Failed";
                      f_commit_message :=
                        "[AI-AGENT] Could not auto-fix " +:+ q_bug_type q |})
           <$> bugs).
Definition nothing_to_commit : string -> list fix_outcome -> M unit bool :=
  fun _ _ => ret false.
Definition generate_ok : run_summary -> M unit unit := fun _ => ret tt.
Definition path_ok : string -> M unit unit := fun _ => ret tt.

(** A run whose clone fails an assertion without message: [str(exc)] is the
    empty string.  The run ends FAILED; [self.status] carries the empty
    string as its error and the status manager carries no error entry. *)
Lemma failed_run_with_empty_error :
  let o' := (run unit Z still_clock (fun _ => 0) Z.sub clone_asserts branch_ok
               tests_fail classify fix_nothing nothing_to_commit generate_ok
               path_ok path_ok "https://example.org/r.git" "team" "lead" 3
               init tt).1.2 in
  state (status o') = "FAILED"
  /\ error (status o') = Some ""
  /\ StatusManager.sm_state (StatusManager._state (status_mgr o')) = "FAILED"
  /\ StatusManager.error (StatusManager._state (status_mgr o')) = None.
Proof. vm_compute. by repeat split. Qed.

(** A run in which every test pass fails and whose clean-up is
    interrupted: [run] is left by the [KeyboardInterrupt], and the records
    say COMPLETED, without an error. *)
Definition cleanup_interrupted : string -> M unit unit :=
  fun _ => raise (BaseExc "KeyboardInterrupt" "").

Example completed_run_left_by_interrupt :
  let outcome := run unit Z still_clock (fun _ => 0) Z.sub clone_ok branch_ok
                   tests_fail classify fix_nothing nothing_to_commit
                   generate_ok path_ok cleanup_interrupted
                   "https://example.org/r.git" "team" "lead" 3 init tt in
  outcome.1.1 = Raise (BaseExc "KeyboardInterrupt" "")
  /\ state (status outcome.1.2) = "COMPLETED"
  /\ error (status outcome.1.2) = None
  /\ StatusManager.sm_state (StatusManager._state (status_mgr outcome.1.2))
     = "COMPLETED"
  /\ StatusManager.error (StatusManager._state (status_mgr outcome.1.2))
     = None.
Proof. vm_compute. by repeat split. Qed.

(** A run of the fix engine itself, on the small working tree of
    [FixAgent]: every test pass reports the unbalanced parenthesis of
    [pkg/calc.py], the syntax strategy finds nothing to change and every
    request to the oracle times out. *)
Definition engine_clock : FixAgent.world -> string :=
  fun _ => "2026-01-01T00:00:00+00:00".
Definition engine_clone : string -> M FixAgent.world string :=
  fun _ => ret "workspace/repo".
Definition engine_branch : string -> string -> string -> M FixAgent.world string :=
  fun _ _ _ => ret "TEAM_LEAD_AI_FIX".
Definition engine_tests : string -> M FixAgent.world (option string) :=
  fun _ => ret (Some "SyntaxError: '(' was never closed").
Definition calc_traceback
  : string -> bool -> string -> list (string * Decimal.uint) :=
  fun re _ _ =>
    if String.eqb re BugAgent.syntax_re
    then [("workspace/repo/pkg/calc.py", Decimal.D1 Decimal.Nil)]
    else [].
Definition engine_parse : string -> result (list bug) :=
  BugAgent.parse BugAgent.no_match calc_traceback BugAgent.no_match
    BugAgent.no_match 4300.
Definition engine_fixes
  : string -> list queued_bug -> M FixAgent.world (list fix_outcome) :=
  FixAgent.apply_fixes FixAgent.sub_no_match FixAgent.ruff_idle
    FixAgent.oracle_timeout FixAgent.blank_module_compiles.
Definition engine_commit : string -> list fix_outcome -> M FixAgent.world bool :=
  fun _ _ => ret false.
Definition engine_generate : run_summary -> M FixAgent.world unit :=
  fun _ => ret tt.
Definition engine_path : string -> M FixAgent.world unit := fun _ => ret tt.

Lemma run_all_fail_completes_witness :
  0 <= 3
  /\ let r := run FixAgent.world Z engine_clock (fun _ => 0) Z.sub
                engine_clone engine_branch engine_tests engine_parse
                engine_fixes engine_commit engine_generate engine_path
                engine_path "https://example.org/r.git" "team" "lead" 3
                init FixAgent.fresh_clone in
     r.1.1 = Ok tt
     /\ state (status r.1.2) = "COMPLETED" /\ error (status r.1.2) = None
     /\ StatusManager.sm_state (StatusManager._state (status_mgr r.1.2))
        = "COMPLETED"
     /\ StatusManager.error (StatusManager._state (status_mgr r.1.2)) = None
     /\ length (timeline r.1.2) = Z.to_nat 3
     /\ run_no <$> timeline r.1.2 = seqZ 1 3
     /\ Forall (fun e => run_status e = "FAILED") (timeline r.1.2)
     /\ StatusManager.iteration (StatusManager._state (status_mgr r.1.2)) = 3.
Proof.
  split; [lia|].
  assert (H := run_all_fail_completes FixAgent.world Z engine_clock
           (fun _ => 0) Z.sub engine_clone engine_branch engine_tests
           engine_parse engine_fixes engine_commit engine_generate
           engine_path engine_path
           "https://example.org/r.git" "team" "lead" 3 init
           FixAgent.fresh_clone "workspace/repo" FixAgent.fresh_clone
           "TEAM_LEAD_AI_FIX" FixAgent.fresh_clone).
  cbn zeta in H. intros r.
  destruct H as [Hreturns Hrest].
  - lia.
  - reflexivity.
  - reflexivity.
  - change (seqZ 0 3) with [0; 1; 2]. cbn [every_pass_fails].
    repeat split; eexists _, _; (split; [reflexivity|discriminate]).
  - vm_compute. reflexivity.
  - split; [|exact Hrest].
    apply Hreturns. intros cls msg. discriminate.
Defined.

(** The same run, evaluated: the bug is attempted three times, each attempt
    asks the oracle once, and from the third turn on the bug is queued with
    the escalation flag. *)
Example engine_run_three_failures :
  let r := run FixAgent.world Z engine_clock (fun _ => 0) Z.sub
             engine_clone engine_branch engine_tests engine_parse
             engine_fixes engine_commit engine_generate engine_path
             engine_path "https://example.org/r.git" "team" "lead" 3
             init FixAgent.fresh_clone in
  fixes r.1.2
  = [ {| f_file := "pkg/calc.py"; f_bug_type := "SYNTAX"; f_line := 1;
         f_status := "Failed";
         f_commit_message := "[AI-AGENT] Could not auto-fix SYNTAX" |} ]
  /\ _bug_fail_counts r.1.2 !! ("pkg/calc.py", "SYNTAX", 1) = Some 3
  /\ FixAgent.groq_calls r.2 = 3%nat
  /\ FixAgent.fs r.2 !! "workspace/repo/pkg/calc.py"
     = Some (FixAgent.File ("total = price * (1 + rate" +:+ Py.nl)).
Proof. vm_compute. by repeat split. Qed.

(** A test pass that reports nothing, a fix engine that raises and a commit
    that always finds changes. *)
Definition tests_pass : string -> M unit (option string) :=
  fun _ => ret None.
Definition fix_raises : string -> list queued_bug -> M unit (list fix_outcome) :=
  fun _ _ => raise (Exc "RuntimeError" "fix engine called").
Definition always_commits : string -> list fix_outcome -> M unit bool :=
  fun _ _ => ret true.

Lemma first_pass_attempts_nothing_witness :
  let outcome :=
    run unit Z still_clock (fun _ => 0) Z.sub clone_ok branch_ok tests_pass
      classify fix_nothing nothing_to_commit generate_ok path_ok path_ok
      "https://example.org/r.git" "team" "lead" 3 init tt in
  outcome
  = run unit Z still_clock (fun _ => 0) Z.sub clone_ok branch_ok tests_pass
      (fun _ => Ok []) fix_raises always_commits generate_ok path_ok path_ok
      "https://example.org/r.git" "team" "lead" 3 init tt
  /\ timeline outcome.1.2
     = [{| run_no := 1; run_status := "PASSED"; timestamp := still_clock tt |}].
Proof.
  apply (first_pass_attempts_nothing unit Z still_clock (fun _ => 0) Z.sub
           clone_ok branch_ok tests_pass classify (fun _ => Ok []) fix_nothing
           fix_raises nothing_to_commit always_commits generate_ok path_ok
           path_ok "https://example.org/r.git" "team" "lead" 3 init tt
           "workspace/repo" tt "TEAM_LEAD_AI_FIX" tt None tt).
  - lia.
  - reflexivity.
  - reflexivity.
  - reflexivity.
  - left. reflexivity.
Defined.

Lemma completed_run_summary_witness :
  let o' := (run unit Z still_clock (fun _ => 0) Z.sub clone_ok branch_ok
               tests_fail classify fix_nothing nothing_to_commit generate_ok
               path_ok path_ok "https://example.org/r.git" "team" "lead" 3
               init tt).1.2 in
  exists summary w1 w2,
    generate_ok summary w1 = (Ok tt, w2)
    /\ rs_timeline summary = timeline o'
    /\ rs_repo_url summary = "https://example.org/r.git"
    /\ rs_retry_limit summary = 3
    /\ 0 <= rs_fixes summary <= rs_failures summary
    /\ 0 <= rs_total_commits summary
         <= iterations_recorded (rs_timeline summary)
    /\ iterations_recorded (rs_timeline summary) <= Z.max 0 3
    /\ (final_status (rs_timeline summary) = "NO_RUNS" <-> 3 <= 0)
    /\ (final_status (rs_timeline summary) = "NO_RUNS"
        \/ final_status (rs_timeline summary) = "PASSED"
        \/ final_status (rs_timeline summary) = "FAILED").
Proof.
  assert (Hall : forall p bugs w items w',
            fix_nothing p bugs w = (Ok items, w') ->
            length items = length bugs).
  { intros p bugs w items w' H. injection H as <- _. apply length_fmap. }
  apply (completed_run_summary unit Z still_clock (fun _ => 0) Z.sub clone_ok
           branch_ok tests_fail classify fix_nothing nothing_to_commit
           generate_ok path_ok path_ok Hall "https://example.org/r.git"
           "team" "lead" 3 init tt).
  vm_compute. reflexivity.
Defined.

(** The same run, evaluated: three FAILED entries and the UNKNOWN bug
    recorded as Failed. *)
Example three_failing_iterations :
  let r := run unit Z still_clock (fun _ => 0) Z.sub clone_ok branch_ok
             tests_fail classify fix_nothing nothing_to_commit generate_ok
             path_ok path_ok "https://example.org/r.git" "team" "lead" 3
             init tt in
  timeline r.1.2
  = [ {| run_no := 1; run_status := "FAILED"; timestamp := still_clock tt |};
      {| run_no := 2; run_status := "FAILED"; timestamp := still_clock tt |};
      {| run_no := 3; run_status := "FAILED"; timestamp := still_clock tt |} ]
  /\ fixes r.1.2
     = [ {| f_file := "<unknown>"; f_bug_type := "UNKNOWN"; f_line := 1;
            f_status := "Failed";
            f_commit_message := "[AI-AGENT] Could not auto-fix UNKNOWN" |} ]
  /\ state (status r.1.2) = "COMPLETED".
Proof. vm_compute. by repeat split. Qed.

End Orchestrator.
